(** * ko-speech-tools: Hangul romanization and special pronunciation rules

    A shallow embedding of [src/ko_speech_tools/romanize.py] and of the
    rewrite rules of [src/ko_speech_tools/g2p/special.py], with the
    properties of the natural-language specification proved about them.

    A Python [str] is a list of Unicode code points (type [Z]); the
    romanization tables are written as ASCII literals and converted with
    [u]. Python exceptions are values of the error monad [py]. The set
    [ACADEMIC_AMBIGUOUS_PATTERNS] is a [gset] of strings. *)

From Stdlib Require Import ZArith Lia Ascii String.
From stdpp Require Import base tactics option list gmap.

Local Open Scope Z_scope.

(* ===================================================================== *)
(** * Python values *)
(* ===================================================================== *)

(** A [str]: the sequence of its code points. *)
Abbreviation str := (list Z).

(** An ASCII literal as a [str]. *)
Fixpoint u (s : string) : str :=
  match s with
  | EmptyString => []
  | String a s' => Z.of_N (N_of_ascii a) :: u s'
  end.

(** The exceptions the embedded code can raise. *)
Inductive exn := TypeError | IndexError.

(** A computation that returns a value or raises. *)
Inductive py (A : Type) : Type :=
  | Ret (a : A)
  | Raise (e : exn).
Arguments Ret {A} a.
Arguments Raise {A} e.

#[global] Instance py_ret : MRet py := λ A a, Ret a.
#[global] Instance py_bind : MBind py := λ A B f m,
  match m with
  | Ret a => f a
  | Raise e => Raise e
  end.
#[global] Instance py_fmap : FMap py := λ A B f m,
  match m with
  | Ret a => Ret (f a)
  | Raise e => Raise e
  end.

(** [ord(s)]: the code point of a one-character string, [TypeError] for
    any other length. *)
Definition ord (s : str) : py Z :=
  match s with
  | [c] => Ret c
  | _ => Raise TypeError
  end.

(** [t[i]] on a tuple: negative indices count from the end, an index out
    of range raises [IndexError]. *)
Definition getitem {A} (t : list A) (i : Z) : py A :=
  let n := Z.of_nat (length t) in
  let j := if bool_decide (i < 0) then i + n else i in
  if bool_decide (0 ≤ j < n) then
    match t !! Z.to_nat j with
    | Some x => Ret x
    | None => Raise IndexError
    end
  else Raise IndexError.

(** [itertools.product(xs, ys)], in its iteration order. *)
Definition product {A B} (xs : list A) (ys : list B) : list (A * B) :=
  x ← xs; y ← ys; [(x, y)].

(** [for c in text]: iterating a [str] yields its one-character strings. *)
Definition iter_str (text : str) : list str := (λ c, [c]) <$> text.

(* ===================================================================== *)
(** * romanize.py *)
(* ===================================================================== *)

Definition REVISED_INITIALS : list str :=
  u <$> ["g"; "kk"; "n"; "d"; "tt"; "l"; "m"; "b"; "pp"; "s"; "ss"; "";
         "j"; "jj"; "ch"; "k"; "t"; "p"; "h"]%string.

Definition REVISED_VOWELS : list str :=
  u <$> ["a"; "ae"; "ya"; "yae"; "eo"; "e"; "yeo"; "ye"; "o"; "wa"; "wae";
         "oe"; "yo"; "u"; "wo"; "we"; "wi"; "yu"; "eu"; "ui"; "i"]%string.

Definition REVISED_FINALS : list str :=
  u <$> [""; "g"; "kk"; "gs"; "n"; "nj"; "nh"; "d"; "l"; "lg"; "lm"; "lb";
         "ls"; "lt"; "lp"; "lh"; "m"; "b"; "bs"; "s"; "ss"; "ng"; "j"; "ch";
         "k"; "t"; "p"; "h"]%string.

(** The test of the inner loop of [academic_ambiguous_patterns] at split
    point [i]: [head in REVISED_FINALS and tail in REVISED_INITIALS]. *)
Definition valid_split (combined : str) (i : nat) : bool :=
  let head := take i combined in
  let tail := drop i combined in
  bool_decide (head ∈ REVISED_FINALS) && bool_decide (tail ∈ REVISED_INITIALS).

(** The inner loop [for i in range(len(combined))], run over the indices
    [idxs] still to visit with the current value of [check]; it returns
    whether [result.add(combined)] is reached (after which it breaks). *)
Fixpoint split_loop (combined : str) (idxs : list nat) (check : bool) : bool :=
  match idxs with
  | [] => false
  | i :: idxs' =>
      if valid_split combined i then
        if negb check then split_loop combined idxs' true
        else true
      else split_loop combined idxs' check
  end.

(** One iteration of the outer loop over [(final, initial)]. *)
Definition patterns_step (result : gset str) (fi : str * str) : gset str :=
  let '(final, initial) := fi in
  let combined := final ++ initial in
  if split_loop combined (seq 0 (length combined)) false
  then {[ combined ]} ∪ result
  else result.

Definition academic_ambiguous_patterns : gset str :=
  foldl patterns_step ∅ (product REVISED_FINALS REVISED_INITIALS).

Definition ACADEMIC_AMBIGUOUS_PATTERNS : gset str :=
  academic_ambiguous_patterns.

(** ** class Syllable *)

Record Syllable := { code : Z }.

Definition MIN : Z := 0xAC00.
Definition MAX : Z := 0xD7A3.

(** [Syllable.__init__(self, char=None, code=None)]. A non-empty [char]
    sets [code = ord(char)]; with an empty [char] the code stays [None]
    and the range comparison itself raises [TypeError]. *)
Definition Syllable_init (char : option str) (code : option Z) : py Syllable :=
  match char, code with
  | None, None => Raise TypeError
  | Some _, Some _ => Raise TypeError
  | _, _ =>
      code' ← match char with
              | None | Some [] => Ret code
              | Some ch => Some <$> ord ch
              end;
      match code' with
      | None => Raise TypeError
      | Some cd =>
          if bool_decide (MIN ≤ cd ≤ MAX) then Ret {| code := cd |}
          else Raise TypeError
      end
  end.

Definition index (s : Syllable) : Z := code s - MIN.
Definition initial (s : Syllable) : Z := index s `div` 588.
Definition vowel (s : Syllable) : Z := (index s `div` 28) `mod` 21.
Definition final (s : Syllable) : Z := index s `mod` 28.

(** ** The academic rule *)

(** A window slot [(c, s)]: the character (or [None]) and its [Syllable]
    view (or [None]). *)
Definition slot : Type := option str * option Syllable.

(** [academic(now, pre, **options)]. [pre] is [None] or a tuple; a tuple
    of two elements is true, and so is a [Syllable] object. The result is
    [None], the character itself, or the romanization. *)
Definition academic (now : slot) (pre : option slot) (post : slot)
  : py (option str) :=
  let '(c, s) := now in
  match s with
  | None => Ret c
  | Some s =>
      let ps := match pre with Some p => p.2 | None => None end in
      marker ← match ps with
               | Some ps =>
                   if bool_decide (initial s = 11) then Ret true
                   else
                     f ← getitem REVISED_FINALS (final ps);
                     i ← getitem REVISED_INITIALS (initial s);
                     Ret (bool_decide (f ++ i ∈ ACADEMIC_AMBIGUOUS_PATTERNS))
               | None => Ret false
               end;
      let r := [] in
      let r := if (marker : bool) then r ++ u "-" else r in
      i ← getitem REVISED_INITIALS (initial s);
      v ← getitem REVISED_VOWELS (vowel s);
      f ← getitem REVISED_FINALS (final s);
      Ret (Some (r ++ (i ++ v ++ f)))
  end.

(** ** class Transliter *)

(** A rule: [rule(now, pre=pre, post=post)]. *)
Definition rule_t : Type := slot → option slot → slot → py (option str).

(** The local variables of [translit]. *)
Record window := { result : list str; pre : slot; now : slot }.

(** [if out is not None: result.append(out)]. *)
Definition append_out (result : list str) (out : option str) : list str :=
  match out with
  | Some o => result ++ [o]
  | None => result
  end.

(** [try: post = c, Syllable(c)  except TypeError: post = c, None]. *)
Definition make_post (c : str) : py slot :=
  match Syllable_init (Some c) None with
  | Ret s => Ret (Some c, Some s)
  | Raise TypeError => Ret (Some c, None)
  | Raise e => Raise e
  end.

(** The body of [for c in text]. *)
Definition translit_step (rule : rule_t) (w : window) (c : str) : py window :=
  post ← make_post c;
  result' ← match (now w).1 with
            | Some _ =>
                out ← rule (now w) (Some (pre w)) post;
                Ret (append_out (result w) out)
            | None => Ret (result w)
            end;
  Ret {| result := result'; pre := now w; now := post |}.

Fixpoint translit_loop (rule : rule_t) (w : window) (cs : list str) : py window :=
  match cs with
  | [] => Ret w
  | c :: cs' => w' ← translit_step rule w c; translit_loop rule w' cs'
  end.

(** The list [result] when [translit] reaches its [return]. The final
    test [now is not None] is on a tuple, so it always holds. *)
Definition translit_result (rule : rule_t) (text : str) : py (list str) :=
  w ← translit_loop rule
        {| result := []; pre := (None, None); now := (None, None) |}
        (iter_str text);
  out ← rule (now w) (Some (pre w)) (None, None);
  Ret (append_out (result w) out).

(** [Transliter(rule).translit(text)]: [u''.join(result)]. *)
Definition translit (rule : rule_t) (text : str) : py str :=
  result ← translit_result rule text;
  Ret (List.concat result).

(* ===================================================================== *)
(** * The [re] module, as far as special.py uses it *)
(* ===================================================================== *)

(** A compiled pattern together with its replacement template, seen from
    one position of the subject: [m s] is [Some (out, n)] when the pattern
    matches the first [n] characters of the remaining text [s], [out]
    being the expanded template, and [None] when it does not match there.
    Every pattern of special.py matches at least three characters, so the
    empty match never arises. *)
Definition matcher : Type := str → option (str * nat).

(** [re.sub(pattern, repl, s)]: the subject is scanned from the left; at a
    position where the pattern matches, the expansion is emitted and the
    scan resumes after the match, otherwise the character is copied.
    [skip] counts the characters of the current match still to pass. *)
Fixpoint sub_from (m : matcher) (skip : nat) (s : str) : str :=
  match s with
  | [] => []
  | c :: s' =>
      match skip with
      | S k => sub_from m k s'
      | O =>
          match m s with
          | Some (out, n) => out ++ sub_from m (Nat.pred n) s'
          | None => c :: sub_from m O s'
          end
      end
  end.

Definition re_sub (m : matcher) (s : str) : str := sub_from m 0 s.

(** A character class. *)
Definition cls : Type := Z → bool.

(** A literal character. *)
Definition lit (x : Z) : cls := λ c, bool_decide (c = x).

(** A set [[...]]. *)
Definition oneof (xs : list Z) : cls := λ c, bool_decide (c ∈ xs).

(** Unicode white space as [\s] sees it in a [str] pattern. *)
Definition isspace (c : Z) : bool :=
  bool_decide (0x09 ≤ c ≤ 0x0D) || bool_decide (0x1C ≤ c ≤ 0x20)
  || bool_decide (c ∈ [0x85; 0xA0; 0x1680])
  || bool_decide (0x2000 ≤ c ≤ 0x200A)
  || bool_decide (c ∈ [0x2028; 0x2029; 0x202F; 0x205F; 0x3000]).

(** [\S]. *)
Definition nonspace : cls := λ c, negb (isspace c).

(** A pattern that is a sequence of classes, one character each: the text
    matched at the head of [s], if any. *)
Fixpoint match_seq (p : list cls) (s : str) : option str :=
  match p with
  | [] => Some []
  | cl :: p' =>
      match s with
      | [] => None
      | c :: s' => if cl c then (c ::.) <$> match_seq p' s' else None
      end
  end.

(** Such a pattern with a template [repl], a function of the matched text. *)
Definition pattern (p : list cls) (repl : str → str) : matcher :=
  λ s, (λ m, (repl m, length p)) <$> match_seq p s.

(** The characters [i .. i+n-1] of the match: a group of the pattern. *)
Definition group (i n : nat) (m : str) : str := take n (drop i m).

(** [s.replace(old, new)] for a non-empty [old]. *)
Definition str_replace (old new : str) (s : str) : str :=
  re_sub (pattern (lit <$> old) (λ _, new)) s.

(** [$]: the end of the subject, or just before a newline that ends it. *)
Definition at_dollar (s : str) : bool :=
  bool_decide (s = []) || bool_decide (s = [0x0A]).

(* ===================================================================== *)
(** * g2p/special.py *)
(* ===================================================================== *)

(** The jamo of the patterns, by code point. Leading consonants: *)
Abbreviation cho_G := 0x1100.      Abbreviation cho_GG := 0x1101.
Abbreviation cho_N := 0x1102.      Abbreviation cho_D := 0x1103.
Abbreviation cho_DD := 0x1104.     Abbreviation cho_R := 0x1105.
Abbreviation cho_M := 0x1106.      Abbreviation cho_B := 0x1107.
Abbreviation cho_BB := 0x1108.     Abbreviation cho_S := 0x1109.
Abbreviation cho_SS := 0x110A.     Abbreviation cho_IEUNG := 0x110B.
Abbreviation cho_J := 0x110C.      Abbreviation cho_JJ := 0x110D.
Abbreviation cho_C := 0x110E.      Abbreviation cho_K := 0x110F.
Abbreviation cho_T := 0x1110.      Abbreviation cho_P := 0x1111.
Abbreviation cho_H := 0x1112.
(** Vowels: *)
Abbreviation jung_A := 0x1161.     Abbreviation jung_EO := 0x1165.
Abbreviation jung_E := 0x1166.     Abbreviation jung_YE := 0x1168.
Abbreviation jung_U := 0x116E.     Abbreviation jung_EU := 0x1173.
Abbreviation jung_YI := 0x1174.    Abbreviation jung_I := 0x1175.
(** Trailing consonants: *)
Abbreviation jong_G := 0x11A8.     Abbreviation jong_D := 0x11AE.
Abbreviation jong_LB := 0x11B2.    Abbreviation jong_LT := 0x11B4.
Abbreviation jong_B := 0x11B8.     Abbreviation jong_J := 0x11BD.
Abbreviation jong_C := 0x11BE.     Abbreviation jong_K := 0x11BF.
Abbreviation jong_T := 0x11C0.     Abbreviation jong_P := 0x11C1.
Abbreviation jong_H := 0x11C2.
(** The compatibility letter U+3139 and the ASCII characters of the tags: *)
Abbreviation hcj_RIEUL := 0x3139.
Abbreviation slash := 0x2F.        Abbreviation tag_J := 0x4A.
Abbreviation tag_P := 0x50.

(** The rules take [inp] and the keyword [descriptive]; [verbose] only
    prints and is left out, and so is the look-up of the rule's text. *)

(** The class of the pattern of [ye], as the source spells it. *)
Definition ye_class : list Z :=
  [cho_G; cho_GG; cho_D; cho_DD; hcj_RIEUL; cho_M; cho_B; cho_BB; cho_J;
   cho_JJ; cho_C; cho_K; cho_T; cho_P; cho_H].

Definition ye (inp : str) (descriptive : bool) : str :=
  if descriptive then
    re_sub (pattern [oneof ye_class; lit jung_YE]
                    (λ m, group 0 1 m ++ [jung_E])) inp
  else inp.

Definition josa_ui (inp : str) (descriptive : bool) : str :=
  if descriptive then
    re_sub (pattern [lit cho_IEUNG; lit jung_YI; lit slash; lit tag_J]
                    (λ _, [cho_IEUNG; jung_E])) inp
  else str_replace [slash; tag_J] [] inp.

Definition vowel_ui (inp : str) (descriptive : bool) : str :=
  if descriptive then
    re_sub (pattern [nonspace; lit cho_IEUNG; lit jung_YI]
                    (λ m, group 0 2 m ++ [jung_I])) inp
  else inp.

Definition jamo (inp : str) (descriptive : bool) : str :=
  let out := inp in
  let out := re_sub (pattern [oneof [cho_G; jung_EU]; lit jong_D; lit cho_IEUNG]
                             (λ m, group 0 1 m ++ [cho_S])) out in
  let out := re_sub (pattern [oneof [cho_IEUNG; jung_EU];
                              oneof [jong_J; jong_C; jong_T; jong_H];
                              lit cho_IEUNG]
                             (λ m, group 0 1 m ++ [cho_S])) out in
  let out := re_sub (pattern [oneof [cho_IEUNG; jung_EU]; oneof [jong_K];
                              lit cho_IEUNG]
                             (λ m, group 0 1 m ++ [cho_G])) out in
  let out := re_sub (pattern [oneof [cho_IEUNG; jung_EU]; oneof [jong_P];
                              lit cho_IEUNG]
                             (λ m, group 0 1 m ++ [cho_B])) out in
  out.

(** One substitution of [rieulbieub]: [([ᆲᆴ])/P] and the onset [from]
    become group 1 and the onset [to]. *)
Definition rieulbieub_sub (from to : Z) : matcher :=
  pattern [oneof [jong_LB; jong_LT]; lit slash; lit tag_P; lit from]
          (λ m, group 0 1 m ++ [to]).

Definition rieulbieub (inp : str) (descriptive : bool) : str :=
  let out := inp in
  let out := re_sub (rieulbieub_sub cho_G cho_GG) out in
  let out := re_sub (rieulbieub_sub cho_D cho_DD) out in
  let out := re_sub (rieulbieub_sub cho_S cho_SS) out in
  let out := re_sub (rieulbieub_sub cho_J cho_JJ) out in
  out.

(** The first pattern of [balb]: [(바)ᆲ($|[^ᄋᄒ])] with the template
    [\1ᆸ\2]. The alternative [$] is tried first and leaves group 2 empty;
    the negated set takes one character other than ᄋ and ᄒ, a newline
    included. *)
Definition balb_ba : matcher := λ s,
  match s with
  | c1 :: c2 :: c3 :: rest =>
      if lit cho_B c1 && lit jung_A c2 && lit jong_LB c3 then
        if at_dollar rest then Some ([c1; c2; jong_B], 3%nat)
        else
          match rest with
          | c4 :: _ =>
              if negb (oneof [cho_IEUNG; cho_H] c4)
              then Some ([c1; c2; jong_B; c4], 4%nat)
              else None
          | [] => None
          end
      else None
  | _ => None
  end.

(** The second pattern of [balb]: [(너)ᆲ([ᄌᄍ]ᅮ|[ᄃᄄ]ᅮ)], template
    [\1ᆸ\2]; both alternatives are an onset and the vowel ᅮ. *)
Definition balb_neo : matcher :=
  pattern [lit cho_N; lit jung_EO; lit jong_LB;
           (λ c, oneof [cho_J; cho_JJ] c || oneof [cho_D; cho_DD] c);
           lit jung_U]
          (λ m, group 0 2 m ++ [jong_B] ++ group 3 2 m).

Definition balb (inp : str) (descriptive : bool) : str :=
  let out := inp in
  let out := re_sub balb_ba out in
  let out := re_sub balb_neo out in
  out.

(** ** The other rules of special.py *)

(** More jamo and ASCII characters of their patterns. *)
Abbreviation jung_AE := 0x1162.    Abbreviation jung_YEO := 0x1167.
Abbreviation jung_O := 0x1169.
Abbreviation jong_GG := 0x11A9.    Abbreviation jong_N := 0x11AB.
Abbreviation jong_NJ := 0x11AC.    Abbreviation jong_L := 0x11AF.
Abbreviation jong_LG := 0x11B0.    Abbreviation jong_LM := 0x11B1.
Abbreviation jong_M := 0x11B7.     Abbreviation jong_NG := 0x11BC.
Abbreviation tag_E := 0x45.        Abbreviation space := 0x20.

Definition jyeo (inp : str) (descriptive : bool) : str :=
  re_sub (pattern [oneof [cho_J; cho_JJ; cho_C]; lit jung_YEO]
                  (λ m, group 0 1 m ++ [jung_EO])) inp.

(** The class of the pattern of [consonant_ui]. *)
Definition consonant_ui_class : list Z :=
  [cho_G; cho_GG; cho_N; cho_D; cho_DD; cho_R; cho_M; cho_B; cho_BB; cho_S;
   cho_SS; cho_J; cho_JJ; cho_C; cho_K; cho_T; cho_P; cho_H].

Definition consonant_ui (inp : str) (descriptive : bool) : str :=
  re_sub (pattern [oneof consonant_ui_class; lit jung_YI]
                  (λ m, group 0 1 m ++ [jung_I])) inp.

Definition rieulgiyeok (inp : str) (descriptive : bool) : str :=
  let out := inp in
  let out := re_sub (pattern [lit jong_LG; lit slash; lit tag_P;
                              oneof [cho_G; cho_GG]]
                             (λ _, [jong_L; cho_GG])) out in
  out.

(** The list [pairs] of [verb_nieun]: each pattern with its template. *)
Definition verb_nieun_pairs : list (list cls * (str → str)) :=
  [ ([oneof [jong_N; jong_M]; lit slash; lit tag_P; lit cho_G],
     λ m, group 0 1 m ++ [cho_GG]);
    ([oneof [jong_N; jong_M]; lit slash; lit tag_P; lit cho_D],
     λ m, group 0 1 m ++ [cho_DD]);
    ([oneof [jong_N; jong_M]; lit slash; lit tag_P; lit cho_S],
     λ m, group 0 1 m ++ [cho_SS]);
    ([oneof [jong_N; jong_M]; lit slash; lit tag_P; lit cho_J],
     λ m, group 0 1 m ++ [cho_JJ]);
    (lit <$> [jong_NJ; slash; tag_P; cho_G], λ _, [jong_N; cho_GG]);
    (lit <$> [jong_NJ; slash; tag_P; cho_D], λ _, [jong_N; cho_DD]);
    (lit <$> [jong_NJ; slash; tag_P; cho_S], λ _, [jong_N; cho_SS]);
    (lit <$> [jong_NJ; slash; tag_P; cho_J], λ _, [jong_N; cho_JJ]);
    (lit <$> [jong_LM; slash; tag_P; cho_G], λ _, [jong_M; cho_GG]);
    (lit <$> [jong_LM; slash; tag_P; cho_D], λ _, [jong_M; cho_DD]);
    (lit <$> [jong_LM; slash; tag_P; cho_S], λ _, [jong_M; cho_SS]);
    (lit <$> [jong_LM; slash; tag_P; cho_J], λ _, [jong_M; cho_JJ]) ].

(** [for str1, str2 in pairs: out = re.sub(str1, str2, out)]. *)
Definition sub_pairs (pairs : list (list cls * (str → str))) (inp : str) : str :=
  foldl (λ out '(str1, str2), re_sub (pattern str1 str2) out) inp pairs.

Definition verb_nieun (inp : str) (descriptive : bool) : str :=
  let out := inp in
  sub_pairs verb_nieun_pairs out.

Definition palatalize (inp : str) (descriptive : bool) : str :=
  let out := inp in
  let out := re_sub (pattern [lit jong_D; lit cho_IEUNG;
                              oneof [jung_I; jung_YEO]]
                             (λ m, [cho_J] ++ group 2 1 m)) out in
  let out := re_sub (pattern [lit jong_T; lit cho_IEUNG;
                              oneof [jung_I; jung_YEO]]
                             (λ m, [cho_C] ++ group 2 1 m)) out in
  let out := re_sub (pattern [lit jong_LT; lit cho_IEUNG;
                              oneof [jung_I; jung_YEO]]
                             (λ m, [jong_L; cho_C] ++ group 2 1 m)) out in
  let out := re_sub (pattern [lit jong_D; lit cho_H; oneof [jung_I]]
                             (λ m, [cho_C] ++ group 2 1 m)) out in
  out.

(** The list [pairs] of [modifying_rieul]: no character of these patterns
    is special, so each is a literal text with its replacement. *)
Definition modifying_rieul_pairs : list (str * str) :=
  [ ([jong_L; slash; tag_E; space; cho_G], [jong_L; space; cho_GG]);
    ([jong_L; slash; tag_E; space; cho_D], [jong_L; space; cho_DD]);
    ([jong_L; slash; tag_E; space; cho_B], [jong_L; space; cho_BB]);
    ([jong_L; slash; tag_E; space; cho_S], [jong_L; space; cho_SS]);
    ([jong_L; slash; tag_E; space; cho_J], [jong_L; space; cho_JJ]);
    ([jong_L; cho_G; jung_EO; jong_L], [jong_L; cho_GG; jung_EO; jong_L]);
    ([jong_L; cho_B; jung_A; jong_GG; cho_IEUNG; jung_E],
     [jong_L; cho_BB; jung_A; cho_GG; jung_E]);
    ([jong_L; cho_S; jung_E; cho_R; jung_A],
     [jong_L; cho_SS; jung_E; cho_R; jung_A]);
    ([jong_L; cho_S; jung_U; cho_R; jung_O; jong_G],
     [jong_L; cho_SS; jung_U; cho_R; jung_O; jong_G]);
    ([jong_L; cho_J; jung_I; cho_R; jung_A; cho_D; jung_O],
     [jong_L; cho_JJ; jung_I; cho_R; jung_A; cho_D; jung_O]);
    ([jong_L; cho_J; jung_I; cho_IEUNG; jung_EO; jong_N; cho_J; jung_EO;
      jong_NG],
     [jong_L; cho_JJ; jung_I; cho_IEUNG; jung_EO; jong_N; cho_J; jung_EO;
      jong_NG]);
    ([jong_L; cho_J; jung_I; jong_N; cho_D; jung_AE],
     [jong_L; cho_JJ; jung_I; jong_N; cho_D; jung_AE]) ].

(** A literal pattern and its constant replacement. *)
Definition literal (pair : str * str) : list cls * (str → str) :=
  (lit <$> pair.1, λ _ : str, pair.2).

Definition modifying_rieul (inp : str) (descriptive : bool) : str :=
  let out := inp in
  sub_pairs (literal <$> modifying_rieul_pairs) out.

(* ===================================================================== *)
(** * Definitions used to state the properties *)
(* ===================================================================== *)

(** ** Segmentations of a romanized boundary *)

(** [i] splits [s] into a final and an initial of the tables. *)
Definition is_segmentation (s : str) (i : nat) : Prop :=
  take i s ∈ REVISED_FINALS ∧ drop i s ∈ REVISED_INITIALS.

#[global] Instance is_segmentation_dec s i : Decision (is_segmentation s i).
Proof. unfold is_segmentation. apply _. Defined.

(** The split points among [points] that are segmentations of [s]. *)
Definition segmentations (s : str) (points : list nat) : list nat :=
  filter (is_segmentation s) points.

(** [s] is the romanization of some final followed by that of some
    initial. *)
Definition is_boundary (s : str) : Prop :=
  ∃ final initial,
    final ∈ REVISED_FINALS ∧ initial ∈ REVISED_INITIALS ∧ s = final ++ initial.

(** ** What the academic rule is to emit *)

(** The character is in the Hangul syllable block. *)
Definition is_syllable (c : Z) : bool := bool_decide (MIN ≤ c ≤ MAX).

(** The three romanizations of the syllable with code point [c]. *)
Definition roman_initial (c : Z) : str :=
  REVISED_INITIALS !!! Z.to_nat ((c - MIN) `div` 588).
Definition roman_vowel (c : Z) : str :=
  REVISED_VOWELS !!! Z.to_nat (((c - MIN) `div` 28) `mod` 21).
Definition roman_final (c : Z) : str :=
  REVISED_FINALS !!! Z.to_nat ((c - MIN) `mod` 28).

Definition romanization (c : Z) : str :=
  roman_initial c ++ roman_vowel c ++ roman_final c.

(** The two conditions of the marker, for the syllable [c] after the
    syllable [p]: the null initial, or an ambiguous boundary. *)
Definition marker_due (p c : Z) : bool :=
  bool_decide ((c - MIN) `div` 588 = 11)
  || bool_decide (roman_final p ++ roman_initial c ∈ ACADEMIC_AMBIGUOUS_PATTERNS).

(** The piece of output for the character [c] whose predecessor in the
    text is [prev] ([None] at the start of the text): a syllable is
    romanized, after a marker when the predecessor is a syllable and a
    marker is due; any other character is copied. *)
Definition expected (prev : option Z) (c : Z) : str :=
  if is_syllable c then
    (if match prev with
        | Some p => is_syllable p && marker_due p c
        | None => false
        end
     then u "-" else [])
    ++ romanization c
  else [c].

Fixpoint expected_all (prev : option Z) (text : str) : list str :=
  match text with
  | [] => []
  | c :: text' => expected prev c :: expected_all (Some c) text'
  end.

(** The character before position [i] of [text]. *)
Definition prev_char (text : str) (i : nat) : option Z :=
  match i with
  | O => None
  | S j => text !! j
  end.

(** The slot that [translit] builds for a character. *)
Definition slot_of (c : Z) : slot :=
  (Some [c], if is_syllable c then Some {| code := c |} else None).

Definition slot_of_prev (prev : option Z) : slot :=
  match prev with
  | Some p => slot_of p
  | None => (None, None)
  end.

(** ** Occurrences and sites of the rewrite rules *)

(** [pat] occurs in [s] as a run of consecutive characters. *)
Definition occurs (pat s : str) : Prop := ∃ a b, s = a ++ pat ++ b.

(** No class after the first one of [p] accepts [c]: a match of [p] that
    starts before [c] cannot reach it. *)
Definition barrier (p : list cls) (c : Z) : bool :=
  forallb (λ cl : cls, negb (cl c)) (tail p).

(** Some class of [p] refuses its character of [t]: [p] does not match at
    the head of [t], whatever follows [t]. *)
Fixpoint rejects (p : list cls) (t : str) : bool :=
  match p, t with
  | cl :: p', c :: t' => negb (cl c) || rejects p' t'
  | _, _ => false
  end.

(** [p] matches at no position of [w], whatever follows [w]. *)
Fixpoint inert (p : list cls) (w : str) : bool :=
  match w with
  | [] => true
  | _ :: w' => rejects p w && inert p w'
  end.

(** ** Regulation 25 *)

(** The tensed counterpart of the four onsets ᄀ ᄃ ᄉ ᄌ. *)
Definition tensed (onset : Z) : option Z :=
  if bool_decide (onset = cho_G) then Some cho_GG
  else if bool_decide (onset = cho_D) then Some cho_DD
  else if bool_decide (onset = cho_S) then Some cho_SS
  else if bool_decide (onset = cho_J) then Some cho_JJ
  else None.

(** ** Regulation 16 *)

(** The onset that [jamo] puts for a coda followed by the null onset ᄋ. *)
Definition jamo_onset (coda : Z) : option Z :=
  if bool_decide (coda = jong_D) then Some cho_S
  else if bool_decide (coda ∈ [jong_J; jong_C; jong_T; jong_H]) then Some cho_S
  else if bool_decide (coda = jong_K) then Some cho_G
  else if bool_decide (coda = jong_P) then Some cho_B
  else None.

(** [b] does not begin with one of these codas followed by ᄋ. *)
Definition no_coda_ieung (b : str) : Prop :=
  ∀ c rest, b = c :: cho_IEUNG :: rest → jamo_onset c = None.

(** ** The descriptive rules *)

(** The leading consonants. *)
Definition is_lead_consonant (c : Z) : Prop := cho_G ≤ c ≤ cho_H.

(** The leading consonants after which [ye] turns ᅨ into ᅦ: all but
    ᄂ, ᄉ, ᄊ, ᄋ (and ᄅ, for which the pattern has the compatibility letter
    U+3139 in its place). *)
Definition ye_onsets : list Z :=
  [cho_G; cho_GG; cho_D; cho_DD; cho_M; cho_B; cho_BB; cho_J; cho_JJ;
   cho_C; cho_K; cho_T; cho_P; cho_H].

(** ** The exceptions 밟 and 넓 *)

(** A substitution whose expansions are as long as what they replace. *)
Definition length_preserving (m : matcher) : Prop :=
  ∀ s out n, m s = Some (out, n) → length out = n ∧ (1 ≤ n ≤ length s)%nat.

(** Position [i] of [s] holds the coda of 바+ᆲ, at the end of [s] or
    before a character other than ᄋ and ᄒ. *)
Definition balb_site_ba (s : str) (i : nat) : Prop :=
  ∃ k, i = (k + 2)%nat
       ∧ s !! k = Some cho_B ∧ s !! (k + 1)%nat = Some jung_A
       ∧ s !! i = Some jong_LB
       ∧ ∀ c, s !! (i + 1)%nat = Some c → c ∉ [cho_IEUNG; cho_H].

(** Position [i] of [s] holds the coda of 너+ᆲ before 주, 쭈, 두 or 뚜. *)
Definition balb_site_neo (s : str) (i : nat) : Prop :=
  ∃ k o, i = (k + 2)%nat
         ∧ s !! k = Some cho_N ∧ s !! (k + 1)%nat = Some jung_EO
         ∧ s !! i = Some jong_LB
         ∧ s !! (i + 1)%nat = Some o ∧ o ∈ [cho_J; cho_JJ; cho_D; cho_DD]
         ∧ s !! (i + 2)%nat = Some jung_U.

(** ** The window of translit *)

(** The slot of the character after position [i], or the empty slot. *)
Definition slot_of_next (text : str) : slot :=
  match text with
  | c :: _ => slot_of c
  | [] => (None, None)
  end.

(** The calls of the rule over a text: for each character its slot, the
    slot before it and the slot after it. *)
Fixpoint windows (prev : option Z) (text : str) : list (slot * slot * slot) :=
  match text with
  | [] => []
  | c :: text' =>
      (slot_of c, slot_of_prev prev, slot_of_next text') :: windows (Some c) text'
  end.

(** Calling the rule on each window in turn, keeping what is not [None];
    the first exception ends the run. *)
Fixpoint run_rule (rule : rule_t) (ws : list (slot * slot * slot))
    (result : list str) : py (list str) :=
  match ws with
  | [] => Ret result
  | (now, pre, post) :: ws' =>
      out ← rule now (Some pre) post;
      run_rule rule ws' (append_out result out)
  end.

(** ** Reading a romanization back *)

(** The letters of the vowel romanizations. *)
Definition is_vowel_letter (c : Z) : bool := bool_decide (c ∈ u "aeiouwy").

(** What the academic rule puts between the vowel of the syllable [p] and
    the vowel of the syllable [c] after it. *)
Definition boundary (p c : Z) : str :=
  roman_final p ++ (if marker_due p c then u "-" else []) ++ roman_initial c.

(** The same, from the indices of the final and of the initial. *)
Definition boundary_at (f i : nat) : str :=
  let rf := REVISED_FINALS !!! f in
  let ri := REVISED_INITIALS !!! i in
  rf ++ (if bool_decide (i = 11%nat)
            || bool_decide (rf ++ ri ∈ ACADEMIC_AMBIGUOUS_PATTERNS)
         then u "-" else [])
     ++ ri.

Definition boundary_table : list (nat * nat * str) :=
  f ← seq 0 28; i ← seq 0 19; [(f, i, boundary_at f i)].

(** The romanization of a run of syllables after the initial of its first
    syllable [c]: vowel, then the boundary to the next syllable and so on,
    up to the last final. *)
Fixpoint romanized_from (c : Z) (rest : str) : str :=
  roman_vowel c
  ++ match rest with
     | [] => roman_final c
     | c' :: rest' => boundary c c' ++ romanized_from c' rest'
     end.

(** ** The other rules: what they put for what *)

(** A substitution whose expansions are not longer than what they
    replace. *)
Definition non_lengthening (m : matcher) : Prop :=
  ∀ s out n, m s = Some (out, n) → (length out ≤ n ∧ 1 ≤ n ≤ length s)%nat.

(** The coda that [verb_nieun] leaves for a stem coda: ᆫ and ᆷ stay, ᆬ
    gives ᆫ and ᆱ gives ᆷ. *)
Definition stem_coda (coda : Z) : option Z :=
  if bool_decide (coda ∈ [jong_N; jong_M]) then Some coda
  else if bool_decide (coda = jong_NJ) then Some jong_N
  else if bool_decide (coda = jong_LM) then Some jong_M
  else None.

(** What [palatalize] puts for a coda, an onset and a vowel. *)
Definition palatalized (coda onset v : Z) : option str :=
  if bool_decide (onset = cho_IEUNG ∧ v ∈ [jung_I; jung_YEO]) then
    if bool_decide (coda = jong_D) then Some [cho_J; v]
    else if bool_decide (coda = jong_T) then Some [cho_C; v]
    else if bool_decide (coda = jong_LT) then Some [jong_L; cho_C; v]
    else None
  else if bool_decide (coda = jong_D ∧ onset = cho_H ∧ v = jung_I)
  then Some [cho_C; v]
  else None.

(** What a rule [([class])y -> \1y'] leaves at position [i] of [s], where
    [c] stands: [y'] for a [y] that follows a character of the class, and
    [c] itself otherwise. *)
Definition after_class (cl : cls) (y y' : Z) (s : str) (i : nat) (c : Z) : Z :=
  if bool_decide (c = y) && from_option cl false (prev_char s i)
  then y' else c.

(* ===================================================================== *)
(** * romanize.py: the Syllable view *)
(* ===================================================================== *)

Section syllable.

Lemma Syllable_init_code (cp : Z) :
  Syllable_init None (Some cp)
  = if is_syllable cp then Ret {| code := cp |} else Raise TypeError.
Proof. reflexivity. Qed.

Lemma Syllable_init_char (cp : Z) :
  Syllable_init (Some [cp]) None
  = if is_syllable cp then Ret {| code := cp |} else Raise TypeError.
Proof. reflexivity. Qed.

Lemma is_syllable_true c : is_syllable c = true ↔ 0xAC00 ≤ c ≤ 0xD7A3.
Proof. unfold is_syllable, MIN, MAX. by rewrite bool_decide_eq_true. Qed.

Lemma is_syllable_false c : is_syllable c = false ↔ ¬ (0xAC00 ≤ c ≤ 0xD7A3).
Proof. unfold is_syllable, MIN, MAX. by rewrite bool_decide_eq_false. Qed.

(** The indices of a code point of the block are in the ranges of the
    three tables. *)
Lemma index_ranges (s : Syllable) :
  0xAC00 ≤ code s ≤ 0xD7A3 →
  0 ≤ initial s < 19 ∧ 0 ≤ vowel s < 21 ∧ 0 ≤ final s < 28.
Proof.
  intros Hc. unfold initial, vowel, final, index, MIN.
  repeat split.
  - apply Z.div_pos; lia.
  - apply Z.div_lt_upper_bound; lia.
  - apply Z.mod_pos_bound; lia.
  - apply Z.mod_pos_bound; lia.
  - apply Z.mod_pos_bound; lia.
  - apply Z.mod_pos_bound; lia.
Qed.

(** [code = MIN + (initial * 21 + vowel) * 28 + final]. *)
Lemma index_compose (s : Syllable) :
  0xAC00 ≤ code s ≤ 0xD7A3 →
  0xAC00 + (initial s * 21 + vowel s) * 28 + final s = code s.
Proof.
  intros Hc. unfold initial, vowel, final, index, MIN.
  set (n := code s - 44032).
  assert (Hq : n `div` 588 = (n `div` 28) `div` 21).
  { rewrite Z.div_div by lia. reflexivity. }
  rewrite Hq.
  pose proof (Z.div_mod (n `div` 28) 21 ltac:(lia)) as H1.
  pose proof (Z.div_mod n 28 ltac:(lia)) as H2.
  subst n. lia.
Qed.

End syllable.

(** C3. Constructing a [Syllable], from a code or from a character, raises
    for every code point outside U+AC00..U+D7A3; for a code point [cp]
    inside it gives the view with [initial = (cp - 0xAC00) // 588],
    [vowel = ((cp - 0xAC00) // 28) mod 21] and [final = (cp - 0xAC00) mod 28],
    which lie in [0,19), [0,21) and [0,28), and
    [0xAC00 + (initial*21 + vowel)*28 + final] is [cp] again. *)
Theorem Syllable_view (cp : Z) :
  (¬ (0xAC00 ≤ cp ≤ 0xD7A3) →
     Syllable_init None (Some cp) = Raise TypeError
     ∧ Syllable_init (Some [cp]) None = Raise TypeError)
  ∧ (0xAC00 ≤ cp ≤ 0xD7A3 →
     ∃ s, Syllable_init None (Some cp) = Ret s
          ∧ Syllable_init (Some [cp]) None = Ret s
          ∧ initial s = (cp - 0xAC00) `div` 588
          ∧ vowel s = ((cp - 0xAC00) `div` 28) `mod` 21
          ∧ final s = (cp - 0xAC00) `mod` 28
          ∧ 0 ≤ initial s < 19 ∧ 0 ≤ vowel s < 21 ∧ 0 ≤ final s < 28
          ∧ 0xAC00 + (initial s * 21 + vowel s) * 28 + final s = cp).
Proof.
  split; intros Hcp.
  - rewrite Syllable_init_code, Syllable_init_char.
    apply is_syllable_false in Hcp. by rewrite Hcp.
  - exists {| code := cp |}.
    rewrite Syllable_init_code, Syllable_init_char.
    pose proof (proj2 (is_syllable_true cp) Hcp) as ->.
    pose proof (index_ranges {| code := cp |} Hcp) as (Hi & Hv & Hf).
    pose proof (index_compose {| code := cp |} Hcp) as Hk.
    repeat split; try done; lia.
Qed.

(** The view of U+D55C (한), and the refusal of U+0041. *)
Lemma Syllable_view_witness :
  (Syllable_init None (Some 0x41) = Raise TypeError
   ∧ Syllable_init (Some [0x41]) None = Raise TypeError)
  ∧ ∃ s, Syllable_init None (Some 0xD55C) = Ret s
         ∧ Syllable_init (Some [0xD55C]) None = Ret s
         ∧ initial s = (0xD55C - 0xAC00) `div` 588
         ∧ vowel s = ((0xD55C - 0xAC00) `div` 28) `mod` 21
         ∧ final s = (0xD55C - 0xAC00) `mod` 28
         ∧ 0 ≤ initial s < 19 ∧ 0 ≤ vowel s < 21 ∧ 0 ≤ final s < 28
         ∧ 0xAC00 + (initial s * 21 + vowel s) * 28 + final s = 0xD55C.
Proof.
  split.
  - apply (proj1 (Syllable_view 0x41)). lia.
  - apply (proj2 (Syllable_view 0xD55C)). lia.
Defined.

(* ===================================================================== *)
(** * romanize.py: the set of ambiguous boundaries *)
(* ===================================================================== *)

Section ambiguous.

Lemma valid_split_segmentation s i :
  valid_split s i = true ↔ is_segmentation s i.
Proof.
  unfold valid_split, is_segmentation.
  rewrite andb_true_iff, !bool_decide_eq_true. done.
Qed.

(** The inner loop answers whether enough segmentations lie among the
    indices it visits: two when [check] is still false, one more when a
    first one has been seen. *)
Lemma split_loop_count s idxs check :
  split_loop s idxs check = true
  ↔ ((if check then 1 else 2) ≤ length (segmentations s idxs))%nat.
Proof.
  unfold segmentations.
  revert check. induction idxs as [|i idxs IH]; intros check; simpl.
  - split; [done|]. destruct check; simpl; lia.
  - destruct (valid_split s i) eqn:Hv.
    + apply valid_split_segmentation in Hv.
      rewrite filter_cons_True by done. simpl.
      destruct check; simpl.
      * split; [lia | done].
      * rewrite IH. lia.
    + assert (¬ is_segmentation s i) as Hn.
      { rewrite <- valid_split_segmentation. by rewrite Hv. }
      rewrite filter_cons_False by done. apply IH.
  Qed.

Lemma elem_of_product {A B} (xs : list A) (ys : list B) x y :
  (x, y) ∈ product xs ys ↔ x ∈ xs ∧ y ∈ ys.
Proof.
  unfold product. rewrite list_elem_of_bind. split.
  - intros (x' & Hin & Hx). apply list_elem_of_bind in Hin as (y' & Hin & Hy).
    apply list_elem_of_singleton in Hin. by simplify_eq.
  - intros [Hx Hy]. exists x. split; [|done].
    apply list_elem_of_bind. exists y. split; [|done].
    by apply list_elem_of_singleton.
Qed.

(** What the outer loop has added after running over the pairs [l]. *)
Lemma elem_of_patterns_fold (l : list (str * str)) (acc : gset str) s :
  s ∈ foldl patterns_step acc l
  ↔ s ∈ acc
    ∨ ∃ final initial,
        (final, initial) ∈ l ∧ s = final ++ initial
        ∧ split_loop s (seq 0 (length s)) false = true.
Proof.
  revert acc. induction l as [|[f i] l IH]; intros acc; simpl.
  - split; [by left|]. intros [?|(? & ? & Hin & _)]; [done|].
    by apply elem_of_nil in Hin.
  - rewrite IH. unfold patterns_step.
    destruct (split_loop (f ++ i) _ false) eqn:Hloop.
    + rewrite elem_of_union, elem_of_singleton. split.
      * intros [[->|?]|(f' & i' & Hin & -> & Hl)].
        -- right. exists f, i. split_and!; [left|done|done].
        -- by left.
        -- right. exists f', i'. split_and!; [by right|done|done].
      * intros [?|(f' & i' & Hin & -> & Hl)]; [by left; right|].
        apply elem_of_cons in Hin as [Heq|Hin].
        -- simplify_eq. by left; left.
        -- right. by exists f', i'.
    + split.
      * intros [?|(f' & i' & Hin & -> & Hl)]; [by left|].
        right. exists f', i'. split_and!; [by right|done|done].
      * intros [?|(f' & i' & Hin & -> & Hl)]; [by left|].
        apply elem_of_cons in Hin as [Heq|Hin].
        -- simplify_eq. congruence.
        -- right. by exists f', i'.
Qed.

End ambiguous.

(** C1, as the code has it. [ACADEMIC_AMBIGUOUS_PATTERNS] contains a string
    exactly when it is the romanization of a final followed by that of an
    initial and more than one split point [i] with [0 <= i < len] (the
    points the loop visits, those with a non-empty tail) gives a head in
    [REVISED_FINALS] and a tail in [REVISED_INITIALS]. *)
Theorem ambiguous_patterns_correct (s : str) :
  s ∈ ACADEMIC_AMBIGUOUS_PATTERNS
  ↔ is_boundary s ∧ (1 < length (segmentations s (seq 0 (length s))))%nat.
Proof.
  unfold ACADEMIC_AMBIGUOUS_PATTERNS, academic_ambiguous_patterns.
  rewrite elem_of_patterns_fold. unfold is_boundary. split.
  - intros [H|(f & i & Hin & -> & Hl)]; [by apply not_elem_of_empty in H|].
    apply elem_of_product in Hin as [Hf Hi].
    apply split_loop_count in Hl. split; [by exists f, i|lia].
  - intros [(f & i & Hf & Hi & ->) Hl]. right. exists f, i.
    split_and!; [by apply elem_of_product|done|].
    apply split_loop_count. lia.
Qed.

(** C1, as stated, fails at the boundary "g" (no final, initial g): both
    split points, before and after the g, give a final and an initial of
    the tables, yet the string is not in the set. *)
Lemma ambiguous_patterns_counterexample :
  ¬ (∀ s : str,
       s ∈ ACADEMIC_AMBIGUOUS_PATTERNS
       ↔ is_boundary s
         ∧ (1 < length (segmentations s (seq 0 (S (length s)))))%nat).
Proof.
  intros H. specialize (H (u "g")).
  assert (Hnot : u "g" ∉ ACADEMIC_AMBIGUOUS_PATTERNS).
  { apply (bool_decide_eq_false_1 (u "g" ∈ ACADEMIC_AMBIGUOUS_PATTERNS)).
    vm_compute. reflexivity. }
  apply Hnot, H. split.
  - exists (u ""), (u "g"). split_and!; [| |done].
    + apply (bool_decide_eq_true_1 (u "" ∈ REVISED_FINALS)). vm_compute. reflexivity.
    + apply (bool_decide_eq_true_1 (u "g" ∈ REVISED_INITIALS)). vm_compute. reflexivity.
  - vm_compute. lia.
Qed.

(* ===================================================================== *)
(** * romanize.py: the academic rule inside translit *)
(* ===================================================================== *)

Section academic.

(** The set and the rule are unfolded by hand, never by [simpl]. *)
#[local] Arguments ACADEMIC_AMBIGUOUS_PATTERNS : simpl never.
#[local] Arguments academic : simpl never.
#[local] Arguments expected : simpl never.

(** Indexing a table inside its range never raises. *)
Lemma getitem_in_range (t : list str) (i : Z) :
  0 ≤ i < Z.of_nat (length t) → getitem t i = Ret (t !!! Z.to_nat i).
Proof.
  intros Hi. unfold getitem. cbv zeta.
  rewrite (bool_decide_eq_false_2 (i < 0)) by lia.
  rewrite bool_decide_eq_true_2 by lia.
  destruct (t !! Z.to_nat i) as [x|] eqn:Hx.
  - by rewrite (list_lookup_total_correct _ _ _ Hx).
  - apply lookup_ge_None in Hx. lia.
Qed.

Lemma make_post_slot (c : Z) : make_post [c] = Ret (slot_of c).
Proof.
  unfold make_post, slot_of. rewrite Syllable_init_char.
  by destruct (is_syllable c).
Qed.

(** The rule on a character that is no syllable: the character. *)
Lemma academic_other (c : Z) pre post :
  is_syllable c = false → academic (slot_of c) pre post = Ret (Some [c]).
Proof. intros Hc. unfold academic, slot_of. by rewrite Hc. Qed.

Lemma getitem_initial c :
  is_syllable c = true →
  getitem REVISED_INITIALS (initial {| code := c |}) = Ret (roman_initial c).
Proof.
  intros Hc%is_syllable_true.
  destruct (index_ranges {| code := c |} Hc) as (Hi & _ & _).
  rewrite getitem_in_range; [done|]. change (length REVISED_INITIALS) with 19%nat. lia.
Qed.

Lemma getitem_vowel c :
  is_syllable c = true →
  getitem REVISED_VOWELS (vowel {| code := c |}) = Ret (roman_vowel c).
Proof.
  intros Hc%is_syllable_true.
  destruct (index_ranges {| code := c |} Hc) as (_ & Hv & _).
  rewrite getitem_in_range; [done|]. change (length REVISED_VOWELS) with 21%nat. lia.
Qed.

Lemma getitem_final c :
  is_syllable c = true →
  getitem REVISED_FINALS (final {| code := c |}) = Ret (roman_final c).
Proof.
  intros Hc%is_syllable_true.
  destruct (index_ranges {| code := c |} Hc) as (_ & _ & Hf).
  rewrite getitem_in_range; [done|]. change (length REVISED_FINALS) with 28%nat. lia.
Qed.

(** The rule inside the window of [translit]: whatever [post] is, it
    returns the expected piece and raises nothing. *)
Lemma academic_slot (prev : option Z) (c : Z) post :
  academic (slot_of c) (Some (slot_of_prev prev)) post
  = Ret (Some (expected prev c)).
Proof.
  unfold expected. destruct (is_syllable c) eqn:Hc.
  2: { by apply academic_other. }
  unfold academic, slot_of. rewrite Hc.
  assert (Hps : (slot_of_prev prev).2
                = match prev with
                  | Some p => if is_syllable p then Some {| code := p |} else None
                  | None => None
                  end) by (by destruct prev).
  rewrite Hps. clear Hps.
  rewrite (getitem_initial c Hc), (getitem_vowel c Hc), (getitem_final c Hc).
  destruct prev as [p|]; [|done].
  destruct (is_syllable p) eqn:Hp; [|done].
  rewrite (getitem_final p Hp). unfold marker_due.
  change (initial {| code := c |}) with ((c - MIN) `div` 588).
  destruct (bool_decide ((c - MIN) `div` 588 = 11)); [reflexivity|].
  cbn [mbind py_bind orb andb].
  destruct (bool_decide (roman_final p ++ roman_initial c
                         ∈ ACADEMIC_AMBIGUOUS_PATTERNS)); reflexivity.
Qed.

(** The loop from a window whose current slot holds [c]: when the text
    [cs] has been read and the last slot flushed, [result] has grown by
    the expected pieces of [c] and of [cs]. *)
Lemma translit_loop_academic (cs : str) :
  ∀ (res : list str) (prev : option Z) (c : Z),
    (w ← translit_loop academic
           {| result := res; pre := slot_of_prev prev; now := slot_of c |}
           (iter_str cs);
     out ← academic (now w) (Some (pre w)) (None, None);
     Ret (append_out (result w) out))
    = Ret (res ++ expected_all prev (c :: cs)).
Proof.
  induction cs as [|c' cs IH]; intros res prev c.
  - cbn [iter_str fmap list_fmap translit_loop mbind py_bind now pre result].
    rewrite academic_slot. cbn [expected_all append_out]. reflexivity.
  - cbn [iter_str fmap list_fmap translit_loop].
    unfold translit_step. rewrite make_post_slot.
    cbn [mbind py_bind now pre result slot_of fst].
    rewrite academic_slot. cbn [mbind py_bind append_out].
    specialize (IH (res ++ [expected prev c]) (Some c) c').
    cbn [slot_of_prev] in IH. unfold iter_str in IH. rewrite IH.
    cbn [expected_all]. by rewrite <- app_assoc.
Qed.

Lemma translit_result_academic (text : str) :
  translit_result academic text = Ret (expected_all None text).
Proof.
  unfold translit_result. destruct text as [|c cs]; [done|].
  cbn [iter_str fmap list_fmap translit_loop].
  unfold translit_step. rewrite make_post_slot.
  cbn [mbind py_bind now pre result fst].
  exact (translit_loop_academic cs [] None c).
Qed.

Lemma translit_academic (text : str) :
  translit academic text = Ret (concat (expected_all None text)).
Proof. unfold translit. by rewrite translit_result_academic. Qed.

Lemma length_expected_all prev text :
  length (expected_all prev text) = length text.
Proof. revert prev. induction text; intros; simpl; auto. Qed.

Lemma expected_all_lookup text :
  ∀ prev i c,
    text !! i = Some c →
    expected_all prev text !! i
    = Some (expected (match i with O => prev | S _ => prev_char text i end) c).
Proof.
  induction text as [|c0 text IH]; intros prev i c Hi; [done|].
  destruct i as [|i]; simpl in *.
  - by simplify_eq.
  - rewrite (IH (Some c0) i c Hi). destruct i; simpl; [done|done].
Qed.

End academic.

(** C2, as the code has it. In [translit] with the academic rule every
    character gives one piece of the result: a character outside the
    syllable block is copied; a syllable is rendered as initial + vowel +
    final, and "-" is put before it exactly when the character just before
    it is itself a syllable and either the current initial is the null
    initial (index 11) or the previous final followed by the current
    initial is in [ACADEMIC_AMBIGUOUS_PATTERNS]. The output is the pieces
    joined. *)
Theorem academic_marker (text : str) :
  ∃ pieces : list str,
    translit_result academic text = Ret pieces
    ∧ translit academic text = Ret (concat pieces)
    ∧ length pieces = length text
    ∧ ∀ i c, text !! i = Some c →
        pieces !! i = Some (expected (prev_char text i) c).
Proof.
  exists (expected_all None text). split_and!.
  - apply translit_result_academic.
  - apply translit_academic.
  - apply length_expected_all.
  - intros i c Hi. rewrite (expected_all_lookup text None i c Hi).
    by destruct i.
Qed.

(** 물엿 (U+BB3C U+C5FF): the second syllable has the null initial and
    follows a syllable, so its piece is "-yeos". *)
Lemma academic_marker_witness :
  ∃ pieces : list str,
    translit_result academic [0xBB3C; 0xC5FF] = Ret pieces
    ∧ translit academic [0xBB3C; 0xC5FF] = Ret (concat pieces)
    ∧ pieces !! 1%nat = Some (u "-yeos").
Proof.
  destruct (academic_marker [0xBB3C; 0xC5FF]) as (pieces & Hr & Ht & _ & Hp).
  exists pieces. split_and!; [exact Hr|exact Ht|].
  rewrite (Hp 1%nat 0xC5FF eq_refl). vm_compute. reflexivity.
Defined.

(** C2, as stated, fails for 아 (U+C544) at the start of a text: its
    initial is the null initial, and its piece is "a" with no marker. *)
Lemma academic_marker_counterexample :
  ¬ (∀ (text : str) (pieces : list str) (i : nat) (c : Z) (s : Syllable),
       translit_result academic text = Ret pieces →
       text !! i = Some c →
       Syllable_init (Some [c]) None = Ret s →
       initial s = 11 →
       pieces !! i = Some (u "-" ++ romanization c)).
Proof.
  intros H.
  specialize (H [0xC544] [u "a"] 0%nat 0xC544 {| code := 0xC544 |}).
  assert (Hne : Some (u "a") ≠ Some (u "-" ++ romanization 0xC544)).
  { vm_compute. discriminate. }
  apply Hne. apply H.
  - vm_compute. reflexivity.
  - reflexivity.
  - vm_compute. reflexivity.
  - vm_compute. reflexivity.
Qed.

(** C10. A syllable at the start of the text, or directly after a
    character that is no Hangul syllable, is romanized without a marker,
    whatever its initial and whatever the two marker conditions say. *)
Theorem no_marker_without_syllable_before (text : str) (i : nat) (c : Z) :
  text !! i = Some c →
  is_syllable c = true →
  (∀ p, prev_char text i = Some p → is_syllable p = false) →
  ∃ pieces : list str,
    translit_result academic text = Ret pieces
    ∧ translit academic text = Ret (concat pieces)
    ∧ pieces !! i = Some (romanization c).
Proof.
  intros Hi Hc Hprev. exists (expected_all None text). split_and!.
  - apply translit_result_academic.
  - apply translit_academic.
  - rewrite (expected_all_lookup text None i c Hi).
    replace (match i with O => None | S _ => prev_char text i end)
      with (prev_char text i) by (by destruct i).
    unfold expected. rewrite Hc.
    destruct (prev_char text i) as [p|]; [|done].
    by rewrite (Hprev p eq_refl).
Qed.

(** "x 아": the null-initial syllable after a space gets no marker. *)
Lemma no_marker_without_syllable_before_witness :
  ∃ pieces : list str,
    translit_result academic [0x78; 0x20; 0xC544] = Ret pieces
    ∧ translit academic [0x78; 0x20; 0xC544] = Ret (concat pieces)
    ∧ pieces !! 2%nat = Some (romanization 0xC544).
Proof.
  apply (no_marker_without_syllable_before [0x78; 0x20; 0xC544] 2 0xC544).
  - reflexivity.
  - vm_compute. reflexivity.
  - intros p Hp. simpl in Hp. injection Hp as <-. vm_compute. reflexivity.
Defined.


(* ===================================================================== *)
(** * re.sub: unfolding, splitting and sites *)
(* ===================================================================== *)

Section re_sub.

Implicit Types (m : matcher) (p : list cls) (s t a b r w : str).

Lemma sub_from_drop m k s : sub_from m k s = re_sub m (drop k s).
Proof.
  revert k. induction s as [|c s IH]; intros [|k]; try reflexivity.
  simpl. apply IH.
Qed.

Lemma re_sub_nil m : re_sub m [] = [].
Proof. reflexivity. Qed.

(** One step of the scan. *)
Lemma re_sub_cons m c s :
  re_sub m (c :: s)
  = match m (c :: s) with
    | Some (out, n) => out ++ re_sub m (drop (Nat.pred n) s)
    | None => c :: re_sub m s
    end.
Proof.
  unfold re_sub at 1. simpl. destruct (m (c :: s)) as [[out n]|]; [|done].
  by rewrite sub_from_drop.
Qed.

Lemma re_sub_cons_None m c s :
  m (c :: s) = None → re_sub m (c :: s) = c :: re_sub m s.
Proof. intros H. by rewrite re_sub_cons, H. Qed.

Lemma re_sub_cons_Some m c s out n :
  m (c :: s) = Some (out, n) →
  re_sub m (c :: s) = out ++ re_sub m (drop (Nat.pred n) s).
Proof. intros H. by rewrite re_sub_cons, H. Qed.

(** A subject in which the pattern matches nowhere is returned as it
    is. *)
Lemma re_sub_id m s :
  (∀ t, t `suffix_of` s → m t = None) → re_sub m s = s.
Proof.
  induction s as [|c s IH]; intros H; [done|].
  rewrite re_sub_cons_None by (by apply H).
  f_equal. apply IH. intros t Ht. apply H. by apply suffix_cons_r.
Qed.

(** Splitting the subject at a point that no match crosses: every match
    that starts in [a] reads and consumes [a] only, or else the equation
    is known for that suffix of [a]. *)
Lemma re_sub_app m a r :
  (∀ t, t ≠ [] → t `suffix_of` a →
     (m (t ++ r) = m t ∧ ∀ out n, m t = Some (out, n) → (n ≤ length t)%nat)
     ∨ re_sub m (t ++ r) = re_sub m t ++ re_sub m r) →
  re_sub m (a ++ r) = re_sub m a ++ re_sub m r.
Proof.
  remember (length a) as k eqn:Hk. revert a Hk.
  induction k as [k IH] using lt_wf_ind. intros a -> H.
  destruct a as [|c a]; [done|].
  destruct (H (c :: a)) as [[Heq Hlen]|Hdirect]; [done|done| |done].
  rewrite <- app_comm_cons, (re_sub_cons m c (a ++ r)), (re_sub_cons m c a).
  rewrite app_comm_cons, Heq.
  destruct (m (c :: a)) as [[out n]|] eqn:Hm.
  - specialize (Hlen out n eq_refl). simpl in Hlen.
    rewrite drop_app_le by lia. rewrite <- app_assoc. f_equal.
    apply (IH (length (drop (Nat.pred n) a))); [|done|].
    + rewrite length_drop. simpl. lia.
    + intros t Ht Hsuf. apply H; [done|].
      etrans; [exact Hsuf|]. apply suffix_cons_r, suffix_drop.
  - simpl. f_equal. apply (IH (length a)); [simpl; lia|done|].
    intros t Ht Hsuf. apply H; [done|]. by apply suffix_cons_r.
Qed.

(** ** Patterns that are sequences of classes *)

Lemma match_seq_Some p s mt :
  match_seq p s = Some mt
  ↔ ∃ rest, s = mt ++ rest ∧ Forall2 (λ (cl : cls) c, cl c = true) p mt.
Proof.
  split.
  - revert s mt. induction p as [|cl p IH]; intros s mt; simpl.
    + intros [= <-]. exists s. split; [done|constructor].
    + destruct s as [|c s]; [done|].
      destruct (cl c) eqn:Hc; [|done].
      destruct (match_seq p s) as [mt'|] eqn:Hm; [|done].
      intros [= <-]. destruct (IH _ _ Hm) as (rest & -> & Hall).
      exists rest. split; [done|by constructor].
  - intros (rest & -> & Hall).
    induction Hall as [|cl c p mt Hc Hall IH]; [done|].
    simpl. by rewrite Hc, IH.
Qed.

Lemma match_seq_length p s mt :
  match_seq p s = Some mt → length mt = length p ∧ (length p ≤ length s)%nat.
Proof.
  intros (rest & -> & Hall)%match_seq_Some.
  apply Forall2_length in Hall. rewrite length_app. lia.
Qed.

(** A match reads the first [length p] characters only. *)
Lemma match_seq_app p t r :
  (length p ≤ length t)%nat → match_seq p (t ++ r) = match_seq p t.
Proof.
  revert t. induction p as [|cl p IH]; intros t Hlen; [done|].
  destruct t as [|c t]; simpl in *; [lia|].
  destruct (cl c); [|done]. rewrite IH by lia. done.
Qed.

Lemma match_seq_short p t :
  (length t < length p)%nat → match_seq p t = None.
Proof.
  intros Hlen. destruct (match_seq p t) as [mt|] eqn:Hm; [|done].
  apply match_seq_length in Hm. lia.
Qed.

Lemma rejects_None p t b :
  rejects p t = true → match_seq p (t ++ b) = None.
Proof.
  revert t. induction p as [|cl p IH]; intros [|c t] H; simpl in *; try done.
  destruct (cl c); simpl in *; [|done]. by rewrite IH.
Qed.

Lemma inert_None p w b t :
  inert p w = true → t ≠ [] → t `suffix_of` w → match_seq p (t ++ b) = None.
Proof.
  induction w as [|c w IH]; intros Hw Ht Hsuf.
  - apply suffix_nil_inv in Hsuf. done.
  - simpl in Hw. apply andb_true_iff in Hw as [Hrej Hw].
    destruct t as [|c' t]; [done|].
    apply suffix_cons_inv in Hsuf as [->|Hsuf].
    + by apply rejects_None.
    + by apply IH.
Qed.

(** A match that starts before a barrier and would have to reach it
    fails. *)
Lemma barrier_None p c t r :
  barrier p c = true → t ≠ [] → (length t < length p)%nat →
  match_seq p (t ++ c :: r) = None.
Proof.
  unfold barrier. destruct p as [|cl0 p]; [simpl; lia|]. simpl.
  destruct t as [|c0 t]; [done|]. intros Hb _ Hlen. simpl in *.
  destruct (cl0 c0); [|done].
  assert (Hm : match_seq p (t ++ c :: r) = None); [|by rewrite Hm].
  clear cl0 c0. revert t Hlen Hb.
  induction p as [|cl p IH]; intros t Hlen Hb; simpl in *; [lia|].
  apply andb_true_iff in Hb as [Hc Hb].
  destruct t as [|c1 t]; simpl in *.
  - apply negb_true_iff in Hc. by rewrite Hc.
  - destruct (cl c1); [|done]. rewrite IH; [done|lia|done].
Qed.

(** Splitting for a sequence pattern: it suffices that no match starting
    in the last characters of [a] runs over into [r]. *)
Lemma re_sub_pattern_app p repl a r :
  (∀ t, t ≠ [] → t `suffix_of` a → (length t < length p)%nat →
     match_seq p (t ++ r) = None) →
  re_sub (pattern p repl) (a ++ r)
  = re_sub (pattern p repl) a ++ re_sub (pattern p repl) r.
Proof.
  intros H. apply re_sub_app. intros t Ht Hsuf. left.
  unfold pattern.
  destruct (decide (length p ≤ length t)%nat) as [Hle|Hgt].
  - rewrite match_seq_app by done. split; [done|].
    intros out n Hm. destruct (match_seq p t); simplify_eq/=. done.
  - rewrite H by (done || lia). rewrite match_seq_short by lia. done.
Qed.

Lemma re_sub_pattern_barrier p repl a c r :
  barrier p c = true →
  re_sub (pattern p repl) (a ++ c :: r)
  = re_sub (pattern p repl) a ++ re_sub (pattern p repl) (c :: r).
Proof.
  intros Hb. apply re_sub_pattern_app. intros t Ht _ Hlen.
  by apply barrier_None.
Qed.

(** The scan at a position where the pattern matches [occ]. *)
Lemma re_sub_pattern_match p repl occ b :
  occ ≠ [] → match_seq p occ = Some occ →
  re_sub (pattern p repl) (occ ++ b) = repl occ ++ re_sub (pattern p repl) b.
Proof.
  intros Hne Hm. destruct occ as [|c occ]; [done|].
  pose proof (match_seq_length _ _ _ Hm) as [Hl _].
  rewrite <- app_comm_cons.
  rewrite (re_sub_cons_Some _ _ _ (repl (c :: occ)) (length p)).
  - f_equal. rewrite <- Hl. simpl. by rewrite drop_app_length.
  - unfold pattern. rewrite app_comm_cons, match_seq_app by (simpl in *; lia).
    by rewrite Hm.
Qed.

(** A site: an occurrence [occ] of the pattern whose first character is
    a barrier is replaced, and what is before and after it is rewritten
    on its own. *)
Lemma re_sub_site p repl a c occ b :
  match_seq p (c :: occ) = Some (c :: occ) → barrier p c = true →
  re_sub (pattern p repl) (a ++ (c :: occ) ++ b)
  = re_sub (pattern p repl) a ++ repl (c :: occ) ++ re_sub (pattern p repl) b.
Proof.
  intros Hm Hb. rewrite <- app_comm_cons, re_sub_pattern_barrier by done.
  by rewrite app_comm_cons, re_sub_pattern_match.
Qed.

(** The scan over characters [w] at which the pattern cannot match. *)
Lemma re_sub_pattern_skip p repl w b :
  inert p w = true →
  re_sub (pattern p repl) (w ++ b) = w ++ re_sub (pattern p repl) b.
Proof.
  induction w as [|c w IH]; intros Hw; [done|].
  pose proof Hw as Hw'. simpl in Hw'. apply andb_true_iff in Hw' as [_ Hw'].
  rewrite <- app_comm_cons, re_sub_cons_None.
  - by rewrite IH.
  - unfold pattern. rewrite app_comm_cons.
    rewrite (inert_None p (c :: w) b (c :: w)); done.
Qed.

(** An inert stretch that starts with a barrier is copied, and what is
    before and after it is rewritten on its own. *)
Lemma re_sub_inert p repl a c w b :
  barrier p c = true → inert p (c :: w) = true →
  re_sub (pattern p repl) (a ++ (c :: w) ++ b)
  = re_sub (pattern p repl) a ++ (c :: w) ++ re_sub (pattern p repl) b.
Proof.
  intros Hb Hw. rewrite <- app_comm_cons, re_sub_pattern_barrier by done.
  by rewrite app_comm_cons, re_sub_pattern_skip.
Qed.

(** A match of a sequence pattern, spelled out. *)
Lemma pattern_Some p repl s out n :
  pattern p repl s = Some (out, n)
  ↔ ∃ mt rest, s = mt ++ rest ∧ Forall2 (λ (cl : cls) c, cl c = true) p mt
               ∧ out = repl mt ∧ n = length p.
Proof.
  unfold pattern. split.
  - destruct (match_seq p s) as [mt|] eqn:Hm; [|done].
    intros [= <- <-]. apply match_seq_Some in Hm as (rest & -> & Hall).
    by exists mt, rest.
  - intros (mt & rest & -> & Hall & -> & ->).
    assert (match_seq p (mt ++ rest) = Some mt) as ->; [|done].
    apply match_seq_Some. by exists rest.
Qed.

End re_sub.

(* ===================================================================== *)
(** * g2p/special.py: proof tools *)
(* ===================================================================== *)

Lemma lit_true x c : lit x c = true ↔ c = x.
Proof. unfold lit. by rewrite bool_decide_eq_true. Qed.

Lemma oneof_true xs c : oneof xs c = true ↔ c ∈ xs.
Proof. unfold oneof. by rewrite bool_decide_eq_true. Qed.

(** The sites of [re_sub_site] and [re_sub_inert] with the replacement
    computed. *)
Lemma re_sub_site_out p repl a c occ b out :
  match_seq p (c :: occ) = Some (c :: occ) → barrier p c = true →
  repl (c :: occ) = out →
  re_sub (pattern p repl) (a ++ (c :: occ) ++ b)
  = re_sub (pattern p repl) a ++ out ++ re_sub (pattern p repl) b.
Proof. intros Hm Hb <-. by apply re_sub_site. Qed.

(** Taking a match of a concrete pattern apart. *)
Ltac invert_match H :=
  apply pattern_Some in H as (? & ? & ? & H & ? & ?);
  repeat match goal with
         | H' : Forall2 _ (_ :: _) _ |- _ => inversion H'; clear H'; subst
         | H' : Forall2 _ [] _ |- _ => inversion H'; clear H'; subst
         end;
  repeat match goal with
         | H' : lit _ _ = true |- _ => apply lit_true in H'
         | H' : oneof _ _ = true |- _ => apply oneof_true in H'
         end;
  subst.

(** A pass of a rule over [a ++ w ++ b], where [w] is concrete: [w] is
    replaced when the pattern matches it, and copied when the pattern
    matches nowhere in it. *)
Ltac pass_site :=
  first
    [ erewrite re_sub_site_out;
      [ | vm_compute; reflexivity | vm_compute; reflexivity
        | vm_compute; reflexivity ]
    | rewrite re_sub_inert by (vm_compute; reflexivity) ].

(** Membership in a concrete list, case by case. *)
Ltac elem_cases H :=
  repeat (apply elem_of_cons in H as [H|H]; [try discriminate H; subst|]);
  try (by apply elem_of_nil in H).

(* ===================================================================== *)
(** * g2p/special.py: rieulbieub *)
(* ===================================================================== *)

Section rieulbieub.

Lemma tensed_Some onset q :
  tensed onset = Some q →
  (onset = cho_G ∧ q = cho_GG) ∨ (onset = cho_D ∧ q = cho_DD)
  ∨ (onset = cho_S ∧ q = cho_SS) ∨ (onset = cho_J ∧ q = cho_JJ).
Proof.
  unfold tensed. repeat case_bool_decide; intros; simplify_eq; tauto.
Qed.

Lemma rieulbieub_site a coda onset q b d :
  coda ∈ [jong_LB; jong_LT] → tensed onset = Some q →
  rieulbieub (a ++ [coda; slash; tag_P; onset] ++ b) d
  = rieulbieub a d ++ [coda; q] ++ rieulbieub b d.
Proof.
  intros Hc Hq. unfold rieulbieub, rieulbieub_sub.
  apply tensed_Some in Hq.
  elem_cases Hc; destruct Hq as [[-> ->]|[[-> ->]|[[-> ->]|[-> ->]]]];
    do 4 pass_site; reflexivity.
Qed.

Lemma rieulbieub_sub_None from to q s t :
  (∀ coda onset, coda ∈ [jong_LB; jong_LT] → is_Some (tensed onset) →
     ¬ occurs [coda; slash; tag_P; onset] s) →
  tensed from = Some q →
  t `suffix_of` s → rieulbieub_sub from to t = None.
Proof.
  intros Hfree Hq [pre ->].
  destruct (rieulbieub_sub from to t) as [[out n]|] eqn:Hm; [|done].
  unfold rieulbieub_sub in Hm. invert_match Hm.
  exfalso. eapply Hfree; [eassumption|by eexists|].
  eexists pre, _. reflexivity.
Qed.

Lemma rieulbieub_free s d :
  (∀ coda onset, coda ∈ [jong_LB; jong_LT] → is_Some (tensed onset) →
     ¬ occurs [coda; slash; tag_P; onset] s) →
  rieulbieub s d = s.
Proof.
  intros Hfree. unfold rieulbieub.
  rewrite (re_sub_id (rieulbieub_sub cho_G cho_GG) s)
    by (intros t; by apply (rieulbieub_sub_None _ _ cho_GG)).
  rewrite (re_sub_id (rieulbieub_sub cho_D cho_DD) s)
    by (intros t; by apply (rieulbieub_sub_None _ _ cho_DD)).
  rewrite (re_sub_id (rieulbieub_sub cho_S cho_SS) s)
    by (intros t; by apply (rieulbieub_sub_None _ _ cho_SS)).
  rewrite (re_sub_id (rieulbieub_sub cho_J cho_JJ) s)
    by (intros t; by apply (rieulbieub_sub_None _ _ cho_JJ)).
  reflexivity.
Qed.

End rieulbieub.

(** C5. In any subject, a coda ᆲ or ᆴ followed by the tag /P and one of
    the onsets ᄀ ᄃ ᄉ ᄌ is replaced by the same coda followed by ᄁ ᄄ ᄊ ᄍ
    respectively, the tag being dropped, and what stands before and after
    it is rewritten on its own; a subject without such an occurrence is
    returned unchanged. *)
Theorem rieulbieub_tensification :
  (∀ (a b : str) (coda onset q : Z) (descriptive : bool),
     coda ∈ [jong_LB; jong_LT] → tensed onset = Some q →
     rieulbieub (a ++ [coda; slash; tag_P; onset] ++ b) descriptive
     = rieulbieub a descriptive ++ [coda; q] ++ rieulbieub b descriptive)
  ∧ (∀ (s : str) (descriptive : bool),
       (∀ coda onset, coda ∈ [jong_LB; jong_LT] → is_Some (tensed onset) →
          ¬ occurs [coda; slash; tag_P; onset] s) →
       rieulbieub s descriptive = s).
Proof.
  split.
  - intros. by apply rieulbieub_site.
  - intros. by apply rieulbieub_free.
Qed.

Lemma rieulbieub_tensification_witness :
  rieulbieub ([cho_N; jung_EO] ++ [jong_LB; slash; tag_P; cho_G] ++ [jung_E]) false
  = rieulbieub [cho_N; jung_EO] false ++ [jong_LB; cho_GG]
    ++ rieulbieub [jung_E] false
  ∧ rieulbieub [cho_G; jung_A] false = [cho_G; jung_A].
Proof.
  split.
  - apply (proj1 rieulbieub_tensification); [|reflexivity].
    apply elem_of_cons. by left.
  - apply (proj2 rieulbieub_tensification).
    intros coda onset _ _ (a & b & Hab).
    apply (f_equal length) in Hab. rewrite !length_app in Hab.
    simpl in Hab. lia.
Defined.

(* ===================================================================== *)
(** * g2p/special.py: jamo *)
(* ===================================================================== *)

Section jamo_pass.

(** One substitution of [jamo]: a first class, a class of codas, the
    null onset ᄋ; group 1 and the onset [o] are put for them. *)
Variables (cl1 cl2 : cls) (o : Z).

#[local] Abbreviation m :=
  (pattern [cl1; cl2; lit cho_IEUNG] (λ m, group 0 1 m ++ [o])).

Hypothesis cl1_EU : cl1 jung_EU = true.
Hypothesis cl2_EU : cl2 jung_EU = false.

Lemma jamo_pass_barrier :
  barrier [cl1; cl2; lit cho_IEUNG] jung_EU = true.
Proof. unfold barrier. simpl. rewrite cl2_EU. reflexivity. Qed.

(** The pass whose codas contain [c]. *)
Lemma jamo_pass_site a c b :
  cl2 c = true →
  re_sub m (a ++ [jung_EU; c; cho_IEUNG] ++ b)
  = re_sub m a ++ [jung_EU; o] ++ re_sub m b.
Proof.
  intros Hc. apply re_sub_site_out.
  - simpl. rewrite cl1_EU, Hc. reflexivity.
  - apply jamo_pass_barrier.
  - reflexivity.
Qed.

(** The scan at a ᄋ: the ᄋ stays, whether a match starts at it or
    not. *)
Lemma jamo_pass_ieung b :
  ∃ b', re_sub m (cho_IEUNG :: b) = cho_IEUNG :: b'
        ∧ (m (cho_IEUNG :: b) = None → b' = re_sub m b).
Proof.
  rewrite re_sub_cons. destruct (m (cho_IEUNG :: b)) as [[out n]|] eqn:Hm.
  - apply pattern_Some in Hm as (mt & rest & Hs & Hall & -> & ->).
    destruct mt as [|c0 mt]; [by inversion Hall|].
    injection Hs as <- _. eexists. split; [reflexivity|done].
  - eexists. split; [reflexivity|done].
Qed.

(** A pass with other codas, before the one that rewrites [c]. *)
Lemma jamo_pass_before a c b :
  cl1 c = false → cl2 c = false →
  ∃ b', re_sub m (a ++ [jung_EU; c; cho_IEUNG] ++ b)
        = re_sub m a ++ [jung_EU; c; cho_IEUNG] ++ b'
        ∧ (m (cho_IEUNG :: b) = None → b' = re_sub m b).
Proof.
  intros H1 H2. destruct (jamo_pass_ieung b) as (b' & Hb' & Hnone).
  exists b'. split; [|done].
  change ([jung_EU; c; cho_IEUNG] ++ b) with ([jung_EU; c] ++ cho_IEUNG :: b).
  rewrite re_sub_inert.
  - rewrite Hb'. reflexivity.
  - apply jamo_pass_barrier.
  - simpl. rewrite cl1_EU, H1, H2. reflexivity.
Qed.

(** A pass after the one that has put the onset [x]. *)
Lemma jamo_pass_after a x b :
  cl1 x = false → cl2 x = false →
  re_sub m (a ++ [jung_EU; x] ++ b) = re_sub m a ++ [jung_EU; x] ++ re_sub m b.
Proof.
  intros H1 H2. apply re_sub_inert.
  - apply jamo_pass_barrier.
  - simpl. rewrite cl1_EU, H1, H2. reflexivity.
Qed.

(** A match at a ᄋ needs one of the codas of the pass after it. *)
Lemma jamo_pass_ieung_None b :
  (∀ c rest, b = c :: cho_IEUNG :: rest → cl2 c = false) →
  m (cho_IEUNG :: b) = None.
Proof.
  intros Hb. destruct (m (cho_IEUNG :: b)) as [[out n]|] eqn:Hm; [|done].
  invert_match Hm. simplify_list_eq.
  match goal with H : cl2 _ = true |- _ => rewrite (Hb _ _ eq_refl) in H end.
  done.
Qed.

(** The pass does not bring a coda followed by ᄋ to the head of a
    subject that did not begin with one. *)
Lemma jamo_pass_head (good : Z → Prop) b :
  o ≠ cho_IEUNG →
  (∀ c rest, b = c :: cho_IEUNG :: rest → good c) →
  (∀ c rest, re_sub m b = c :: cho_IEUNG :: rest → good c).
Proof.
  intros Ho Hb c rest Heq. destruct b as [|b0 b]; [done|].
  rewrite re_sub_cons in Heq.
  destruct (m (b0 :: b)) as [[out n]|] eqn:Hm.
  - apply pattern_Some in Hm as (mt & rest' & Hs & Hall & -> & ->).
    destruct mt as [|x0 [|x1 mt]];
      [by inversion Hall
      |inversion Hall as [|? ? ? ? _ Hall']; by inversion Hall'|].
    simpl in Heq. congruence.
  - injection Heq as -> Heq. destruct b as [|b1 b]; [done|].
    rewrite re_sub_cons in Heq.
    destruct (m (b1 :: b)) as [[out n]|] eqn:Hm'.
    + apply pattern_Some in Hm' as (mt & rest' & Hs & Hall & -> & ->).
      destruct mt as [|x0 mt]; [by inversion Hall|].
      simpl in Hs, Heq. injection Hs as -> _. injection Heq as -> _.
      by eapply Hb.
    + injection Heq as -> _. by eapply Hb.
Qed.

End jamo_pass.

Section jamo.

Lemma jamo_onset_Some coda onset :
  jamo_onset coda = Some onset →
  (coda = jong_D ∧ onset = cho_S)
  ∨ (coda ∈ [jong_J; jong_C; jong_T; jong_H] ∧ onset = cho_S)
  ∨ (coda = jong_K ∧ onset = cho_G)
  ∨ (coda = jong_P ∧ onset = cho_B).
Proof.
  unfold jamo_onset. repeat case_bool_decide; intros; simplify_eq; tauto.
Qed.

(** A pass of [jamo] over a site of another pass, before or after that
    pass has rewritten it. *)
Ltac jamo_pass :=
  first
    [ rewrite jamo_pass_site by (vm_compute; reflexivity)
    | rewrite jamo_pass_after by (vm_compute; reflexivity)
    | match goal with
      | |- context [re_sub (pattern [?c1; ?c2; lit cho_IEUNG]
                                    (λ m, group 0 1 m ++ [?o]))
                      (?a ++ [jung_EU; ?c; cho_IEUNG] ++ ?b)] =>
          let b' := fresh "b'" in
          let Heq := fresh "Heq" in
          destruct (jamo_pass_before c1 c2 o
                      ltac:(vm_compute; reflexivity)
                      ltac:(vm_compute; reflexivity)
                      a c b
                      ltac:(vm_compute; reflexivity)
                      ltac:(vm_compute; reflexivity))
            as (b' & Heq & ?);
          rewrite Heq; clear Heq
      end ].

Lemma jamo_site a coda onset b d :
  jamo_onset coda = Some onset →
  ∃ b', jamo (a ++ [jung_EU; coda; cho_IEUNG] ++ b) d
        = jamo a d ++ [jung_EU; onset] ++ b'.
Proof.
  intros Ho. unfold jamo. apply jamo_onset_Some in Ho.
  destruct Ho as [[-> ->]|[[Hc ->]|[[-> ->]|[-> ->]]]]; [|elem_cases Hc| |].
  all: do 4 jamo_pass; eexists; reflexivity.
Qed.

Lemma jamo_onset_None c :
  jamo_onset c = None →
  lit jong_D c = false ∧ oneof [jong_J; jong_C; jong_T; jong_H] c = false
  ∧ oneof [jong_K] c = false ∧ oneof [jong_P] c = false.
Proof.
  unfold jamo_onset, lit, oneof. intros H.
  repeat case_bool_decide; simplify_eq; try done.
  all: exfalso;
    repeat match goal with
           | H' : _ ∈ [_] |- _ => apply list_elem_of_singleton in H'
           end; simplify_eq.
Qed.

(** Each pass keeps the head of a subject free of a coda followed
    by ᄋ. *)
Lemma jamo_pass_no_coda_ieung cl1 cl2 o b :
  o ≠ cho_IEUNG → no_coda_ieung b →
  no_coda_ieung
    (re_sub (pattern [cl1; cl2; lit cho_IEUNG] (λ m, group 0 1 m ++ [o])) b).
Proof.
  intros Ho Hb c rest.
  by apply (jamo_pass_head cl1 cl2 o (λ c, jamo_onset c = None)).
Qed.

(** The same pass over a site of another pass, when the rest of the
    subject is known not to begin with a coda and ᄋ. *)
Ltac jamo_pass_eq :=
  first
    [ rewrite jamo_pass_site by (vm_compute; reflexivity)
    | rewrite jamo_pass_after by (vm_compute; reflexivity)
    | match goal with
      | |- context [re_sub (pattern [?c1; ?c2; lit cho_IEUNG]
                                    (λ m, group 0 1 m ++ [?o]))
                      (?a ++ [jung_EU; ?c; cho_IEUNG] ++ ?b)] =>
          let b' := fresh "b'" in
          let Heq := fresh "Heq" in
          let Hb' := fresh "Hb'" in
          destruct (jamo_pass_before c1 c2 o
                      ltac:(vm_compute; reflexivity)
                      ltac:(vm_compute; reflexivity)
                      a c b
                      ltac:(vm_compute; reflexivity)
                      ltac:(vm_compute; reflexivity))
            as (b' & Heq & Hb');
          rewrite Heq; clear Heq;
          rewrite Hb'; [clear Hb'|];
          [ | apply jamo_pass_ieung_None; intros c0 rest0 Hc0;
              match goal with
              | N : no_coda_ieung b |- _ =>
                  pose proof (jamo_onset_None _ (N _ _ Hc0)); tauto
              end ]
      end ].

Lemma jamo_site_eq a coda onset b d :
  jamo_onset coda = Some onset → no_coda_ieung b →
  jamo (a ++ [jung_EU; coda; cho_IEUNG] ++ b) d
  = jamo a d ++ [jung_EU; onset] ++ jamo b d.
Proof.
  intros Ho N0. unfold jamo.
  pose proof (jamo_pass_no_coda_ieung
                (oneof [cho_G; jung_EU]) (lit jong_D) cho_S b
                ltac:(done) N0) as N1.
  pose proof (jamo_pass_no_coda_ieung
                (oneof [cho_IEUNG; jung_EU])
                (oneof [jong_J; jong_C; jong_T; jong_H]) cho_S _
                ltac:(done) N1) as N2.
  pose proof (jamo_pass_no_coda_ieung
                (oneof [cho_IEUNG; jung_EU]) (oneof [jong_K]) cho_G _
                ltac:(done) N2) as N3.
  apply jamo_onset_Some in Ho.
  destruct Ho as [[-> ->]|[[Hc ->]|[[-> ->]|[-> ->]]]]; [|elem_cases Hc| |].
  all: do 4 jamo_pass_eq; reflexivity.
Qed.

End jamo.

(* ===================================================================== *)
(** * g2p/special.py: occurrences *)
(* ===================================================================== *)

Section occurs.

Implicit Types (pat s : str).

Lemma occurs_cons pat c s :
  occurs pat (c :: s) ↔ pat `prefix_of` (c :: s) ∨ occurs pat s.
Proof.
  split.
  - intros ([|c' a] & b & Heq).
    + left. by exists b.
    + right. injection Heq as -> ->. by exists a, b.
  - intros [[b Hb]|(a & b & ->)].
    + by exists [], b.
    + by exists (c :: a), b.
Qed.

Lemma occurs_nil pat : pat ≠ [] → ¬ occurs pat [].
Proof.
  intros Hne (a & b & Heq). symmetry in Heq.
  apply app_eq_nil in Heq as [_ Heq]. apply app_eq_nil in Heq as [Heq _]. done.
Qed.

Lemma occurs_suffix pat t s : t `suffix_of` s → occurs pat t → occurs pat s.
Proof.
  intros [pre ->] (a & b & ->). exists (pre ++ a), b. by rewrite <- app_assoc.
Qed.

(** A match of a sequence pattern at a suffix is an occurrence of the
    matched text. *)
Lemma pattern_occurs p repl t s out n :
  t `suffix_of` s → pattern p repl t = Some (out, n) →
  ∃ mt, Forall2 (λ (cl : cls) c, cl c = true) p mt ∧ occurs mt s.
Proof.
  intros Hsuf (mt & rest & -> & Hall & _)%pattern_Some.
  exists mt. split; [done|]. eapply occurs_suffix; [done|]. by exists [], rest.
Qed.

End occurs.

(** Membership in a concrete list, by computation. *)
Ltac elem_decide := apply (bool_decide_eq_true_1 _); vm_compute; reflexivity.

(* ===================================================================== *)
(** * g2p/special.py: ye, vowel_ui and josa_ui *)
(* ===================================================================== *)

Section descriptive.

Lemma ye_site a c b :
  c ∈ ye_onsets →
  ye (a ++ [c; jung_YE] ++ b) true = ye a true ++ [c; jung_E] ++ ye b true.
Proof.
  intros Hc. unfold ye. unfold ye_onsets in Hc.
  elem_cases Hc; pass_site; reflexivity.
Qed.

Lemma ye_free s :
  (∀ c, c ∈ ye_onsets ++ [cho_R; hcj_RIEUL] → ¬ occurs [c; jung_YE] s) →
  ye s true = s.
Proof.
  intros Hfree. unfold ye. apply re_sub_id. intros t Hsuf.
  destruct (pattern _ _ t) as [[out n]|] eqn:Hm; [|done]. exfalso.
  destruct (pattern_occurs _ _ _ _ _ _ Hsuf Hm) as (mt & Hall & Hocc).
  inversion Hall as [|? c ? ? Hc Hall']; subst.
  inversion Hall' as [|? y ? ? Hy Hall'']; subst.
  inversion Hall''; subst.
  apply oneof_true in Hc. apply lit_true in Hy. subst y.
  apply (Hfree c); [|done].
  unfold ye_class in Hc. elem_cases Hc; elem_decide.
Qed.

Lemma vowel_ui_site a x b :
  nonspace x = true →
  ¬ (x = jung_YI ∧ ∃ a' y, a = a' ++ [y; cho_IEUNG] ∧ nonspace y = true) →
  vowel_ui (a ++ [x; cho_IEUNG; jung_YI] ++ b) true
  = vowel_ui a true ++ [x; cho_IEUNG; jung_I] ++ vowel_ui b true.
Proof.
  intros Hx Hctx. unfold vowel_ui. rewrite re_sub_pattern_app.
  - f_equal. rewrite re_sub_pattern_match; [done|done|].
    simpl. rewrite Hx. reflexivity.
  - intros t Ht [a' ->] Hlen.
    destruct t as [|y [|z [|? ?]]]; [done| | |simpl in Hlen; lia].
    + simpl. destruct (nonspace y); [|done].
      destruct (lit cho_IEUNG x) eqn:Hx'; [|done]. reflexivity.
    + simpl. destruct (nonspace y) eqn:Hy; [|done].
      destruct (lit cho_IEUNG z) eqn:Hz; [|done].
      destruct (lit jung_YI x) eqn:Hx'; [|done].
      exfalso. apply Hctx. apply lit_true in Hz, Hx'. subst.
      split; [done|]. by exists a', y.
Qed.

Lemma vowel_ui_free s :
  (∀ x, nonspace x = true → ¬ occurs [x; cho_IEUNG; jung_YI] s) →
  vowel_ui s true = s.
Proof.
  intros Hfree. unfold vowel_ui. apply re_sub_id. intros t Hsuf.
  destruct (pattern _ _ t) as [[out n]|] eqn:Hm; [|done]. exfalso.
  destruct (pattern_occurs _ _ _ _ _ _ Hsuf Hm) as (mt & Hall & Hocc).
  inversion Hall as [|? x ? ? Hx Hall1]; subst.
  inversion Hall1 as [|? y ? ? Hy Hall2]; subst.
  inversion Hall2 as [|? z ? ? Hz Hall3]; subst.
  inversion Hall3; subst.
  apply lit_true in Hy, Hz. subst. by apply (Hfree x).
Qed.

Lemma josa_ui_strip_site a b :
  josa_ui (a ++ [slash; tag_J] ++ b) false
  = josa_ui a false ++ josa_ui b false.
Proof. unfold josa_ui, str_replace. pass_site. reflexivity. Qed.

Lemma josa_ui_strip_free s :
  ¬ occurs [slash; tag_J] s → josa_ui s false = s.
Proof.
  intros Hfree. unfold josa_ui, str_replace. apply re_sub_id. intros t Hsuf.
  destruct (pattern _ _ t) as [[out n]|] eqn:Hm; [|done]. exfalso.
  destruct (pattern_occurs _ _ _ _ _ _ Hsuf Hm) as (mt & Hall & Hocc).
  simpl in Hall.
  inversion Hall as [|? x ? ? Hx Hall1]; subst.
  inversion Hall1 as [|? y ? ? Hy Hall2]; subst.
  inversion Hall2; subst.
  apply lit_true in Hx, Hy. by subst.
Qed.

Lemma josa_ui_site a b :
  josa_ui (a ++ [cho_IEUNG; jung_YI; slash; tag_J] ++ b) true
  = josa_ui a true ++ [cho_IEUNG; jung_E] ++ josa_ui b true.
Proof. unfold josa_ui. pass_site. reflexivity. Qed.

Lemma josa_ui_free s :
  ¬ occurs [cho_IEUNG; jung_YI; slash; tag_J] s → josa_ui s true = s.
Proof.
  intros Hfree. unfold josa_ui. apply re_sub_id. intros t Hsuf.
  destruct (pattern _ _ t) as [[out n]|] eqn:Hm; [|done]. exfalso.
  destruct (pattern_occurs _ _ _ _ _ _ Hsuf Hm) as (mt & Hall & Hocc).
  inversion Hall as [|? x ? ? Hx Hall1]; subst.
  inversion Hall1 as [|? y ? ? Hy Hall2]; subst.
  inversion Hall2 as [|? z ? ? Hz Hall3]; subst.
  inversion Hall3 as [|? w ? ? Hw Hall4]; subst.
  inversion Hall4; subst.
  apply lit_true in Hx, Hy, Hz, Hw. by subst.
Qed.

End descriptive.

(* ===================================================================== *)
(** * g2p/special.py: the tag /J in the output of josa_ui *)
(* ===================================================================== *)

Section josa_tag.

Implicit Types (s : str).

Lemma prefix_tag c s :
  [slash; tag_J] `prefix_of` (c :: s) ↔ c = slash ∧ head s = Some tag_J.
Proof.
  split.
  - intros [rest Heq]. simplify_list_eq. done.
  - intros [-> Hs]. destruct s as [|y s]; simplify_eq/=. by exists s.
Qed.

(** One step of [josa_ui] without [descriptive]: a tag at the head is
    dropped, any other character is copied. *)
Lemma josa_ui_strip_tag s :
  josa_ui (slash :: tag_J :: s) false = josa_ui s false.
Proof. apply (josa_ui_strip_site [] s). Qed.

Lemma josa_ui_strip_other c s :
  ¬ [slash; tag_J] `prefix_of` (c :: s) →
  josa_ui (c :: s) false = c :: josa_ui s false.
Proof.
  intros Hpre. unfold josa_ui, str_replace. apply re_sub_cons_None.
  destruct (pattern _ _ (c :: s)) as [[out n]|] eqn:Hm; [|done]. exfalso.
  apply pattern_Some in Hm as (mt & rest & Hs & Hall & _).
  simpl in Hall.
  inversion Hall as [|? x ? ? Hx Hall1]; subst.
  inversion Hall1 as [|? y ? ? Hy Hall2]; subst.
  inversion Hall2; subst. apply lit_true in Hx, Hy. subst.
  apply Hpre. rewrite Hs. by exists rest.
Qed.

Lemma josa_ui_strip_head s :
  head (josa_ui s false) = Some tag_J →
  head s = Some tag_J ∨ [slash; tag_J] `prefix_of` s.
Proof.
  destruct s as [|c s]; [done|].
  destruct (decide ([slash; tag_J] `prefix_of` (c :: s))) as [Hp|Hp]; [by right|].
  rewrite josa_ui_strip_other by done. by left.
Qed.

(** Without [descriptive], the output has no /J when the input has no
    //J. *)
Lemma josa_ui_strip_clean s :
  ¬ occurs [slash; slash; tag_J] s →
  ¬ occurs [slash; tag_J] (josa_ui s false).
Proof.
  remember (length s) as k eqn:Hk. revert s Hk.
  induction k as [k IH] using lt_wf_ind. intros s -> Hfree.
  destruct s as [|c s]; [by apply occurs_nil|].
  destruct (decide ([slash; tag_J] `prefix_of` (c :: s))) as [Hp|Hp].
  - apply prefix_tag in Hp as [-> Hs].
    destruct s as [|y s]; simpl in Hs; simplify_eq.
    rewrite josa_ui_strip_tag. apply (IH (length s)); [simpl; lia|done|].
    intros Hocc. apply Hfree.
    apply occurs_cons. right. apply occurs_cons. by right.
  - rewrite josa_ui_strip_other by done.
    intros [Hpre|Hocc]%occurs_cons.
    + apply prefix_tag in Hpre as [-> Hhead].
      apply josa_ui_strip_head in Hhead as [Hhead|Hpre].
      * apply Hp, prefix_tag. done.
      * apply Hfree. apply occurs_cons. left.
        destruct Hpre as [rest ->]. by exists rest.
    + revert Hocc. apply (IH (length s)); [simpl; lia|done|].
      intros Hocc. apply Hfree. apply occurs_cons. by right.
Qed.

(** One step of [josa_ui] with [descriptive]. *)
Lemma josa_ui_particle s :
  josa_ui (cho_IEUNG :: jung_YI :: slash :: tag_J :: s) true
  = cho_IEUNG :: jung_E :: josa_ui s true.
Proof. apply (josa_ui_site [] s). Qed.

Lemma josa_ui_other c s :
  ¬ [cho_IEUNG; jung_YI; slash; tag_J] `prefix_of` (c :: s) →
  josa_ui (c :: s) true = c :: josa_ui s true.
Proof.
  intros Hpre. unfold josa_ui. apply re_sub_cons_None.
  destruct (pattern _ _ (c :: s)) as [[out n]|] eqn:Hm; [|done]. exfalso.
  apply pattern_Some in Hm as (mt & rest & Hs & Hall & _).
  inversion Hall as [|? x ? ? Hx Hall1]; subst.
  inversion Hall1 as [|? y ? ? Hy Hall2]; subst.
  inversion Hall2 as [|? z ? ? Hz Hall3]; subst.
  inversion Hall3 as [|? w ? ? Hw Hall4]; subst.
  inversion Hall4; subst. apply lit_true in Hx, Hy, Hz, Hw. subst.
  apply Hpre. rewrite Hs. by exists rest.
Qed.

Lemma josa_ui_head s : head (josa_ui s true) = head s.
Proof.
  destruct s as [|c s]; [done|].
  destruct (decide ([cho_IEUNG; jung_YI; slash; tag_J] `prefix_of` (c :: s)))
    as [[rest Hp]|Hp].
  - simpl in Hp. simplify_eq. by rewrite josa_ui_particle.
  - by rewrite josa_ui_other.
Qed.

(** With [descriptive], the output has no /J when every /J of the input
    comes directly after 의. *)
Lemma josa_ui_clean s :
  (∀ a b, s = a ++ [slash; tag_J] ++ b →
          ∃ a', a = a' ++ [cho_IEUNG; jung_YI]) →
  ¬ occurs [slash; tag_J] (josa_ui s true).
Proof.
  remember (length s) as k eqn:Hk. revert s Hk.
  induction k as [k IH] using lt_wf_ind. intros s -> Hall.
  destruct s as [|c s]; [by apply occurs_nil|].
  destruct (decide ([cho_IEUNG; jung_YI; slash; tag_J] `prefix_of` (c :: s)))
    as [[rest Hp]|Hp].
  - simpl in Hp. simplify_eq. rewrite josa_ui_particle.
    intros [Hpre|Hocc]%occurs_cons; [by apply prefix_tag in Hpre as [? _]|].
    apply occurs_cons in Hocc as [Hpre|Hocc];
      [by apply prefix_tag in Hpre as [? _]|].
    revert Hocc. apply (IH (length rest)); [simpl; lia|done|].
    intros a b ->.
    destruct (Hall ([cho_IEUNG; jung_YI; slash; tag_J] ++ a) b eq_refl)
      as (a' & Ha').
    destruct a' as [|x1 [|x2 [|x3 [|x4 a']]]]; simplify_list_eq.
    by exists a'.
  - rewrite josa_ui_other by done.
    intros [Hpre|Hocc]%occurs_cons.
    + apply prefix_tag in Hpre as [-> Hhead].
      rewrite josa_ui_head in Hhead.
      destruct s as [|y s]; simpl in Hhead; simplify_eq.
      destruct (Hall [] s eq_refl) as (a' & Ha').
      by destruct a' as [|? [|? ?]].
    + revert Hocc. apply (IH (length s)); [simpl; lia|done|].
      intros a b ->.
      destruct (Hall (c :: a) b eq_refl) as (a' & Ha').
      destruct a' as [|x1 a'].
      * simplify_list_eq. exfalso. apply Hp. by exists b.
      * simplify_list_eq. by exists a'.
Qed.

End josa_tag.

(* ===================================================================== *)
(** * g2p/special.py: balb *)
(* ===================================================================== *)

Section balb.

Implicit Types (s t a b r : str).

Lemma lit_false x c : lit x c = false ↔ c ≠ x.
Proof. unfold lit. by rewrite bool_decide_eq_false. Qed.

(** The first pattern at a 바+ᆲ. *)
Lemma balb_ba_match rest :
  balb_ba (cho_B :: jung_A :: jong_LB :: rest)
  = if at_dollar rest then Some ([cho_B; jung_A; jong_B], 3%nat)
    else match rest with
         | c4 :: _ =>
             if negb (oneof [cho_IEUNG; cho_H] c4)
             then Some ([cho_B; jung_A; jong_B; c4], 4%nat)
             else None
         | [] => None
         end.
Proof. reflexivity. Qed.

(** The first pattern matches at a 바+ᆲ only. *)
Lemma balb_ba_Some s out n :
  balb_ba s = Some (out, n) →
  ∃ rest, s = cho_B :: jung_A :: jong_LB :: rest.
Proof.
  unfold balb_ba. destruct s as [|c1 [|c2 [|c3 rest]]]; try done.
  destruct (lit cho_B c1) eqn:H1; [|done].
  destruct (lit jung_A c2) eqn:H2; [|done].
  destruct (lit jong_LB c3) eqn:H3; [|done].
  apply lit_true in H1, H2, H3. subst. intros _. by exists rest.
Qed.

Lemma balb_ba_None s :
  (∀ rest, s ≠ cho_B :: jung_A :: jong_LB :: rest) → balb_ba s = None.
Proof.
  intros Hs. destruct (balb_ba s) as [[out n]|] eqn:Hm; [|done].
  apply balb_ba_Some in Hm as [rest ->]. by destruct (Hs rest).
Qed.

Lemma at_dollar_true s : at_dollar s = true ↔ s = [] ∨ s = [0x0A].
Proof.
  unfold at_dollar. rewrite orb_true_iff, !bool_decide_eq_true. done.
Qed.

Lemma balb_ba_length_preserving : length_preserving balb_ba.
Proof.
  intros s out n Hm. destruct (balb_ba_Some _ _ _ Hm) as [rest ->].
  rewrite balb_ba_match in Hm.
  destruct (at_dollar rest); [simplify_eq; simpl; lia|].
  destruct rest as [|c4 rest]; [done|].
  destruct (negb _); simplify_eq. simpl. lia.
Qed.

(** Splitting the subject of the first pattern before a character [c]
    that is neither ᅡ nor ᆲ: either no 바+ᆲ ends there, or [c] may be
    taken by a match before it without loss. *)
Lemma balb_ba_split a c r :
  c ≠ jung_A → c ≠ jong_LB →
  ¬ [cho_B; jung_A; jong_LB] `suffix_of` a
  ∨ (balb_ba (c :: r) = None ∧ c ∉ [cho_IEUNG; cho_H]) →
  re_sub balb_ba (a ++ c :: r) = re_sub balb_ba a ++ re_sub balb_ba (c :: r).
Proof.
  intros HcA HcLB Hctx. apply re_sub_app. intros t Ht Hsuf.
  destruct t as [|x [|y [|z t]]]; [done| | |].
  - left. rewrite !balb_ba_None; [done|by intros ?|intros ? [=]; by subst].
  - left. rewrite !balb_ba_None; [done|by intros ?|intros ? [=]; by subst].
  - destruct (decide (x = cho_B ∧ y = jung_A ∧ z = jong_LB))
      as [(-> & -> & ->)|Hne].
    2: { left. rewrite !balb_ba_None; [done| |];
         intros ? [=]; subst; by apply Hne. }
    destruct t as [|w t].
    + (* the suffix is 바+ᆲ itself *)
      destruct Hctx as [Hctx|[Hnone Hc]]; [done|].
      rewrite <- !app_comm_cons, app_nil_l. rewrite !balb_ba_match.
      destruct (at_dollar (c :: r)) eqn:Hd.
      * left. split; [done|]. intros out n [= <- <-]. simpl. lia.
      * right.
        assert (Hc' : negb (oneof [cho_IEUNG; cho_H] c) = true).
        { apply negb_true_iff. unfold oneof. by apply bool_decide_eq_false. }
        rewrite (re_sub_cons_Some _ _ _ [cho_B; jung_A; jong_B; c] 4).
        2: { rewrite balb_ba_match, Hd, Hc'. reflexivity. }
        rewrite (re_sub_cons_None _ c r Hnone). reflexivity.
    + (* a character follows the 바+ᆲ inside the suffix *)
      rewrite <- !app_comm_cons. rewrite !balb_ba_match.
      assert (Hd : at_dollar (w :: t ++ c :: r) = false).
      { destruct (at_dollar (w :: t ++ c :: r)) eqn:Hd; [|done].
        apply at_dollar_true in Hd as [Hd|Hd]; [done|].
        injection Hd as _ Hd. by destruct t. }
      rewrite Hd.
      destruct (at_dollar (w :: t)) eqn:Hd'.
      * apply at_dollar_true in Hd' as [Hd'|Hd']; [done|].
        injection Hd' as -> ->. right.
        rewrite (re_sub_cons_Some _ _ _ [cho_B; jung_A; jong_B; 0x0A] 4)
          by reflexivity.
        reflexivity.
      * left. split; [done|]. intros out n.
        destruct (negb _); [|done]. intros [= <- <-]. simpl. lia.
Qed.

End balb.

Section balb_sites.

Implicit Types (s t a b r : str).

(** The first pattern at a 바+ᆲ that is not directly after another
    바+ᆲ and not directly before one. *)
Lemma balb_ba_site a b :
  ¬ [cho_B; jung_A; jong_LB] `suffix_of` a →
  (∀ c, head b = Some c → c ∉ [cho_IEUNG; cho_H]) →
  ¬ [cho_B; jung_A; jong_LB] `prefix_of` b →
  re_sub balb_ba (a ++ [cho_B; jung_A; jong_LB] ++ b)
  = re_sub balb_ba a ++ [cho_B; jung_A; jong_B] ++ re_sub balb_ba b.
Proof.
  intros Ha Hb Hb'.
  change ([cho_B; jung_A; jong_LB] ++ b)
    with (cho_B :: [jung_A; jong_LB] ++ b).
  rewrite balb_ba_split; [|done|done|by left]. f_equal.
  destruct b as [|c b].
  - reflexivity.
  - assert (Hc' : negb (oneof [cho_IEUNG; cho_H] c) = true).
    { apply negb_true_iff. unfold oneof. apply bool_decide_eq_false.
      by apply Hb. }
    assert (Hnone : balb_ba (c :: b) = None).
    { apply balb_ba_None. intros rest Heq. apply Hb'. rewrite Heq.
      by exists rest. }
    rewrite (re_sub_cons_None _ c b Hnone).
    destruct (at_dollar (c :: b)) eqn:Hd.
    + apply at_dollar_true in Hd as [Hd|Hd]; [done|].
      injection Hd as -> ->. reflexivity.
    + rewrite (re_sub_cons_Some _ _ _ [cho_B; jung_A; jong_B; c] 4).
      * reflexivity.
      * simpl app. rewrite balb_ba_match, Hd, Hc'. reflexivity.
Qed.

(** The first pattern does not touch a 너+ᆲ and its two followers. *)
Lemma balb_ba_neo a o b :
  o ∈ [cho_J; cho_JJ; cho_D; cho_DD] →
  re_sub balb_ba (a ++ [cho_N; jung_EO; jong_LB; o; jung_U] ++ b)
  = re_sub balb_ba a ++ [cho_N; jung_EO; jong_LB; o; jung_U]
    ++ re_sub balb_ba b.
Proof.
  intros Ho.
  change ([cho_N; jung_EO; jong_LB; o; jung_U] ++ b)
    with (cho_N :: [jung_EO; jong_LB; o; jung_U] ++ b).
  rewrite balb_ba_split; [|done|done|].
  2: { right. split; [by apply balb_ba_None|].
       intros Hin. elem_cases Hin. }
  f_equal. simpl app.
  rewrite !re_sub_cons_None; [done|..].
  all: apply balb_ba_None; intros rest [=]; subst; elem_cases Ho.
Qed.

Lemma balb_site_ba_eq a b d :
  ¬ [cho_B; jung_A; jong_LB] `suffix_of` a →
  (∀ c, head b = Some c → c ∉ [cho_IEUNG; cho_H]) →
  ¬ [cho_B; jung_A; jong_LB] `prefix_of` b →
  balb (a ++ [cho_B; jung_A; jong_LB] ++ b) d
  = balb a d ++ [cho_B; jung_A; jong_B] ++ balb b d.
Proof.
  intros Ha Hb Hb'. unfold balb, balb_neo.
  rewrite balb_ba_site by done. pass_site. reflexivity.
Qed.

Lemma balb_site_neo_eq a o b d :
  o ∈ [cho_J; cho_JJ; cho_D; cho_DD] →
  balb (a ++ [cho_N; jung_EO; jong_LB; o; jung_U] ++ b) d
  = balb a d ++ [cho_N; jung_EO; jong_B; o; jung_U] ++ balb b d.
Proof.
  intros Ho. unfold balb, balb_neo.
  rewrite balb_ba_neo by done.
  elem_cases Ho; pass_site; reflexivity.
Qed.

End balb_sites.

(* ===================================================================== *)
(** * re.sub with expansions of the same length, position by position *)
(* ===================================================================== *)

Section pointwise.

Implicit Types (m : matcher) (s : str).

Lemma re_sub_length m s :
  length_preserving m → length (re_sub m s) = length s.
Proof.
  intros Hm. remember (length s) as k eqn:Hk. revert s Hk.
  induction k as [k IH] using lt_wf_ind. intros s ->.
  destruct s as [|c s]; [done|]. rewrite re_sub_cons.
  destruct (m (c :: s)) as [[out n]|] eqn:Hmatch.
  - destruct (Hm _ _ _ Hmatch) as [Hout Hn]. simpl in Hn.
    rewrite length_app, Hout.
    rewrite (IH (length (drop (Nat.pred n) s))); [| |done].
    + rewrite length_drop. simpl. lia.
    + rewrite length_drop. simpl. lia.
  - simpl. f_equal. by apply (IH (length s)); [simpl; lia|].
Qed.

(** A character of the output is the character of the input at the same
    position, or it comes from the expansion of a match that covers the
    position. *)
Lemma re_sub_lookup m s i c' :
  length_preserving m →
  re_sub m s !! i = Some c' →
  s !! i = Some c'
  ∨ ∃ k out n, (k ≤ i)%nat ∧ m (drop k s) = Some (out, n)
               ∧ out !! (i - k)%nat = Some c'.
Proof.
  intros Hm. remember (length s) as l eqn:Hl. revert s i Hl.
  induction l as [l IH] using lt_wf_ind. intros s i -> Hi.
  destruct s as [|c s]; [done|]. rewrite re_sub_cons in Hi.
  destruct (m (c :: s)) as [[out n]|] eqn:Hmatch.
  - destruct (Hm _ _ _ Hmatch) as [Hout Hn]. simpl in Hn.
    destruct (decide (i < n)%nat) as [Hlt|Hge].
    + rewrite lookup_app_l in Hi by lia.
      right. exists 0%nat, out, n. rewrite Nat.sub_0_r. by split_and!; [lia| |].
    + rewrite lookup_app_r in Hi by lia. rewrite Hout in Hi.
      apply (IH (length (drop (Nat.pred n) s))) in Hi;
        [| rewrite length_drop; simpl; lia | done].
      destruct Hi as [Hi|(k & out' & n' & Hk & Hm' & Ho')].
      * left. rewrite lookup_drop in Hi.
        replace i with (S (Nat.pred n + (i - n)))%nat by lia. done.
      * right. exists (n + k)%nat, out', n'. split_and!; [lia| |].
        -- rewrite drop_drop in Hm'.
           replace (n + k)%nat with (S (Nat.pred n + k)) by lia. done.
        -- replace (i - (n + k))%nat with (i - n - k)%nat by lia. done.
  - destruct i as [|i]; [by left|]. simpl in Hi.
    apply (IH (length s)) in Hi; [|simpl; lia|done].
    destruct Hi as [Hi|(k & out' & n' & Hk & Hm' & Ho')]; [by left|].
    right. exists (S k), out', n'. split_and!; [lia|done|done].
Qed.

End pointwise.

Section balb_pointwise.

Implicit Types (s : str).

Lemma balb_neo_length_preserving : length_preserving balb_neo.
Proof.
  intros s out n Hm. unfold balb_neo in Hm.
  apply pattern_Some in Hm as (mt & rest & -> & Hall & -> & ->).
  pose proof (Forall2_length _ _ _ Hall) as Hlen. simpl in Hlen.
  do 6 (destruct mt as [|? mt]; try done).
  rewrite length_app. simpl. lia.
Qed.

Lemma balb_length s d : length (balb s d) = length s.
Proof.
  unfold balb.
  rewrite (re_sub_length _ _ balb_neo_length_preserving).
  apply (re_sub_length _ _ balb_ba_length_preserving).
Qed.

(** The first pattern changes a character only at a site of 바+ᆲ. *)
Lemma balb_ba_lookup s i c' :
  re_sub balb_ba s !! i = Some c' →
  s !! i = Some c'
  ∨ (c' = jong_B ∧ s !! i = Some jong_LB ∧ balb_site_ba s i).
Proof.
  intros Hi.
  apply (re_sub_lookup _ _ _ _ balb_ba_length_preserving) in Hi
    as [Hi|(k & out & n & Hk & Hm & Ho)]; [by left|].
  destruct (balb_ba_Some _ _ _ Hm) as [rest Hdrop].
  assert (Hat : ∀ j, s !! (k + j)%nat
                     = (cho_B :: jung_A :: jong_LB :: rest) !! j).
  { intros j. by rewrite <- Hdrop, lookup_drop. }
  rewrite Hdrop, balb_ba_match in Hm.
  replace i with (k + (i - k))%nat by lia.
  destruct (at_dollar rest) eqn:Hd.
  - injection Hm as <- <-.
    destruct (i - k)%nat as [|[|[|j]]] eqn:Hj; simpl in Ho; simplify_eq.
    + left. by rewrite Hat.
    + left. by rewrite Hat.
    + right. split_and!; [done|by rewrite Hat|].
      exists k. split_and!; [done|by rewrite <- (Nat.add_0_r k), Hat
                            |by rewrite Hat|by rewrite Hat|].
      intros c. replace (k + 2 + 1)%nat with (k + 3)%nat by lia.
      rewrite Hat. simpl.
      apply at_dollar_true in Hd as [->| ->]; [done|].
      intros [= <-]. intros Hin. elem_cases Hin.
  - destruct rest as [|c4 rest]; [done|].
    destruct (negb (oneof [cho_IEUNG; cho_H] c4)) eqn:Hc4; [|done].
    injection Hm as <- <-.
    destruct (i - k)%nat as [|[|[|[|j]]]] eqn:Hj; simpl in Ho; simplify_eq.
    + left. by rewrite Hat.
    + left. by rewrite Hat.
    + right. split_and!; [done|by rewrite Hat|].
      exists k. split_and!; [done|by rewrite <- (Nat.add_0_r k), Hat
                            |by rewrite Hat|by rewrite Hat|].
      intros c. replace (k + 2 + 1)%nat with (k + 3)%nat by lia.
      rewrite Hat. simpl. intros [= <-].
      apply negb_true_iff in Hc4. unfold oneof in Hc4.
      by apply bool_decide_eq_false in Hc4.
    + left. by rewrite Hat.
Qed.

(** The second pattern changes a character only at a site of 너+ᆲ. *)
Lemma balb_neo_lookup s i c' :
  re_sub balb_neo s !! i = Some c' →
  s !! i = Some c'
  ∨ (c' = jong_B ∧ s !! i = Some jong_LB ∧ balb_site_neo s i).
Proof.
  intros Hi.
  apply (re_sub_lookup _ _ _ _ balb_neo_length_preserving) in Hi
    as [Hi|(k & out & n & Hk & Hm & Ho)]; [by left|].
  unfold balb_neo in Hm.
  apply pattern_Some in Hm as (mt & rest & Hdrop & Hall & -> & ->).
  inversion Hall as [|? x0 ? ? H0 Hall0]; subst.
  inversion Hall0 as [|? x1 ? ? H1 Hall1]; subst.
  inversion Hall1 as [|? x2 ? ? H2 Hall2]; subst.
  inversion Hall2 as [|? x3 ? ? H3 Hall3]; subst.
  inversion Hall3 as [|? x4 ? ? H4 Hall4]; subst.
  inversion Hall4; subst.
  apply lit_true in H0, H1, H2, H4. subst.
  assert (Ho3 : x3 ∈ [cho_J; cho_JJ; cho_D; cho_DD]).
  { apply orb_true_iff in H3 as [H3|H3]; apply oneof_true in H3;
      elem_cases H3; elem_decide. }
  assert (Hat : ∀ j, s !! (k + j)%nat
                     = ([cho_N; jung_EO; jong_LB; x3; jung_U] ++ rest) !! j).
  { intros j. by rewrite <- Hdrop, lookup_drop. }
  replace i with (k + (i - k))%nat by lia.
  destruct (i - k)%nat as [|[|[|[|[|j]]]]] eqn:Hj; simpl in Ho; simplify_eq.
  - left. by rewrite Hat.
  - left. by rewrite Hat.
  - right. split_and!; [done|by rewrite Hat|].
    exists k, x3.
    split_and!; [done|by rewrite <- (Nat.add_0_r k), Hat|by rewrite Hat
                |by rewrite Hat| |done|].
    + replace (k + 2 + 1)%nat with (k + 3)%nat by lia. by rewrite Hat.
    + replace (k + 2 + 2)%nat with (k + 4)%nat by lia. by rewrite Hat.
  - left. by rewrite Hat.
  - left. by rewrite Hat.
Qed.

(** A character other than ᆸ in the output of the first pattern is the
    character of the input. *)
Lemma balb_ba_lookup_other s i c' :
  re_sub balb_ba s !! i = Some c' → c' ≠ jong_B → s !! i = Some c'.
Proof. intros [?|(-> & _)]%balb_ba_lookup Hne; done. Qed.

(** [balb] changes a character only at a site, from ᆲ to ᆸ. *)
Lemma balb_lookup s d i c c' :
  s !! i = Some c → balb s d !! i = Some c' → c' ≠ c →
  c = jong_LB ∧ c' = jong_B ∧ (balb_site_ba s i ∨ balb_site_neo s i).
Proof.
  intros Hs Hb Hne. unfold balb in Hb.
  apply balb_neo_lookup in Hb as [Hb|(-> & Hb & Hsite)].
  - apply balb_ba_lookup in Hb as [Hb|(-> & Hb & Hsite)]; [congruence|].
    split_and!; [congruence|done|by left].
  - apply balb_ba_lookup_other in Hb; [|done].
    split_and!; [congruence|done|]. right.
    destruct Hsite as (k & o & -> & H0 & H1 & H2 & H3 & Ho & H4).
    exists k, o. split_and!; try done.
    + by apply balb_ba_lookup_other in H0.
    + by apply balb_ba_lookup_other in H1.
    + apply balb_ba_lookup_other in H3; [done|].
      intros ->. elem_cases Ho.
    + by apply balb_ba_lookup_other in H4.
Qed.

End balb_pointwise.

(** C8, as the code has it. The coda ᆲ of 바+ᆲ, at the end of the subject
    or before a character other than ᄋ and ᄒ, becomes ᆸ (U+11B8, not ᆨ),
    when this 바+ᆲ does not stand directly after or before another 바+ᆲ
    (a case about which nothing is said); the coda of 너+ᆲ before 주, 쭈,
    두 or 뚜 becomes ᆸ; what stands before and after is rewritten on its
    own. The output has the length of the input, and a character differs
    from the input only where a coda ᆲ in one of these two positions has
    become ᆸ: every other coda ᆲ, and every other character, is left
    unchanged. *)
Theorem balb_exceptions :
  (∀ (a b : str) (descriptive : bool),
     ¬ [cho_B; jung_A; jong_LB] `suffix_of` a →
     (∀ c, head b = Some c → c ∉ [cho_IEUNG; cho_H]) →
     ¬ [cho_B; jung_A; jong_LB] `prefix_of` b →
     balb (a ++ [cho_B; jung_A; jong_LB] ++ b) descriptive
     = balb a descriptive ++ [cho_B; jung_A; jong_B] ++ balb b descriptive)
  ∧ (∀ (a b : str) (o : Z) (descriptive : bool),
       o ∈ [cho_J; cho_JJ; cho_D; cho_DD] →
       balb (a ++ [cho_N; jung_EO; jong_LB; o; jung_U] ++ b) descriptive
       = balb a descriptive ++ [cho_N; jung_EO; jong_B; o; jung_U]
         ++ balb b descriptive)
  ∧ (∀ (s : str) (descriptive : bool),
       length (balb s descriptive) = length s)
  ∧ (∀ (s : str) (descriptive : bool) (i : nat) (c c' : Z),
       s !! i = Some c → balb s descriptive !! i = Some c' → c' ≠ c →
       c = jong_LB ∧ c' = jong_B ∧ (balb_site_ba s i ∨ balb_site_neo s i)).
Proof.
  split_and!.
  - intros. by apply balb_site_ba_eq.
  - intros. by apply balb_site_neo_eq.
  - intros. apply balb_length.
  - intros s d i c c'. apply balb_lookup.
Qed.

(** 밟다 gives 밥다, 넓죽 gives 넙죽, and in 밟 it is the coda that has
    changed. *)
Lemma balb_exceptions_witness :
  balb ([] ++ [cho_B; jung_A; jong_LB] ++ [cho_D; jung_A]) false
  = balb [] false ++ [cho_B; jung_A; jong_B] ++ balb [cho_D; jung_A] false
  ∧ balb ([] ++ [cho_N; jung_EO; jong_LB; cho_J; jung_U] ++ [jong_G]) false
    = balb [] false ++ [cho_N; jung_EO; jong_B; cho_J; jung_U]
      ++ balb [jong_G] false
  ∧ (jong_LB = jong_LB ∧ jong_B = jong_B
     ∧ (balb_site_ba [cho_B; jung_A; jong_LB] 2
        ∨ balb_site_neo [cho_B; jung_A; jong_LB] 2)).
Proof.
  split; [|split].
  - apply (proj1 balb_exceptions).
    + intros Hsuf. apply suffix_nil_inv in Hsuf. discriminate Hsuf.
    + intros c [= <-] Hin. elem_cases Hin.
    + intros [r Hr]. discriminate Hr.
  - apply (proj1 (proj2 balb_exceptions)).
    apply elem_of_cons. by left.
  - apply (proj2 (proj2 (proj2 balb_exceptions))
             [cho_B; jung_A; jong_LB] false 2%nat jong_LB jong_B).
    + reflexivity.
    + vm_compute. reflexivity.
    + discriminate.
Defined.

(** C8, as stated, fails: the coda of 밟 at the end of the subject becomes
    ᆸ (U+11B8), not ᆨ (U+11A8). *)
Lemma balb_exceptions_counterexample :
  ¬ (∀ (a : str) (descriptive : bool),
       balb (a ++ [cho_B; jung_A; jong_LB]) descriptive
       = balb a descriptive ++ [cho_B; jung_A; jong_G]).
Proof.
  intros H. specialize (H [] false). vm_compute in H. discriminate H.
Qed.

(** Without [descriptive] the replacement is one pass from the left, so
    //JJ leaves /J behind. *)
Example josa_ui_double_slash : josa_ui (u "//JJ") false = u "/J".
Proof. vm_compute. reflexivity. Qed.

(** With [descriptive], a 의 directly after a rewritten 의 is kept: 주의의
    gives 주이의. *)
Example vowel_ui_after_ui :
  vowel_ui [cho_J; jung_U; cho_IEUNG; jung_YI; cho_IEUNG; jung_YI] true
  = [cho_J; jung_U; cho_IEUNG; jung_I; cho_IEUNG; jung_YI].
Proof. vm_compute. reflexivity. Qed.

(** With [descriptive], 례 (with the leading consonant ᄅ, U+1105) is kept,
    while the compatibility letter ㄹ (U+3139) before ᅨ is rewritten. *)
Example ye_rieul :
  ye [cho_R; jung_YE] true = [cho_R; jung_YE]
  ∧ ye [hcj_RIEUL; jung_YE] true = [hcj_RIEUL; jung_E].
Proof. split; vm_compute; reflexivity. Qed.

(** A 바+ᆲ directly after a rewritten 바+ᆲ is kept: the match before it
    has taken its first character. *)
Example balb_twice :
  balb [cho_B; jung_A; jong_LB; cho_B; jung_A; jong_LB] false
  = [cho_B; jung_A; jong_B; cho_B; jung_A; jong_LB].
Proof. vm_compute. reflexivity. Qed.

(* ===================================================================== *)
(** * romanize.py: further properties of Syllable *)
(* ===================================================================== *)

(** X1. [Syllable(char, code)] succeeds exactly when one of the two
    arguments is given, [char] being a string of one character, and the
    code point lies in U+AC00..U+D7A3; the object then holds that code
    point. Every failure, also for an empty or longer [char], is a
    [TypeError]. *)
Theorem Syllable_init_Ret (char : option str) (cd : option Z) :
  (∀ s, Syllable_init char cd = Ret s
        ↔ ∃ c, (char = Some [c] ∧ cd = None ∨ char = None ∧ cd = Some c)
               ∧ 0xAC00 ≤ c ≤ 0xD7A3 ∧ s = {| code := c |})
  ∧ (∀ e, Syllable_init char cd = Raise e → e = TypeError).
Proof.
  split.
  - intros s. split.
    + destruct char as [[|c [|c' ch]]|], cd as [cd|]; try done.
      * rewrite Syllable_init_char.
        destruct (is_syllable c) eqn:Hc; [|done].
        intros [= <-]. exists c. apply is_syllable_true in Hc.
        split; [by left|]. by split.
      * rewrite Syllable_init_code.
        destruct (is_syllable cd) eqn:Hc; [|done].
        intros [= <-]. exists cd. apply is_syllable_true in Hc.
        split; [by right|]. by split.
    + intros (c & [[-> ->]|[-> ->]] & Hc & ->).
      * rewrite Syllable_init_char.
        by rewrite (proj2 (is_syllable_true c) Hc).
      * rewrite Syllable_init_code.
        by rewrite (proj2 (is_syllable_true c) Hc).
  - intros e. destruct char as [[|c [|c' ch]]|], cd as [cd|];
      try (by intros [= <-]).
    + rewrite Syllable_init_char. destruct (is_syllable c); [done|].
      by intros [= <-].
    + rewrite Syllable_init_code. destruct (is_syllable cd); [done|].
      by intros [= <-].
Qed.

Lemma Syllable_init_Ret_witness :
  (∃ c, (Some [0xAC01] = Some [c] ∧ (None : option Z) = None
         ∨ Some [0xAC01] = None ∧ None = Some c)
        ∧ 0xAC00 ≤ c ≤ 0xD7A3 ∧ {| code := 0xAC01 |} = {| code := c |})
  ∧ TypeError = TypeError.
Proof.
  split.
  - apply (proj1 (Syllable_init_Ret (Some [0xAC01]) None)). reflexivity.
  - apply (proj2 (Syllable_init_Ret (Some [0xAC01; 0xAC02]) None) TypeError).
    reflexivity.
Defined.

(** X2. Every triple of indices in [0,19) x [0,21) x [0,28) is the view of
    a code point of the block, namely of
    [0xAC00 + (initial*21 + vowel)*28 + final]; and two syllables with the
    same three indices are the same code point. *)
Theorem Syllable_triple (i v f : Z) :
  0 ≤ i < 19 → 0 ≤ v < 21 → 0 ≤ f < 28 →
  let cp := 0xAC00 + (i * 21 + v) * 28 + f in
  (∃ s, Syllable_init None (Some cp) = Ret s
        ∧ initial s = i ∧ vowel s = v ∧ final s = f)
  ∧ ∀ s', 0xAC00 ≤ code s' ≤ 0xD7A3 →
          initial s' = i → vowel s' = v → final s' = f → code s' = cp.
Proof.
  intros Hi Hv Hf cp. split.
  - assert (Hcp : 0xAC00 ≤ cp ≤ 0xD7A3) by (unfold cp; lia).
    exists {| code := cp |}. rewrite Syllable_init_code.
    rewrite (proj2 (is_syllable_true cp) Hcp).
    unfold initial, vowel, final, index, MIN. simpl code.
    replace (cp - 44032) with (f + (v + i * 21) * 28) by (unfold cp; lia).
    split_and!; [done| | |].
    + replace 588 with (28 * 21) by done. rewrite <- Z.div_div by lia.
      rewrite Z.div_add by lia. rewrite (Z.div_small f) by lia.
      rewrite Z.add_0_l, Z.div_add by lia. rewrite (Z.div_small v); lia.
    + rewrite Z.div_add by lia. rewrite (Z.div_small f) by lia.
      rewrite Z.add_0_l, Z.mod_add by lia. apply Z.mod_small. lia.
    + rewrite Z.mod_add by lia. apply Z.mod_small. lia.
  - intros s' Hs' <- <- <-. unfold cp. symmetry. by apply index_compose.
Qed.

Lemma Syllable_triple_witness :
  (∃ s, Syllable_init None (Some (0xAC00 + (18 * 21 + 20) * 28 + 27)) = Ret s
        ∧ initial s = 18 ∧ vowel s = 20 ∧ final s = 27)
  ∧ ∀ s', 0xAC00 ≤ code s' ≤ 0xD7A3 →
          initial s' = 18 → vowel s' = 20 → final s' = 27 →
          code s' = 0xAC00 + (18 * 21 + 20) * 28 + 27.
Proof. apply (Syllable_triple 18 20 27); lia. Defined.

(* ===================================================================== *)
(** * romanize.py: translit with any rule *)
(* ===================================================================== *)

Section windows.

Variable rule : rule_t.

(** The loop from a window whose current slot holds [c]. *)
Lemma translit_loop_windows (cs : str) :
  ∀ (res : list str) (prev : option Z) (c : Z),
    (w ← translit_loop rule
           {| result := res; pre := slot_of_prev prev; now := slot_of c |}
           (iter_str cs);
     out ← rule (now w) (Some (pre w)) (None, None);
     Ret (append_out (result w) out))
    = run_rule rule (windows prev (c :: cs)) res.
Proof.
  induction cs as [|c' cs IH]; intros res prev c.
  - cbn [iter_str fmap list_fmap translit_loop mbind py_bind now pre result
         windows run_rule slot_of_next].
    by destruct (rule _ _ _).
  - cbn [iter_str fmap list_fmap translit_loop].
    unfold translit_step. rewrite make_post_slot.
    cbn [mbind py_bind now pre result slot_of fst windows run_rule
         slot_of_next].
    change (Some [c], if is_syllable c then Some {| code := c |} else None)
      with (slot_of c).
    destruct (rule (slot_of c) (Some (slot_of_prev prev)) (slot_of c'))
      as [out|e]; [|done].
    cbn [mbind py_bind].
    specialize (IH (append_out res out) (Some c) c').
    cbn [slot_of_prev] in IH. unfold iter_str in IH. rewrite IH.
    reflexivity.
Qed.

Lemma windows_lookup (text : str) :
  ∀ prev i,
    windows prev text !! i
    = (λ c, (slot_of c,
             slot_of_prev (match i with O => prev | S _ => prev_char text i end),
             slot_of_prev (text !! S i))) <$> text !! i.
Proof.
  induction text as [|c text IH]; intros prev i; [done|].
  destruct i as [|i]; simpl.
  - by destruct text.
  - rewrite IH. destruct (text !! i) eqn:Hi; simpl; [|done].
    by destruct i.
Qed.

End windows.

(** X3. [translit] calls the rule once for each character, in order, with
    the slot of the character, the slot of the character before it (the
    empty slot at the start) and the slot of the character after it (the
    empty slot at the end); what the rule returns, unless [None], is
    appended to the result, and an exception of the rule ends the run. On
    the empty text the rule is called once, on empty slots. *)
Theorem translit_windows (rule : rule_t) (text : str) :
  translit_result rule text
  = match text with
    | [] => out ← rule (None, None) (Some (None, None)) (None, None);
            Ret (append_out [] out)
    | _ :: _ => run_rule rule (windows None text) []
    end
  ∧ length (windows None text) = length text
  ∧ ∀ i, windows None text !! i
         = (λ c, (slot_of c, slot_of_prev (prev_char text i),
                  slot_of_prev (text !! S i))) <$> text !! i.
Proof.
  split_and!.
  - unfold translit_result. destruct text as [|c cs]; [done|].
    cbn [iter_str fmap list_fmap translit_loop].
    unfold translit_step. rewrite make_post_slot.
    cbn [mbind py_bind now pre result fst].
    exact (translit_loop_windows rule cs [] None c).
  - generalize (None : option Z). induction text; intros; simpl; auto.
  - intros i. rewrite windows_lookup. by destruct i.
Qed.

(* ===================================================================== *)
(** * romanize.py: what the academic romanization is made of *)
(* ===================================================================== *)

Section academic_output.

#[local] Arguments ACADEMIC_AMBIGUOUS_PATTERNS : simpl never.
#[local] Arguments expected : simpl never.

Implicit Types (text a b : str) (prev : option Z).

Lemma roman_initial_elem c :
  is_syllable c = true → roman_initial c ∈ REVISED_INITIALS.
Proof.
  intros Hc%is_syllable_true.
  destruct (index_ranges {| code := c |} Hc) as (Hi & _ & _).
  apply list_elem_of_lookup_total_2.
  change (length REVISED_INITIALS) with 19%nat.
  unfold initial, index in Hi. simpl in Hi. lia.
Qed.

Lemma roman_vowel_elem c :
  is_syllable c = true → roman_vowel c ∈ REVISED_VOWELS.
Proof.
  intros Hc%is_syllable_true.
  destruct (index_ranges {| code := c |} Hc) as (_ & Hv & _).
  apply list_elem_of_lookup_total_2.
  change (length REVISED_VOWELS) with 21%nat.
  unfold vowel, index in Hv. simpl in Hv. lia.
Qed.

Lemma roman_final_elem c :
  is_syllable c = true → roman_final c ∈ REVISED_FINALS.
Proof.
  intros Hc%is_syllable_true.
  destruct (index_ranges {| code := c |} Hc) as (_ & _ & Hf).
  apply list_elem_of_lookup_total_2.
  change (length REVISED_FINALS) with 28%nat.
  unfold final, index in Hf. simpl in Hf. lia.
Qed.

(** The tables hold lower-case ASCII letters only. *)
Lemma tables_lower_case :
  Forall (Forall (λ c, 0x61 ≤ c ≤ 0x7A))
         (REVISED_INITIALS ++ REVISED_VOWELS ++ REVISED_FINALS).
Proof. apply (bool_decide_eq_true_1 _). vm_compute. reflexivity. Qed.

Lemma romanization_lower_case c :
  is_syllable c = true → Forall (λ c, 0x61 ≤ c ≤ 0x7A) (romanization c).
Proof.
  intros Hc. pose proof tables_lower_case as Ht.
  rewrite Forall_forall in Ht. unfold romanization.
  rewrite !Forall_app. split_and!; apply Ht; rewrite !elem_of_app.
  - left. by apply roman_initial_elem.
  - right; left. by apply roman_vowel_elem.
  - right; right. by apply roman_final_elem.
Qed.

(** A piece is the character itself, or a romanization after a possible
    marker. *)
Lemma expected_letters prev c :
  Forall (λ x, (x = c ∧ is_syllable c = false) ∨ x = 0x2D ∨ 0x61 ≤ x ≤ 0x7A)
         (expected prev c).
Proof.
  unfold expected. destruct (is_syllable c) eqn:Hc.
  - apply Forall_app. split.
    + destruct (match prev with Some p => _ | None => false end);
        [|constructor].
      change (u "-") with [0x2D].
      apply Forall_cons. split; [right; by left|constructor].
    + eapply Forall_impl; [by apply romanization_lower_case|].
      intros x Hx. by right; right.
  - apply Forall_cons. split; [by left|constructor].
Qed.

Lemma expected_all_letters text prev :
  Forall (λ x, (x ∈ text ∧ is_syllable x = false) ∨ x = 0x2D ∨ 0x61 ≤ x ≤ 0x7A)
         (concat (expected_all prev text)).
Proof.
  revert prev. induction text as [|c text IH]; intros prev; simpl.
  - constructor.
  - apply Forall_app. split.
    + eapply Forall_impl; [apply expected_letters|].
      intros x [[-> Hx]|Hx]; [left|by right]. split; [by left|done].
    + eapply Forall_impl; [apply IH|].
      intros x [[Hin Hx]|Hx]; [left|by right]. split; [by right|done].
Qed.

Lemma expected_other prev c : is_syllable c = false → expected prev c = [c].
Proof. intros Hc. unfold expected. by rewrite Hc. Qed.

(** Only the first piece of a text depends on the character before it,
    and only when both are syllables. *)
Lemma expected_no_prev prev c :
  (∀ p, prev = Some p → is_syllable p = false ∨ is_syllable c = false) →
  expected prev c = expected None c.
Proof.
  intros H. unfold expected. destruct (is_syllable c) eqn:Hc; [|done].
  destruct prev as [p|]; [|done].
  destruct (H p eq_refl) as [Hp|Hp]; [|done]. by rewrite Hp.
Qed.

Lemma expected_all_no_prev prev text :
  (∀ p c, prev = Some p → head text = Some c →
          is_syllable p = false ∨ is_syllable c = false) →
  expected_all prev text = expected_all None text.
Proof.
  intros H. destruct text as [|c text]; [done|]. simpl. f_equal.
  apply expected_no_prev. intros p ->. by apply H.
Qed.

Lemma expected_all_app prev a b :
  expected_all prev (a ++ b)
  = expected_all prev a
    ++ expected_all (match last a with Some p => Some p | None => prev end) b.
Proof.
  revert prev. induction a as [|c a IH]; intros prev; [done|].
  simpl. f_equal. rewrite IH. f_equal. f_equal.
  rewrite last_cons. by destruct (last a).
Qed.

End academic_output.

(** X4. A text without Hangul syllables is returned as it is. *)
Theorem translit_academic_other (text : str) :
  Forall (λ c, is_syllable c = false) text →
  translit academic text = Ret text.
Proof.
  intros Hall. rewrite translit_academic. f_equal.
  generalize (None : option Z). induction Hall as [|c text Hc Hall IH];
    intros prev; [done|].
  cbn [expected_all concat]. rewrite (expected_other prev c Hc), IH. done.
Qed.

(** "a-1 b" comes back unchanged. *)
Lemma translit_academic_other_witness :
  translit academic [0x61; 0x2D; 0x31; 0x20; 0x62]
  = Ret [0x61; 0x2D; 0x31; 0x20; 0x62].
Proof.
  apply translit_academic_other.
  repeat (constructor; [vm_compute; reflexivity|]). constructor.
Defined.

(** X5. The academic transliteration never raises, and each character of
    its output is a lower-case ASCII letter, the marker "-", or a
    character of the text that is no Hangul syllable: no syllable is left
    in the output. *)
Theorem translit_academic_letters (text : str) :
  ∃ out, translit academic text = Ret out
         ∧ Forall (λ x, (x ∈ text ∧ is_syllable x = false)
                        ∨ x = 0x2D ∨ 0x61 ≤ x ≤ 0x7A) out
         ∧ Forall (λ x, is_syllable x = false) out.
Proof.
  exists (concat (expected_all None text)). split_and!.
  - apply translit_academic.
  - apply expected_all_letters.
  - eapply Forall_impl; [apply expected_all_letters|].
    intros x [[_ Hx]|[->|Hx]]; [done|done|].
    apply is_syllable_false. lia.
Qed.

(** X6. Two texts that do not meet in two syllables are transliterated
    independently: the transliteration of [a ++ b] is that of [a] followed
    by that of [b] when the last character of [a] or the first of [b] is
    no Hangul syllable. *)
Theorem translit_academic_app (a b : str) :
  (∀ p c, last a = Some p → head b = Some c →
          is_syllable p = false ∨ is_syllable c = false) →
  ∃ ra rb, translit academic a = Ret ra ∧ translit academic b = Ret rb
           ∧ translit academic (a ++ b) = Ret (ra ++ rb).
Proof.
  intros H. exists (concat (expected_all None a)), (concat (expected_all None b)).
  rewrite !translit_academic. split_and!; [done|done|]. f_equal.
  rewrite expected_all_app, concat_app. f_equal. f_equal.
  apply expected_all_no_prev. intros p c Hp Hc.
  destruct (last a) as [p'|] eqn:Hl; [|done]. simplify_eq. by apply H.
Qed.

(** 물 and 엿 separated by a space: "mul" ++ " yeos". *)
Lemma translit_academic_app_witness :
  ∃ ra rb, translit academic [0xBB3C; 0x20] = Ret ra
           ∧ translit academic [0xC5FF] = Ret rb
           ∧ translit academic ([0xBB3C; 0x20] ++ [0xC5FF]) = Ret (ra ++ rb).
Proof.
  apply translit_academic_app. intros p c [= <-] _. left.
  vm_compute. reflexivity.
Defined.

(* ===================================================================== *)
(** * romanize.py: reading the academic romanization back *)
(* ===================================================================== *)

Section decode.

#[local] Arguments ACADEMIC_AMBIGUOUS_PATTERNS : simpl never.
#[local] Arguments expected : simpl never.
#[local] Arguments boundary : simpl never.

Implicit Types (x y : str) (c p : Z).

(** Two ways of cutting one string into a run of characters with [P] and
    a rest that does not start with such a character agree. *)
Lemma span_eq (P : Z → bool) x x' y y' :
  Forall (λ c, P c = true) x → Forall (λ c, P c = true) x' →
  (∀ c, head y = Some c → P c = false) →
  (∀ c, head y' = Some c → P c = false) →
  x ++ y = x' ++ y' → x = x' ∧ y = y'.
Proof.
  intros Hx. revert x'. induction Hx as [|c x Hc Hx IH]; intros x' Hx' Hy Hy' Heq.
  - destruct Hx' as [|c' x' Hc' Hx']; [done|]. simpl in Heq. subst y.
    rewrite (Hy c' eq_refl) in Hc'. done.
  - destruct Hx' as [|c' x' Hc' Hx'].
    + simpl in Heq. subst y'. rewrite (Hy' c eq_refl) in Hc. done.
    + injection Heq as -> Heq. destruct (IH x' Hx' Hy Hy' Heq) as [-> ->]. done.
Qed.

Lemma consonant_tables :
  Forall (Forall (λ c, negb (is_vowel_letter c) = true))
         (REVISED_INITIALS ++ REVISED_FINALS).
Proof. apply (bool_decide_eq_true_1 _). vm_compute. reflexivity. Qed.

Lemma vowel_table :
  Forall (λ v, v ≠ [] ∧ Forall (λ c, is_vowel_letter c = true) v)
         REVISED_VOWELS.
Proof. apply (bool_decide_eq_true_1 _). vm_compute. reflexivity. Qed.

Lemma tables_NoDup :
  NoDup REVISED_INITIALS ∧ NoDup REVISED_VOWELS ∧ NoDup REVISED_FINALS.
Proof.
  split_and!; apply (bool_decide_eq_true_1 _); vm_compute; reflexivity.
Qed.

Lemma roman_initial_consonants c :
  is_syllable c = true →
  Forall (λ c, negb (is_vowel_letter c) = true) (roman_initial c).
Proof.
  intros Hc. pose proof consonant_tables as Ht. rewrite Forall_forall in Ht.
  apply Ht, elem_of_app. left. by apply roman_initial_elem.
Qed.

Lemma roman_final_consonants c :
  is_syllable c = true →
  Forall (λ c, negb (is_vowel_letter c) = true) (roman_final c).
Proof.
  intros Hc. pose proof consonant_tables as Ht. rewrite Forall_forall in Ht.
  apply Ht, elem_of_app. right. by apply roman_final_elem.
Qed.

Lemma roman_vowel_vowels c :
  is_syllable c = true →
  roman_vowel c ≠ [] ∧ Forall (λ c, is_vowel_letter c = true) (roman_vowel c).
Proof.
  intros Hc. pose proof vowel_table as Ht. rewrite Forall_forall in Ht.
  by apply Ht, roman_vowel_elem.
Qed.

(** A romanization read from a table gives its index back. *)
Lemma lookup_total_inj (t : list str) (i j : Z) :
  NoDup t → 0 ≤ i < Z.of_nat (length t) → 0 ≤ j < Z.of_nat (length t) →
  t !!! Z.to_nat i = t !!! Z.to_nat j → i = j.
Proof.
  intros Hnd Hi Hj Heq.
  assert (Z.to_nat i = Z.to_nat j); [|lia].
  apply (NoDup_lookup t _ _ (t !!! Z.to_nat i) Hnd).
  - apply list_lookup_lookup_total_lt. lia.
  - rewrite Heq. apply list_lookup_lookup_total_lt. lia.
Qed.

Lemma roman_initial_inj c c' :
  is_syllable c = true → is_syllable c' = true →
  roman_initial c = roman_initial c' →
  initial {| code := c |} = initial {| code := c' |}.
Proof.
  intros Hc%is_syllable_true Hc'%is_syllable_true.
  destruct (index_ranges {| code := c |} Hc) as (Hi & _ & _).
  destruct (index_ranges {| code := c' |} Hc') as (Hi' & _ & _).
  apply lookup_total_inj; [apply tables_NoDup|done|done].
Qed.

Lemma roman_vowel_inj c c' :
  is_syllable c = true → is_syllable c' = true →
  roman_vowel c = roman_vowel c' →
  vowel {| code := c |} = vowel {| code := c' |}.
Proof.
  intros Hc%is_syllable_true Hc'%is_syllable_true.
  destruct (index_ranges {| code := c |} Hc) as (_ & Hv & _).
  destruct (index_ranges {| code := c' |} Hc') as (_ & Hv' & _).
  apply lookup_total_inj; [apply tables_NoDup|done|done].
Qed.

Lemma roman_final_inj c c' :
  is_syllable c = true → is_syllable c' = true →
  roman_final c = roman_final c' →
  final {| code := c |} = final {| code := c' |}.
Proof.
  intros Hc%is_syllable_true Hc'%is_syllable_true.
  destruct (index_ranges {| code := c |} Hc) as (_ & _ & Hf).
  destruct (index_ranges {| code := c' |} Hc') as (_ & _ & Hf').
  apply lookup_total_inj; [apply tables_NoDup|done|done].
Qed.

(** A syllable is its three indices. *)
Lemma syllable_indices_inj c c' :
  is_syllable c = true → is_syllable c' = true →
  initial {| code := c |} = initial {| code := c' |} →
  vowel {| code := c |} = vowel {| code := c' |} →
  final {| code := c |} = final {| code := c' |} →
  c = c'.
Proof.
  intros Hc%is_syllable_true Hc'%is_syllable_true Hi Hv Hf.
  pose proof (index_compose {| code := c |} Hc) as H1.
  pose proof (index_compose {| code := c' |} Hc') as H2.
  rewrite Hi, Hv, Hf in H1. simpl in H1, H2. congruence.
Qed.

(** ** The boundary between two syllables *)

Lemma boundary_boundary_at p c :
  is_syllable p = true → is_syllable c = true →
  boundary p c
  = boundary_at (Z.to_nat (final {| code := p |}))
                (Z.to_nat (initial {| code := c |})).
Proof.
  intros Hp%is_syllable_true Hc%is_syllable_true.
  destruct (index_ranges {| code := c |} Hc) as (Hi & _ & _).
  unfold boundary, boundary_at, marker_due. cbv zeta.
  change (REVISED_FINALS !!! Z.to_nat (final {| code := p |}))
    with (roman_final p).
  change (REVISED_INITIALS !!! Z.to_nat (initial {| code := c |}))
    with (roman_initial c).
  assert (Hb : bool_decide ((c - MIN) `div` 588 = 11)
               = bool_decide (Z.to_nat (initial {| code := c |}) = 11%nat)).
  { apply bool_decide_ext.
    change ((c - MIN) `div` 588) with (initial {| code := c |}). lia. }
  rewrite Hb. reflexivity.
Qed.

Lemma boundary_table_elem f i :
  (f < 28)%nat → (i < 19)%nat → (f, i, boundary_at f i) ∈ boundary_table.
Proof.
  intros Hf Hi. unfold boundary_table.
  apply list_elem_of_bind. exists f. split; [|apply elem_of_seq; lia].
  apply list_elem_of_bind. exists i. split; [|apply elem_of_seq; lia].
  by apply list_elem_of_singleton.
Qed.

(** No two pairs of a final and an initial give the same boundary. *)
Lemma boundary_table_inj :
  Forall (λ e : nat * nat * str,
            Forall (λ e' : nat * nat * str, e.2 = e'.2 → e.1 = e'.1)
                   boundary_table)
         boundary_table.
Proof. apply (bool_decide_eq_true_1 _). vm_compute. reflexivity. Qed.

Lemma boundary_inj p c p' c' :
  is_syllable p = true → is_syllable c = true →
  is_syllable p' = true → is_syllable c' = true →
  boundary p c = boundary p' c' →
  final {| code := p |} = final {| code := p' |}
  ∧ initial {| code := c |} = initial {| code := c' |}.
Proof.
  intros Hp Hc Hp' Hc' Heq.
  rewrite !boundary_boundary_at in Heq by done.
  apply is_syllable_true in Hp, Hc, Hp', Hc'.
  destruct (index_ranges {| code := p |} Hp) as (_ & _ & Hf).
  destruct (index_ranges {| code := c |} Hc) as (Hi & _ & _).
  destruct (index_ranges {| code := p' |} Hp') as (_ & _ & Hf').
  destruct (index_ranges {| code := c' |} Hc') as (Hi' & _ & _).
  pose proof boundary_table_inj as Ht. rewrite Forall_forall in Ht.
  set (f := Z.to_nat (final {| code := p |})) in *.
  set (i := Z.to_nat (initial {| code := c |})) in *.
  set (f' := Z.to_nat (final {| code := p' |})) in *.
  set (i' := Z.to_nat (initial {| code := c' |})) in *.
  specialize (Ht (f, i, boundary_at f i)
                 (boundary_table_elem f i ltac:(lia) ltac:(lia))).
  rewrite Forall_forall in Ht.
  specialize (Ht (f', i', boundary_at f' i')
                 (boundary_table_elem f' i' ltac:(lia) ltac:(lia)) Heq).
  simpl in Ht. injection Ht as Hff Hii. lia.
Qed.

Lemma boundary_consonants p c :
  is_syllable p = true → is_syllable c = true →
  boundary p c ≠ []
  ∧ Forall (λ c, negb (is_vowel_letter c) = true) (boundary p c).
Proof.
  intros Hp Hc. unfold boundary, marker_due. split.
  - destruct (bool_decide ((c - MIN) `div` 588 = 11)) eqn:H11.
    + simpl. intros H. apply app_eq_nil in H as [_ H]. done.
    + apply bool_decide_eq_false in H11. intros H.
      apply app_eq_nil in H as [_ H]. apply app_eq_nil in H as [_ H].
      apply H11.
      assert (Hn : roman_initial c = REVISED_INITIALS !!! 11%nat) by done.
      apply is_syllable_true in Hc.
      destruct (index_ranges {| code := c |} Hc) as (Hi & _ & _).
      change ((c - MIN) `div` 588) with (initial {| code := c |}).
      apply (lookup_total_inj REVISED_INITIALS _ 11);
        [apply tables_NoDup|done|done|done].
  - rewrite !Forall_app. split_and!.
    + by apply roman_final_consonants.
    + destruct (_ || _); [|constructor].
      change (u "-") with [0x2D]. apply Forall_cons. by split; [|constructor].
    + by apply roman_initial_consonants.
Qed.

End decode.

Section injective.

#[local] Arguments ACADEMIC_AMBIGUOUS_PATTERNS : simpl never.
#[local] Arguments expected : simpl never.
#[local] Arguments boundary : simpl never.

Implicit Types (c p : Z) (rest : str).

Lemma romanized_from_nil c :
  romanized_from c [] = roman_vowel c ++ roman_final c.
Proof. reflexivity. Qed.

Lemma romanized_from_cons c c' rest :
  romanized_from c (c' :: rest)
  = roman_vowel c ++ boundary c c' ++ romanized_from c' rest.
Proof. reflexivity. Qed.

(** The output for a run of syllables: a possible marker, the initial of
    the first syllable, and the rest from its vowel on. *)
Lemma concat_expected_syllables rest :
  ∀ c prev,
    Forall (λ c, is_syllable c = true) (c :: rest) →
    concat (expected_all prev (c :: rest))
    = (if match prev with
          | Some p => is_syllable p && marker_due p c
          | None => false
          end
       then u "-" else [])
      ++ roman_initial c ++ romanized_from c rest.
Proof.
  induction rest as [|c' rest IH]; intros c prev Hall.
  - apply Forall_cons in Hall as [Hc _].
    cbn [expected_all concat]. rewrite romanized_from_nil.
    unfold expected, romanization.
    rewrite Hc, app_nil_r. by rewrite <- ?app_assoc.
  - pose proof Hall as Hall'. apply Forall_cons in Hall' as [Hc Hrest].
    change (concat (expected_all prev (c :: c' :: rest)))
      with (expected prev c ++ concat (expected_all (Some c) (c' :: rest))).
    rewrite (IH c' (Some c) Hrest), romanized_from_cons.
    unfold expected, romanization, boundary. rewrite Hc.
    cbn [andb]. by rewrite <- ?app_assoc.
Qed.

Lemma romanized_from_head c rest :
  Forall (λ c, is_syllable c = true) (c :: rest) →
  ∃ x s, romanized_from c rest = x :: s ∧ is_vowel_letter x = true.
Proof.
  intros [Hc _]%Forall_cons.
  destruct (roman_vowel_vowels c Hc) as [Hne Hv].
  destruct rest; rewrite ?romanized_from_nil, ?romanized_from_cons;
    destruct (roman_vowel c) as [|x v]; try done;
    apply Forall_cons in Hv as [Hx _]; by eexists _, _.
Qed.

(** What follows the vowel of a syllable is empty or starts with a
    consonant letter or the marker. *)
Lemma after_vowel_head c rest y :
  Forall (λ c, is_syllable c = true) (c :: rest) →
  head (match rest with
        | [] => roman_final c
        | c' :: rest' => boundary c c' ++ romanized_from c' rest'
        end) = Some y →
  is_vowel_letter y = false.
Proof.
  intros [Hc Hrest]%Forall_cons Hy. apply negb_true_iff.
  destruct rest as [|c' rest].
  - pose proof (roman_final_consonants c Hc) as Hf.
    destruct (roman_final c); simplify_eq/=. by apply Forall_cons in Hf as [? _].
  - apply Forall_cons in Hrest as [Hc' _].
    destruct (boundary_consonants c c' Hc Hc') as [Hne Hb].
    destruct (boundary c c'); [done|]. simplify_eq/=.
    by apply Forall_cons in Hb as [? _].
Qed.

(** The rest of a run of syllables is read back from its romanization,
    once the initial of the first syllable is known. *)
Lemma romanized_from_inj rest :
  ∀ c c' rest',
    Forall (λ c, is_syllable c = true) (c :: rest) →
    Forall (λ c, is_syllable c = true) (c' :: rest') →
    initial {| code := c |} = initial {| code := c' |} →
    romanized_from c rest = romanized_from c' rest' →
    c = c' ∧ rest = rest'.
Proof.
  induction rest as [|d rest IH]; intros c c' rest' Hall Hall' Hi Heq.
  - pose proof Hall as [Hc _]%Forall_cons.
    pose proof Hall' as [Hc' Hrest']%Forall_cons.
    destruct rest' as [|d' rest'];
      rewrite ?romanized_from_nil, ?romanized_from_cons in Heq.
    + apply (span_eq is_vowel_letter) in Heq as [Hv Hf];
        [|by apply roman_vowel_vowels|by apply roman_vowel_vowels
         |intros y; apply (after_vowel_head c [] y Hall)
         |intros y; apply (after_vowel_head c' [] y Hall')].
      split; [|done]. apply syllable_indices_inj; try done.
      * by apply roman_vowel_inj.
      * by apply roman_final_inj.
    + exfalso.
      apply (span_eq is_vowel_letter) in Heq as [Hv Hf];
        [|by apply roman_vowel_vowels|by apply roman_vowel_vowels
         |intros y; apply (after_vowel_head c [] y Hall)
         |intros y; apply (after_vowel_head c' (d' :: rest') y Hall')].
      pose proof (roman_final_consonants c Hc) as Hcons.
      rewrite Hf in Hcons. apply Forall_app in Hcons as [_ Hcons].
      destruct (romanized_from_head d' rest' Hrest') as (x & s & Hs & Hx).
      rewrite Hs in Hcons. apply Forall_cons in Hcons as [Hx' _].
      by rewrite Hx in Hx'.
  - pose proof Hall as [Hc Hrest]%Forall_cons.
    pose proof Hall' as [Hc' Hrest']%Forall_cons.
    pose proof Hrest as [Hd _]%Forall_cons.
    destruct rest' as [|d' rest'];
      rewrite ?romanized_from_nil, ?romanized_from_cons in Heq.
    + exfalso.
      apply (span_eq is_vowel_letter) in Heq as [Hv Hf];
        [|by apply roman_vowel_vowels|by apply roman_vowel_vowels
         |intros y; apply (after_vowel_head c (d :: rest) y Hall)
         |intros y; apply (after_vowel_head c' [] y Hall')].
      pose proof (roman_final_consonants c' Hc') as Hcons.
      rewrite <- Hf in Hcons. apply Forall_app in Hcons as [_ Hcons].
      destruct (romanized_from_head d rest Hrest) as (x & s & Hs & Hx).
      rewrite Hs in Hcons. apply Forall_cons in Hcons as [Hx' _].
      by rewrite Hx in Hx'.
    + pose proof Hrest' as [Hd' _]%Forall_cons.
      apply (span_eq is_vowel_letter) in Heq as [Hv Hf];
        [|by apply roman_vowel_vowels|by apply roman_vowel_vowels
         |intros y; apply (after_vowel_head c (d :: rest) y Hall)
         |intros y; apply (after_vowel_head c' (d' :: rest') y Hall')].
      apply (span_eq (λ x, negb (is_vowel_letter x))) in Hf as [Hb Hr];
        [|by apply boundary_consonants|by apply boundary_consonants| |].
      * apply boundary_inj in Hb as [Hfin Hini]; [|done..].
        destruct (IH d d' rest' Hrest Hrest' Hini Hr) as [-> ->].
        split; [|done]. apply syllable_indices_inj; try done.
        by apply roman_vowel_inj.
      * intros y Hy.
        destruct (romanized_from_head d rest Hrest) as (x & s & Hs & Hx).
        rewrite Hs in Hy. simplify_eq/=. by rewrite Hx.
      * intros y Hy.
        destruct (romanized_from_head d' rest' Hrest') as (x & s & Hs & Hx).
        rewrite Hs in Hy. simplify_eq/=. by rewrite Hx.
Qed.

End injective.

(** X7. The romanized boundary between two syllables (the final of the
    first, the marker if one is due, the initial of the second) determines
    the final and the initial: no two of the 28 x 19 pairs give the same
    boundary. *)
Theorem boundary_unambiguous (p c p' c' : Z) :
  is_syllable p = true → is_syllable c = true →
  is_syllable p' = true → is_syllable c' = true →
  boundary p c = boundary p' c' →
  final {| code := p |} = final {| code := p' |}
  ∧ initial {| code := c |} = initial {| code := c' |}.
Proof. apply boundary_inj. Qed.

(** 안가 and 난각 have the same boundary, n-g: the finals and the initials
    agree. *)
Lemma boundary_unambiguous_witness :
  final {| code := 0xC548 |} = final {| code := 0xB09C |}
  ∧ initial {| code := 0xAC00 |} = initial {| code := 0xAC01 |}.
Proof.
  apply (boundary_unambiguous 0xC548 0xAC00 0xB09C 0xAC01);
    vm_compute; reflexivity.
Defined.

(** X8. On texts made of Hangul syllables the academic transliteration
    loses nothing: two such texts with the same romanization are the same
    text. *)
Theorem translit_academic_injective (t1 t2 : str) :
  Forall (λ c, is_syllable c = true) t1 →
  Forall (λ c, is_syllable c = true) t2 →
  translit academic t1 = translit academic t2 →
  t1 = t2.
Proof.
  intros H1 H2. rewrite !translit_academic. intros [= Heq].
  destruct t1 as [|c1 t1], t2 as [|c2 t2]; [done| | |].
  - exfalso. rewrite (concat_expected_syllables t2 c2 None H2) in Heq.
    destruct (romanized_from_head c2 t2 H2) as (x & s & Hs & _).
    rewrite Hs in Heq. simpl in Heq. symmetry in Heq.
    apply app_eq_nil in Heq as [_ Heq]. done.
  - exfalso. rewrite (concat_expected_syllables t1 c1 None H1) in Heq.
    destruct (romanized_from_head c1 t1 H1) as (x & s & Hs & _).
    rewrite Hs in Heq. simpl in Heq.
    apply app_eq_nil in Heq as [_ Heq]. done.
  - rewrite (concat_expected_syllables t1 c1 None H1) in Heq.
    rewrite (concat_expected_syllables t2 c2 None H2) in Heq.
    simpl in Heq.
    pose proof H1 as [Hc1 _]%Forall_cons. pose proof H2 as [Hc2 _]%Forall_cons.
    apply (span_eq (λ x, negb (is_vowel_letter x))) in Heq as [Hi Hr].
    + apply roman_initial_inj in Hi; [|done..].
      destruct (romanized_from_inj t1 c1 c2 t2 H1 H2 Hi Hr) as [-> ->]. done.
    + by apply roman_initial_consonants.
    + by apply roman_initial_consonants.
    + intros y Hy.
      destruct (romanized_from_head c1 t1 H1) as (x & s & Hs & Hx).
      rewrite Hs in Hy. simplify_eq/=. by rewrite Hx.
    + intros y Hy.
      destruct (romanized_from_head c2 t2 H2) as (x & s & Hs & Hx).
      rewrite Hs in Hy. simplify_eq/=. by rewrite Hx.
Qed.

(** 한글 is read back from "hangeul". *)
Lemma translit_academic_injective_witness :
  [0xD55C; 0xAE00] = [0xD55C; 0xAE00].
Proof.
  apply translit_academic_injective.
  - repeat (constructor; [vm_compute; reflexivity|]). constructor.
  - repeat (constructor; [vm_compute; reflexivity|]). constructor.
  - reflexivity.
Defined.

(* ===================================================================== *)
(** * g2p/special.py: rules of one class and one letter *)
(* ===================================================================== *)

Section two_classes.

(** A pattern [[class]letter] whose template keeps group 1 and puts the
    letter [y'] for [y]; neither letter is in the class. *)
Variables (cl : cls) (y y' : Z).

#[local] Abbreviation m2 :=
  (pattern [cl; lit y] (λ m, group 0 1 m ++ [y'])).

Hypothesis cl_y : cl y = false.
Hypothesis cl_y' : cl y' = false.
Hypothesis y_y' : y' ≠ y.

Implicit Types (s t a b : str) (c : Z).

Lemma two_Some s out n :
  m2 s = Some (out, n) →
  ∃ c rest, s = c :: y :: rest ∧ cl c = true ∧ out = [c; y'] ∧ n = 2%nat.
Proof.
  intros (mt & rest & -> & Hall & -> & ->)%pattern_Some.
  inversion Hall as [|? c ? ? Hc Hall1]; subst.
  inversion Hall1 as [|? z ? ? Hz Hall2]; subst.
  inversion Hall2; subst. apply lit_true in Hz. subst.
  by exists c, rest.
Qed.

Lemma two_match c rest :
  cl c = true → m2 (c :: y :: rest) = Some ([c; y'], 2%nat).
Proof.
  intros Hc. unfold pattern. simpl. rewrite Hc.
  by rewrite (proj2 (lit_true y y) eq_refl).
Qed.

Lemma two_site a c b :
  cl c = true →
  re_sub m2 (a ++ [c; y] ++ b) = re_sub m2 a ++ [c; y'] ++ re_sub m2 b.
Proof.
  intros Hc. apply re_sub_site_out; [|  |done].
  - simpl. rewrite Hc. by rewrite (proj2 (lit_true y y) eq_refl).
  - unfold barrier. simpl. rewrite andb_true_r. apply negb_true_iff.
    apply lit_false. intros ->. congruence.
Qed.

Lemma two_free s :
  (∀ c, cl c = true → ¬ occurs [c; y] s) → re_sub m2 s = s.
Proof.
  intros Hfree. apply re_sub_id. intros t [pre ->].
  destruct (m2 t) as [[out n]|] eqn:Hm; [|done]. exfalso.
  apply two_Some in Hm as (c & rest & -> & Hc & _).
  apply (Hfree c Hc). by exists pre, rest.
Qed.

Lemma two_head s c :
  head (re_sub m2 s) = Some c → head s = Some c.
Proof.
  destruct s as [|c0 s]; [done|]. rewrite re_sub_cons.
  destruct (m2 (c0 :: s)) as [[out n]|] eqn:Hm; [|done].
  apply two_Some in Hm as (c1 & rest & [= -> ->] & _ & -> & _). done.
Qed.

(** The pattern matches nowhere in the output. *)
Lemma two_clean s t : t `suffix_of` re_sub m2 s → m2 t = None.
Proof.
  remember (length s) as k eqn:Hk. revert s t Hk.
  induction k as [k IH] using lt_wf_ind. intros s t -> Hsuf.
  destruct s as [|c s].
  - apply suffix_nil_inv in Hsuf as ->. done.
  - rewrite re_sub_cons in Hsuf.
    destruct (m2 (c :: s)) as [[out n]|] eqn:Hm.
    + apply two_Some in Hm as (c1 & rest & [= -> ->] & Hc & -> & ->).
      simpl in Hsuf. destruct t as [|t0 t]; [done|].
      apply suffix_cons_inv in Hsuf as [[= -> ->]|Hsuf].
      { destruct (m2 (c1 :: y' :: re_sub m2 rest)) as [[out n]|] eqn:Hm';
          [|done].
        apply two_Some in Hm' as (? & ? & [= _ Hy _] & _). congruence. }
      apply suffix_cons_inv in Hsuf as [[= -> ->]|Hsuf].
      { destruct (m2 (y' :: re_sub m2 rest)) as [[out n]|] eqn:Hm'; [|done].
        apply two_Some in Hm' as (? & ? & [= <- _] & Hy & _). congruence. }
      apply (IH (length rest)) with rest; [simpl; lia|done|done].
    + destruct t as [|t0 t]; [done|].
      apply suffix_cons_inv in Hsuf as [[= -> ->]|Hsuf].
      * destruct (m2 (c :: re_sub m2 s)) as [[out n]|] eqn:Hm'; [|done].
        apply two_Some in Hm' as (c1 & rest & [= <- Hs] & Hc & _).
        assert (Hh : head s = Some y) by (apply two_head; by rewrite Hs).
        destruct s as [|s0 s]; simplify_eq/=.
        by rewrite two_match in Hm.
      * apply (IH (length s)) with s; [simpl; lia|done|done].
Qed.

Lemma two_idempotent s : re_sub m2 (re_sub m2 s) = re_sub m2 s.
Proof. apply re_sub_id. intros t. apply two_clean. Qed.

Lemma two_length_preserving : length_preserving m2.
Proof.
  intros s out n (c & rest & -> & _ & -> & ->)%two_Some. simpl. lia.
Qed.

Lemma two_length s : length (re_sub m2 s) = length s.
Proof. apply re_sub_length, two_length_preserving. Qed.

(** Character by character: only a [y] that follows the class changes. *)
Lemma two_lookup s i :
  re_sub m2 s !! i = after_class cl y y' s i <$> s !! i.
Proof.
  remember (length s) as k eqn:Hk. revert s i Hk.
  induction k as [k IH] using lt_wf_ind. intros s i ->.
  destruct s as [|c s]; [done|]. rewrite re_sub_cons.
  destruct (m2 (c :: s)) as [[out n]|] eqn:Hm.
  - apply two_Some in Hm as (c1 & rest & [= -> ->] & Hc & -> & ->).
    simpl. destruct i as [|[|i]]; simpl.
    + unfold after_class. simpl. by rewrite andb_false_r.
    + unfold after_class. simpl. rewrite Hc.
      by rewrite bool_decide_eq_true_2.
    + rewrite (IH (length rest)) with (s := rest); [|simpl; lia|done].
      destruct (rest !! i) as [c|] eqn:Hi; [|done]. simpl. f_equal.
      unfold after_class. destruct i as [|i]; simpl.
      * by rewrite cl_y, !andb_false_r.
      * done.
  - destruct i as [|i]; simpl.
    + unfold after_class. simpl. by rewrite andb_false_r.
    + rewrite (IH (length s)) with (s := s); [|simpl; lia|done].
      destruct (s !! i) as [c0|] eqn:Hi; [|done]. simpl. f_equal.
      unfold after_class. destruct i as [|i]; simpl; [|done].
      rewrite andb_false_r.
      destruct (bool_decide (c0 = y)) eqn:Hy; [|done].
      apply bool_decide_eq_true_1 in Hy as ->.
      destruct (cl c) eqn:Hc; [|done].
      destruct s as [|? s]; simplify_eq/=.
      by rewrite two_match in Hm.
Qed.

End two_classes.

(** X9. [jyeo] changes exactly the vowels ᅧ that stand right after ᄌ, ᄍ or
    ᄎ, into ᅥ: every other character stays where it is, whatever the flag
    says, and a second application changes nothing more. *)
Theorem jyeo_characters :
  (∀ (inp : str) (descriptive : bool) (i : nat),
     jyeo inp descriptive !! i
     = after_class (oneof [cho_J; cho_JJ; cho_C]) jung_YEO jung_EO inp i
         <$> inp !! i)
  ∧ (∀ (inp : str) (d d' : bool), jyeo (jyeo inp d) d' = jyeo inp d).
Proof.
  split.
  - intros inp d i. unfold jyeo. by apply two_lookup.
  - intros inp d d'. unfold jyeo. by apply two_idempotent.
Qed.

(** X10. [consonant_ui] changes exactly the vowels ᅴ that stand right after
    a leading consonant other than ᄋ, into ᅵ: every other character stays
    where it is, and a second application changes nothing more. *)
Theorem consonant_ui_characters :
  (∀ (inp : str) (descriptive : bool) (i : nat),
     consonant_ui inp descriptive !! i
     = after_class (λ c, bool_decide (is_lead_consonant c ∧ c ≠ cho_IEUNG))
                   jung_YI jung_I inp i
         <$> inp !! i)
  ∧ (∀ (inp : str) (d d' : bool),
       consonant_ui (consonant_ui inp d) d' = consonant_ui inp d).
Proof.
  split.
  - intros inp d i. unfold consonant_ui. rewrite two_lookup by done.
    destruct (inp !! i) as [c|]; [|done]. simpl. f_equal.
    unfold after_class.
    destruct (prev_char inp i) as [p|]; [|done]. simpl.
    unfold oneof, is_lead_consonant.
    rewrite (bool_decide_ext (p ∈ consonant_ui_class)
               (cho_G ≤ p ≤ cho_H ∧ p ≠ cho_IEUNG)); [done|].
    split.
    + intros Hp. unfold consonant_ui_class in Hp. elem_cases Hp; lia.
    + intros [[Hlo Hhi] Hne].
      assert (Hp : p ∈ (Z.add cho_G ∘ Z.of_nat) <$> seq 0 19).
      { apply list_elem_of_fmap. exists (Z.to_nat (p - cho_G)). split.
        - simpl. lia.
        - apply elem_of_seq. lia. }
      vm_compute in Hp. unfold consonant_ui_class.
      elem_cases Hp; try elem_decide. done.
  - intros inp d d'. unfold consonant_ui. by apply two_idempotent.
Qed.

(** X11. With the flag, [ye] changes exactly the vowels ᅨ that stand right
    after a character of its class, into ᅦ, and leaves every other
    character where it is; without the flag it changes nothing.  A second
    application changes nothing more. *)
Theorem ye_characters :
  (∀ (inp : str) (descriptive : bool) (i : nat),
     ye inp descriptive !! i
     = (if descriptive
        then after_class (oneof ye_class) jung_YE jung_E inp i
        else id) <$> inp !! i)
  ∧ (∀ (inp : str) (d : bool), ye (ye inp d) d = ye inp d).
Proof.
  split.
  - intros inp [] i; unfold ye.
    + by apply two_lookup.
    + by destruct (inp !! i).
  - intros inp []; unfold ye; [|done]. by apply two_idempotent.
Qed.

(* ===================================================================== *)
(** * g2p/special.py: rieulgiyeok, verb_nieun and palatalize *)
(* ===================================================================== *)

Section tensification.

Implicit Types (s a b : str) (d : bool).

(** A pattern that occurs nowhere changes nothing. *)
Lemma pattern_free p repl s :
  (∀ mt, Forall2 (λ (cl : cls) c, cl c = true) p mt → ¬ occurs mt s) →
  re_sub (pattern p repl) s = s.
Proof.
  intros Hfree. apply re_sub_id. intros t Hsuf.
  destruct (pattern p repl t) as [[out n]|] eqn:Hm; [|done]. exfalso.
  destruct (pattern_occurs _ _ _ _ _ _ Hsuf Hm) as (mt & Hall & Hocc).
  by apply (Hfree mt).
Qed.

Lemma sub_pairs_free pairs s :
  (∀ pr mt, pr ∈ pairs → Forall2 (λ (cl : cls) c, cl c = true) pr.1 mt →
            ¬ occurs mt s) →
  sub_pairs pairs s = s.
Proof.
  unfold sub_pairs. induction pairs as [|[p repl] pairs IH]; intros Hfree.
  - done.
  - simpl. rewrite pattern_free.
    + apply IH. intros pr mt Hin. apply Hfree. by apply elem_of_cons; right.
    + intros mt. apply (Hfree (p, repl)). by apply elem_of_cons; left.
Qed.

Lemma rieulgiyeok_site a g b d :
  g ∈ [cho_G; cho_GG] →
  rieulgiyeok (a ++ [jong_LG; slash; tag_P; g] ++ b) d
  = rieulgiyeok a d ++ [jong_L; cho_GG] ++ rieulgiyeok b d.
Proof.
  intros Hg. unfold rieulgiyeok. elem_cases Hg; pass_site; reflexivity.
Qed.

Lemma rieulgiyeok_free s d :
  (∀ g, g ∈ [cho_G; cho_GG] → ¬ occurs [jong_LG; slash; tag_P; g] s) →
  rieulgiyeok s d = s.
Proof.
  intros Hfree. unfold rieulgiyeok. apply pattern_free. intros mt Hall.
  repeat match goal with
         | H' : Forall2 _ (_ :: _) _ |- _ => inversion H'; clear H'; subst
         | H' : Forall2 _ [] _ |- _ => inversion H'; clear H'; subst
         end.
  repeat match goal with
         | H' : lit _ _ = true |- _ => apply lit_true in H'
         | H' : oneof _ _ = true |- _ => apply oneof_true in H'
         end.
  subst. by apply Hfree.
Qed.

Lemma stem_coda_Some coda k :
  stem_coda coda = Some k →
  (coda = jong_N ∧ k = jong_N) ∨ (coda = jong_M ∧ k = jong_M)
  ∨ (coda = jong_NJ ∧ k = jong_N) ∨ (coda = jong_LM ∧ k = jong_M).
Proof.
  unfold stem_coda. repeat case_bool_decide; intros; simplify_eq.
  - match goal with H : _ ∈ _ |- _ => elem_cases H end; auto.
  - auto.
  - auto.
Qed.

Lemma verb_nieun_site a coda onset k q b d :
  stem_coda coda = Some k → tensed onset = Some q →
  verb_nieun (a ++ [coda; slash; tag_P; onset] ++ b) d
  = verb_nieun a d ++ [k; q] ++ verb_nieun b d.
Proof.
  intros Hk Hq. unfold verb_nieun, sub_pairs, verb_nieun_pairs.
  cbn [foldl].
  apply stem_coda_Some in Hk as [[-> ->]|[[-> ->]|[[-> ->]|[-> ->]]]];
    apply tensed_Some in Hq as [[-> ->]|[[-> ->]|[[-> ->]|[-> ->]]]];
    do 12 pass_site; reflexivity.
Qed.

Lemma verb_nieun_free s d :
  (∀ coda onset, is_Some (stem_coda coda) → is_Some (tensed onset) →
                 ¬ occurs [coda; slash; tag_P; onset] s) →
  verb_nieun s d = s.
Proof.
  intros Hfree. unfold verb_nieun. apply sub_pairs_free.
  intros pr mt Hin Hall. unfold verb_nieun_pairs in Hin.
  elem_cases Hin; simpl in Hall;
    repeat match goal with
           | H' : Forall2 _ (_ :: _) _ |- _ => inversion H'; clear H'; subst
           | H' : Forall2 _ [] _ |- _ => inversion H'; clear H'; subst
           end;
    repeat match goal with
           | H' : lit _ _ = true |- _ => apply lit_true in H'
           | H' : oneof _ _ = true |- _ => apply oneof_true in H'
           end;
    subst;
    try match goal with H : _ ∈ [jong_N; jong_M] |- _ => elem_cases H end;
    apply Hfree; vm_compute; by eexists.
Qed.

Lemma palatalized_Some coda onset v out :
  palatalized coda onset v = Some out →
  (onset = cho_IEUNG ∧ v ∈ [jung_I; jung_YEO]
   ∧ ((coda = jong_D ∧ out = [cho_J; v]) ∨ (coda = jong_T ∧ out = [cho_C; v])
      ∨ (coda = jong_LT ∧ out = [jong_L; cho_C; v])))
  ∨ (coda = jong_D ∧ onset = cho_H ∧ v = jung_I ∧ out = [cho_C; jung_I]).
Proof.
  unfold palatalized. repeat case_bool_decide; intros; simplify_eq;
    repeat match goal with H : _ ∧ _ |- _ => destruct H end; subst;
    try (left; by auto 10); right; by auto.
Qed.

Lemma palatalize_site a coda onset v out b d :
  palatalized coda onset v = Some out →
  palatalize (a ++ [coda; onset; v] ++ b) d
  = palatalize a d ++ out ++ palatalize b d.
Proof.
  intros Hout. unfold palatalize.
  apply palatalized_Some in Hout
    as [(-> & Hv & [[-> ->]|[[-> ->]|[-> ->]]])|(-> & -> & -> & ->)];
    try elem_cases Hv; do 4 pass_site; reflexivity.
Qed.

Lemma palatalize_free s d :
  (∀ coda onset v, is_Some (palatalized coda onset v) →
                   ¬ occurs [coda; onset; v] s) →
  palatalize s d = s.
Proof.
  intros Hfree. unfold palatalize.
  do 4 (rewrite (pattern_free _ _ s);
        [|intros mt Hall;
          repeat match goal with
                 | H' : Forall2 _ (_ :: _) _ |- _ =>
                     inversion H'; clear H'; subst
                 | H' : Forall2 _ [] _ |- _ => inversion H'; clear H'; subst
                 end;
          repeat match goal with
                 | H' : lit _ _ = true |- _ => apply lit_true in H'
                 | H' : oneof _ _ = true |- _ => apply oneof_true in H'
                 end;
          subst;
          match goal with H : _ ∈ _ |- _ => elem_cases H end;
          apply Hfree; vm_compute; by eexists]).
  done.
Qed.

End tensification.

(** X12. In any subject, the coda ᆰ followed by the tag /P and ᄀ or ᄁ is
    replaced by ᆯᄁ, and what stands before and after it is rewritten on its
    own; a subject without such an occurrence is returned unchanged. *)
Theorem rieulgiyeok_tensification :
  (∀ (a b : str) (g : Z) (descriptive : bool),
     g ∈ [cho_G; cho_GG] →
     rieulgiyeok (a ++ [jong_LG; slash; tag_P; g] ++ b) descriptive
     = rieulgiyeok a descriptive ++ [jong_L; cho_GG]
       ++ rieulgiyeok b descriptive)
  ∧ (∀ (s : str) (descriptive : bool),
       (∀ g, g ∈ [cho_G; cho_GG] → ¬ occurs [jong_LG; slash; tag_P; g] s) →
       rieulgiyeok s descriptive = s).
Proof.
  split.
  - intros. by apply rieulgiyeok_site.
  - intros. by apply rieulgiyeok_free.
Qed.

(** 읽/P고 gives 일꼬, and 가 stays. *)
Lemma rieulgiyeok_tensification_witness :
  rieulgiyeok ([cho_IEUNG; jung_I] ++ [jong_LG; slash; tag_P; cho_G]
               ++ [jung_O]) false
  = rieulgiyeok [cho_IEUNG; jung_I] false ++ [jong_L; cho_GG]
    ++ rieulgiyeok [jung_O] false
  ∧ rieulgiyeok [cho_G; jung_A] false = [cho_G; jung_A].
Proof.
  split.
  - apply (proj1 rieulgiyeok_tensification). apply elem_of_cons. by left.
  - apply (proj2 rieulgiyeok_tensification).
    intros g _ (a & b & Hab).
    apply (f_equal length) in Hab. rewrite !length_app in Hab.
    simpl in Hab. lia.
Defined.

(** X13. In any subject, a coda ᆫ, ᆷ, ᆬ or ᆱ followed by the tag /P and one
    of the onsets ᄀ ᄃ ᄉ ᄌ is replaced by the coda ᆫ, ᆷ, ᆫ or ᆷ
    respectively, followed by ᄁ ᄄ ᄊ ᄍ, the tag being dropped, and what
    stands before and after it is rewritten on its own; a subject without
    such an occurrence is returned unchanged. *)
Theorem verb_nieun_tensification :
  (∀ (a b : str) (coda onset k q : Z) (descriptive : bool),
     stem_coda coda = Some k → tensed onset = Some q →
     verb_nieun (a ++ [coda; slash; tag_P; onset] ++ b) descriptive
     = verb_nieun a descriptive ++ [k; q] ++ verb_nieun b descriptive)
  ∧ (∀ (s : str) (descriptive : bool),
       (∀ coda onset, is_Some (stem_coda coda) → is_Some (tensed onset) →
          ¬ occurs [coda; slash; tag_P; onset] s) →
       verb_nieun s descriptive = s).
Proof.
  split.
  - intros. by apply verb_nieun_site.
  - intros. by apply verb_nieun_free.
Qed.

(** 앉/P고 gives 안꼬, and 가 stays. *)
Lemma verb_nieun_tensification_witness :
  verb_nieun ([cho_IEUNG; jung_A] ++ [jong_NJ; slash; tag_P; cho_G]
              ++ [jung_O]) false
  = verb_nieun [cho_IEUNG; jung_A] false ++ [jong_N; cho_GG]
    ++ verb_nieun [jung_O] false
  ∧ verb_nieun [cho_G; jung_A] false = [cho_G; jung_A].
Proof.
  split.
  - apply (proj1 verb_nieun_tensification); reflexivity.
  - apply (proj2 verb_nieun_tensification).
    intros coda onset _ _ (a & b & Hab).
    apply (f_equal length) in Hab. rewrite !length_app in Hab.
    simpl in Hab. lia.
Defined.

(** X14. In any subject, a coda ᆮ, ᇀ or ᆴ followed by ᄋ and ᅵ or ᅧ is
    replaced by ᄌ, ᄎ or ᆯᄎ respectively, followed by that vowel, and ᆮ히 by
    치; what stands before and after it is rewritten on its own.  A subject
    without such an occurrence is returned unchanged. *)
Theorem palatalize_sites :
  (∀ (a b : str) (coda onset v : Z) (out : str) (descriptive : bool),
     palatalized coda onset v = Some out →
     palatalize (a ++ [coda; onset; v] ++ b) descriptive
     = palatalize a descriptive ++ out ++ palatalize b descriptive)
  ∧ (∀ (s : str) (descriptive : bool),
       (∀ coda onset v, is_Some (palatalized coda onset v) →
          ¬ occurs [coda; onset; v] s) →
       palatalize s descriptive = s).
Proof.
  split.
  - intros. by apply palatalize_site.
  - intros. by apply palatalize_free.
Qed.

(** 같이 gives 가치, and 가 stays. *)
Lemma palatalize_sites_witness :
  palatalize ([cho_G; jung_A] ++ [jong_T; cho_IEUNG; jung_I] ++ []) false
  = palatalize [cho_G; jung_A] false ++ [cho_C; jung_I]
    ++ palatalize [] false
  ∧ palatalize [cho_G; jung_A] false = [cho_G; jung_A].
Proof.
  split.
  - apply (proj1 palatalize_sites). reflexivity.
  - apply (proj2 palatalize_sites).
    intros coda onset v _ (a & b & Hab).
    apply (f_equal length) in Hab. rewrite !length_app in Hab.
    simpl in Hab. lia.
Defined.

(* ===================================================================== *)
(** * g2p/special.py: modifying_rieul *)
(* ===================================================================== *)

Section modifying_rieul.

Implicit Types (s a b x : str) (d : bool).

Lemma suffix_app_cases x l r :
  x `suffix_of` l ++ r →
  x `suffix_of` r ∨ ∃ x', x = x' ++ r ∧ x' ≠ [] ∧ x' `suffix_of` l.
Proof.
  destruct x as [|x0 x]; [left; apply suffix_nil|].
  induction l as [|c l IH]; simpl; intros Hsuf; [by left|].
  apply suffix_cons_inv in Hsuf as [->|Hsuf].
  - right. by exists (c :: l).
  - destruct (IH Hsuf) as [?|(x' & -> & ? & ?)]; [by left|].
    right. exists x'. split_and!; [done|done|by apply suffix_cons_r].
Qed.

(** A rule that leaves a mark in each of its expansions: an output without
    marks is the subject itself. *)
Lemma re_sub_unmarked m (mark : Z → Prop) s :
  (∀ t out n, m t = Some (out, n) → ∃ z, z ∈ out ∧ mark z) →
  (∀ z, z ∈ re_sub m s → ¬ mark z) →
  re_sub m s = s.
Proof.
  intros Hm. induction s as [|c s IH]; [done|].
  rewrite re_sub_cons.
  destruct (m (c :: s)) as [[out n]|] eqn:Hc.
  - intros Hno. destruct (Hm _ _ _ Hc) as (z & Hz & Hmark).
    destruct (Hno z); [|done]. apply elem_of_app. by left.
  - intros Hno. f_equal. apply IH. intros z Hz. apply Hno.
    by apply elem_of_cons; right.
Qed.

(** What ends the output, and holds no last character of an expansion,
    ends the subject. *)
Lemma re_sub_suffix_inv m (mark : Z → Prop) x s :
  (∀ t out n, m t = Some (out, n) → ∃ z, last out = Some z ∧ mark z) →
  (∀ z, z ∈ x → ¬ mark z) →
  x `suffix_of` re_sub m s → x `suffix_of` s.
Proof.
  intros Hm Hx. remember (length s) as k eqn:Hk. revert s Hk.
  induction k as [k IH] using lt_wf_ind. intros s ->.
  destruct s as [|c s]; [done|]. rewrite re_sub_cons.
  destruct (m (c :: s)) as [[out n]|] eqn:Hc.
  - intros [Hsuf|(x' & -> & Hne & [pre ->])]%suffix_app_cases.
    + apply suffix_cons_r.
      trans (drop (Nat.pred n) s); [|apply suffix_drop].
      apply (IH (length (drop (Nat.pred n) s))); [|done|done].
      rewrite length_drop. simpl. lia.
    + destruct (Hm _ _ _ Hc) as (z & Hz & Hmark).
      destruct (Hx z); [|done]. apply elem_of_app. left.
      rewrite last_app in Hz.
      destruct (last x') as [z'|] eqn:Hlast.
      * simplify_eq. by apply last_Some_elem_of.
      * by apply last_None in Hlast.
  - destruct x as [|x0 x]; [intros _; apply suffix_nil|].
    intros [[= -> ->]|Hsuf]%suffix_cons_inv.
    + rewrite (re_sub_unmarked m mark s); [done| |].
      * intros t out n Ht. destruct (Hm _ _ _ Ht) as (z & Hz & Hmark).
        exists z. split; [|done]. by apply last_Some_elem_of.
      * intros z Hz. apply Hx. by apply elem_of_cons; right.
    + apply suffix_cons_r. by apply (IH (length s)); [simpl; lia|..].
Qed.

Lemma re_sub_const_suffix_inv p out z x s :
  last out = Some z → z ∉ x →
  x `suffix_of` re_sub (pattern p (λ _, out)) s → x `suffix_of` s.
Proof.
  intros Hz Hx. apply (re_sub_suffix_inv _ (λ z', z' = z)).
  - intros t o n (mt & rest & _ & _ & -> & _)%pattern_Some. by exists z.
  - by intros z' Hz' ->.
Qed.

(** The pass of ᆯ걸 over a site that starts with ᆯ: a match that starts
    before the site reaches its ᆯ only from ᆯ거. *)
Lemma geol_pass repl a w b :
  ¬ [jong_L; cho_G; jung_EO] `suffix_of` a →
  inert [lit jong_L; lit cho_G; lit jung_EO; lit jong_L] (jong_L :: w) = true →
  re_sub (pattern [lit jong_L; lit cho_G; lit jung_EO; lit jong_L] repl)
         (a ++ (jong_L :: w) ++ b)
  = re_sub (pattern [lit jong_L; lit cho_G; lit jung_EO; lit jong_L] repl) a
    ++ (jong_L :: w)
    ++ re_sub (pattern [lit jong_L; lit cho_G; lit jung_EO; lit jong_L] repl) b.
Proof.
  intros Ha Hw. rewrite re_sub_pattern_app.
  - by rewrite re_sub_pattern_skip.
  - intros t Hne Hsuf Hlen.
    destruct t as [|x1 [|x2 [|x3 [|]]]]; simpl in Hlen; try lia; [done|..].
    + simpl. by destruct (lit jong_L x1).
    + simpl. by destruct (lit jong_L x1), (lit cho_G x2).
    + simpl.
      destruct (lit jong_L x1) eqn:H1; [|done].
      destruct (lit cho_G x2) eqn:H2; [|done].
      destruct (lit jung_EO x3) eqn:H3; [|done].
      apply lit_true in H1, H2, H3. by subst.
Qed.

Lemma modifying_rieul_site a pair b d :
  pair ∈ modifying_rieul_pairs →
  pair.1 ≠ [jong_L; cho_G; jung_EO; jong_L] →
  ¬ [jong_L; cho_G; jung_EO] `suffix_of` a →
  modifying_rieul (a ++ pair.1 ++ b) d
  = modifying_rieul a d ++ pair.2 ++ modifying_rieul b d.
Proof.
  intros Hin Hne Ha.
  unfold modifying_rieul, sub_pairs.
  unfold modifying_rieul_pairs in Hin |- * at 1 2 3.
  cbn [fmap list_fmap foldl literal fst snd].
  elem_cases Hin; cbn [fst snd] in *; try done;
    do 5 pass_site;
    (rewrite geol_pass;
     [|intros Hs;
       do 5 (eapply re_sub_const_suffix_inv in Hs;
             [|reflexivity|intros Hz; elem_cases Hz]);
       done
      |vm_compute; reflexivity]);
    do 6 pass_site; reflexivity.
Qed.

Lemma modifying_rieul_free s d :
  (∀ pair, pair ∈ modifying_rieul_pairs → ¬ occurs pair.1 s) →
  modifying_rieul s d = s.
Proof.
  intros Hfree. unfold modifying_rieul. apply sub_pairs_free.
  intros pr mt (pair & -> & Hin)%list_elem_of_fmap Hall. simpl in Hall.
  assert (mt = pair.1) as ->; [|by apply Hfree].
  clear Hin. revert mt Hall. induction (pair.1) as [|c l IH]; intros mt Hall.
  - by inversion Hall.
  - simpl in Hall. inversion Hall as [|? c' ? mt' Hc Hall']; subst.
    apply lit_true in Hc as ->. f_equal. by apply IH.
Qed.

End modifying_rieul.

(** X15. In any subject whose part before the occurrence does not end in
    ᆯ거, an occurrence of a text of the list of [modifying_rieul] other than
    ᆯ걸 is replaced by the text paired with it, and what stands before and
    after it is rewritten on its own; a subject in which no text of the
    list occurs is returned unchanged. *)
Theorem modifying_rieul_sites :
  (∀ (a b : str) (pair : str * str) (descriptive : bool),
     pair ∈ modifying_rieul_pairs →
     pair.1 ≠ [jong_L; cho_G; jung_EO; jong_L] →
     ¬ [jong_L; cho_G; jung_EO] `suffix_of` a →
     modifying_rieul (a ++ pair.1 ++ b) descriptive
     = modifying_rieul a descriptive ++ pair.2
       ++ modifying_rieul b descriptive)
  ∧ (∀ (s : str) (descriptive : bool),
       (∀ pair, pair ∈ modifying_rieul_pairs → ¬ occurs pair.1 s) →
       modifying_rieul s descriptive = s).
Proof.
  split.
  - intros. by apply modifying_rieul_site.
  - intros. by apply modifying_rieul_free.
Qed.

(** 갈/E 고 gives 갈 꼬, and 가 stays. *)
Lemma modifying_rieul_sites_witness :
  modifying_rieul
    ([cho_G; jung_A]
     ++ ([jong_L; slash; tag_E; space; cho_G], [jong_L; space; cho_GG]).1
     ++ [jung_O]) false
  = modifying_rieul [cho_G; jung_A] false
    ++ ([jong_L; slash; tag_E; space; cho_G], [jong_L; space; cho_GG]).2
    ++ modifying_rieul [jung_O] false
  ∧ modifying_rieul [cho_G; jung_A] false = [cho_G; jung_A].
Proof.
  split.
  - apply (proj1 modifying_rieul_sites).
    + apply elem_of_cons. by left.
    + discriminate.
    + intros [pre Hpre]. apply (f_equal length) in Hpre.
      rewrite length_app in Hpre. simpl in Hpre. lia.
  - apply (proj2 modifying_rieul_sites).
    intros pair Hin (a & b & Hab). unfold modifying_rieul_pairs in Hin.
    elem_cases Hin; apply (f_equal length) in Hab;
      rewrite !length_app in Hab; simpl in Hab; lia.
Defined.

(** After ᆯ거 the ᆯ of an occurrence is taken by ᆯ걸, which the pass for
    ᆯ/E ᄀ has left to match: the part before the occurrence is not
    rewritten on its own. *)
Example modifying_rieul_after_geo :
  modifying_rieul ([jong_L; cho_G; jung_EO]
                   ++ [jong_L; slash; tag_E; space; cho_G]) false
  = [jong_L; cho_GG; jung_EO] ++ [jong_L; space; cho_GG]
  ∧ modifying_rieul [jong_L; cho_G; jung_EO] false = [jong_L; cho_G; jung_EO].
Proof. split; vm_compute; reflexivity. Qed.

(* ===================================================================== *)
(** * g2p/special.py: no rule makes the text longer *)
(* ===================================================================== *)

Section lengths.

Implicit Types (m : matcher) (s : str).

Lemma re_sub_length_le m s :
  non_lengthening m → (length (re_sub m s) ≤ length s)%nat.
Proof.
  intros Hm. remember (length s) as k eqn:Hk. revert s Hk.
  induction k as [k IH] using lt_wf_ind. intros s ->.
  destruct s as [|c s]; [done|]. rewrite re_sub_cons.
  destruct (m (c :: s)) as [[out n]|] eqn:Hc.
  - destruct (Hm _ _ _ Hc) as [Hout Hn]. simpl in Hn.
    rewrite length_app.
    specialize (IH (length (drop (Nat.pred n) s))).
    rewrite length_drop in IH. simpl.
    specialize (IH ltac:(simpl; lia) (drop (Nat.pred n) s)).
    rewrite length_drop in IH. specialize (IH eq_refl). lia.
  - simpl. specialize (IH (length s) ltac:(simpl; lia) s eq_refl). lia.
Qed.

Lemma length_preserving_non_lengthening m :
  length_preserving m → non_lengthening m.
Proof. intros Hm s out n Hs. destruct (Hm _ _ _ Hs). lia. Qed.

Lemma pattern_non_lengthening p repl :
  p ≠ [] →
  (∀ mt, length mt = length p → (length (repl mt) ≤ length p)%nat) →
  non_lengthening (pattern p repl).
Proof.
  intros Hp Hrepl s out n (mt & rest & -> & Hall & -> & ->)%pattern_Some.
  apply Forall2_length in Hall. rewrite length_app.
  split; [by apply Hrepl|].
  destruct p; [done|]. simpl in *. lia.
Qed.

Lemma sub_pairs_length_le pairs s :
  (∀ pr, pr ∈ pairs → non_lengthening (pattern pr.1 pr.2)) →
  (length (sub_pairs pairs s) ≤ length s)%nat.
Proof.
  unfold sub_pairs. revert s.
  induction pairs as [|[p repl] pairs IH]; intros s Hpairs; [done|].
  simpl. etrans.
  - apply IH. intros pr Hin. apply Hpairs. by apply elem_of_cons; right.
  - apply re_sub_length_le. apply (Hpairs (p, repl)).
    by apply elem_of_cons; left.
Qed.

(** A template of bounded groups and letters is not longer than its
    bound. *)
Lemma group_length i n mt : (length (group i n mt) ≤ n)%nat.
Proof. unfold group. rewrite length_take. lia. Qed.

End lengths.

(** A pattern whose template is not longer than the pattern. *)
Ltac pattern_bound :=
  apply pattern_non_lengthening;
  [simpl; discriminate
  |intros mt Hmt; cbn beta; rewrite ?length_app;
   cbn [fmap list_fmap length fst snd];
   pose proof (group_length 0 1 mt); pose proof (group_length 0 2 mt);
   pose proof (group_length 2 1 mt); pose proof (group_length 3 2 mt);
   lia].

(** The substitutions of a rule, from the last one to the first. *)
Ltac length_steps :=
  repeat (etrans; [apply re_sub_length_le; pattern_bound|]);
  reflexivity.

(** X16. No rule of special.py makes its subject longer, whatever the flag
    says; [jyeo], [ye], [consonant_ui], [vowel_ui] and [balb] keep its
    length. *)
Theorem special_rules_lengths :
  (∀ (rule : str → bool → str) (inp : str) (descriptive : bool),
     rule ∈ [jyeo; ye; consonant_ui; josa_ui; vowel_ui; jamo; rieulgiyeok;
             rieulbieub; verb_nieun; balb; palatalize; modifying_rieul] →
     (length (rule inp descriptive) ≤ length inp)%nat)
  ∧ (∀ (rule : str → bool → str) (inp : str) (descriptive : bool),
       rule ∈ [jyeo; ye; consonant_ui; vowel_ui; balb] →
       length (rule inp descriptive) = length inp).
Proof.
  split; intros rule inp d Hrule; elem_cases Hrule.
  - unfold jyeo. length_steps.
  - unfold ye. destruct d; length_steps.
  - unfold consonant_ui. length_steps.
  - unfold josa_ui, str_replace. destruct d; length_steps.
  - unfold vowel_ui. destruct d; length_steps.
  - unfold jamo. length_steps.
  - unfold rieulgiyeok. length_steps.
  - unfold rieulbieub, rieulbieub_sub. length_steps.
  - unfold verb_nieun. apply sub_pairs_length_le.
    intros pr Hin. unfold verb_nieun_pairs in Hin.
    elem_cases Hin; cbn [fst snd]; pattern_bound.
  - by rewrite balb_length.
  - unfold palatalize. length_steps.
  - unfold modifying_rieul. apply sub_pairs_length_le.
    intros pr (pair & -> & Hin)%list_elem_of_fmap.
    unfold modifying_rieul_pairs in Hin.
    elem_cases Hin; cbn [fst snd literal]; pattern_bound.
  - unfold jyeo. by apply two_length.
  - unfold ye. destruct d; [|done]. by apply two_length.
  - unfold consonant_ui. by apply two_length.
  - unfold vowel_ui. destruct d; [|done]. apply re_sub_length.
    intros s out n (mt & rest & -> & Hall & -> & ->)%pattern_Some.
    apply Forall2_length in Hall. simpl in Hall.
    do 4 (destruct mt as [|? mt]; try done).
    rewrite !length_app. simpl. lia.
  - apply balb_length.
Qed.

(** 같이 is not longer after [palatalize], and 계 is as long after [ye]. *)
Lemma special_rules_lengths_witness :
  (length (palatalize [cho_G; jung_A; jong_T; cho_IEUNG; jung_I] false)
   ≤ length [cho_G; jung_A; jong_T; cho_IEUNG; jung_I])%nat
  ∧ length (ye [cho_G; jung_YE] true) = length [cho_G; jung_YE].
Proof.
  split.
  - apply (proj1 special_rules_lengths).
    do 10 (apply elem_of_cons; right). apply elem_of_cons. by left.
  - apply (proj2 special_rules_lengths).
    apply elem_of_cons; right. apply elem_of_cons. by left.
Defined.

(* ===================================================================== *)
(** * g2p/special.py: jamo, after ᅳ and elsewhere *)
(* ===================================================================== *)

Section jamo_keep.

(** One substitution of [jamo], over a coda and ᄋ that follow a character
    [v] outside its first class. *)
Variables (cl1 cl2 : cls) (o : Z).

#[local] Abbreviation mk :=
  (pattern [cl1; cl2; lit cho_IEUNG] (λ m, group 0 1 m ++ [o])).

Lemma jamo_pass_keep a v coda b :
  cl1 v = false → cl1 coda = false → v ≠ cho_IEUNG → coda ≠ cho_IEUNG →
  ∃ b', re_sub mk (a ++ [v; coda; cho_IEUNG] ++ b)
        = re_sub mk a ++ [v; coda; cho_IEUNG] ++ b'
        ∧ (mk (cho_IEUNG :: b) = None → b' = re_sub mk b).
Proof.
  intros Hv Hcoda Hv' Hcoda'.
  destruct (jamo_pass_ieung cl1 cl2 o b) as (b' & Hb' & Hnone).
  exists b'. split; [|done].
  change ([v; coda; cho_IEUNG] ++ b) with ([v; coda] ++ cho_IEUNG :: b).
  rewrite re_sub_pattern_app.
  - rewrite re_sub_pattern_skip.
    + rewrite Hb'. reflexivity.
    + simpl. rewrite Hv, Hcoda. reflexivity.
  - intros t Hne Hsuf Hlen.
    apply lit_false in Hv', Hcoda'.
    destruct t as [|x1 [|x2 [|]]]; simpl in Hlen; try lia; [done|..]; simpl.
    + rewrite Hcoda'. by destruct (cl1 x1), (cl2 v).
    + rewrite Hv'. by destruct (cl1 x1), (cl2 x2).
Qed.

End jamo_keep.

Section jamo_elsewhere.

Implicit Types (a b s : str) (d : bool).

Lemma not_first_class v :
  v ∉ [jung_EU; cho_G; cho_IEUNG] →
  oneof [cho_G; jung_EU] v = false ∧ oneof [cho_IEUNG; jung_EU] v = false
  ∧ v ≠ cho_IEUNG.
Proof.
  intros Hv. split_and!.
  - apply bool_decide_eq_false_2. intros Hin. apply Hv.
    elem_cases Hin; elem_decide.
  - apply bool_decide_eq_false_2. intros Hin. apply Hv.
    elem_cases Hin; elem_decide.
  - intros ->. apply Hv. elem_decide.
Qed.

(** A pass of [jamo] over a coda and ᄋ that follow [v]. *)
Ltac jamo_keep_pass H1 H2 H3 :=
  match goal with
  | |- context [re_sub (pattern [?c1; ?c2; lit cho_IEUNG]
                                (λ m, group 0 1 m ++ [?o]))
                  (?a ++ [?v; ?c; cho_IEUNG] ++ ?b)] =>
      let b' := fresh "b'" in
      let Heq := fresh "Heq" in
      destruct (jamo_pass_keep c1 c2 o a v c b
                  ltac:(first [exact H1|exact H2])
                  ltac:(vm_compute; reflexivity)
                  H3
                  ltac:(discriminate))
        as (b' & Heq & ?);
      rewrite Heq; clear Heq
  end.

Lemma jamo_keep a v coda b d :
  v ∉ [jung_EU; cho_G; cho_IEUNG] → is_Some (jamo_onset coda) →
  ∃ b', jamo (a ++ [v; coda; cho_IEUNG] ++ b) d
        = jamo a d ++ [v; coda; cho_IEUNG] ++ b'.
Proof.
  intros (H1 & H2 & H3)%not_first_class [onset Ho]. unfold jamo.
  apply jamo_onset_Some in Ho.
  destruct Ho as [[-> ->]|[[Hc ->]|[[-> ->]|[-> ->]]]]; [|elem_cases Hc| |].
  all: do 4 jamo_keep_pass H1 H2 H3; eexists; reflexivity.
Qed.

Ltac jamo_keep_pass_eq H1 H2 H3 :=
  match goal with
  | |- context [re_sub (pattern [?c1; ?c2; lit cho_IEUNG]
                                (λ m, group 0 1 m ++ [?o]))
                  (?a ++ [?v; ?c; cho_IEUNG] ++ ?b)] =>
      let b' := fresh "b'" in
      let Heq := fresh "Heq" in
      let Hb' := fresh "Hb'" in
      destruct (jamo_pass_keep c1 c2 o a v c b
                  ltac:(first [exact H1|exact H2])
                  ltac:(vm_compute; reflexivity)
                  H3
                  ltac:(discriminate))
        as (b' & Heq & Hb');
      rewrite Heq; clear Heq;
      rewrite Hb'; [clear Hb'|];
      [ | apply jamo_pass_ieung_None; intros c0 rest0 Hc0;
          match goal with
          | N : no_coda_ieung b |- _ =>
              pose proof (jamo_onset_None _ (N _ _ Hc0)); tauto
          end ]
  end.

Lemma jamo_keep_eq a v coda b d :
  v ∉ [jung_EU; cho_G; cho_IEUNG] → is_Some (jamo_onset coda) →
  no_coda_ieung b →
  jamo (a ++ [v; coda; cho_IEUNG] ++ b) d
  = jamo a d ++ [v; coda; cho_IEUNG] ++ jamo b d.
Proof.
  intros (H1 & H2 & H3)%not_first_class [onset Ho] N0. unfold jamo.
  pose proof (jamo_pass_no_coda_ieung
                (oneof [cho_G; jung_EU]) (lit jong_D) cho_S b
                ltac:(done) N0) as N1.
  pose proof (jamo_pass_no_coda_ieung
                (oneof [cho_IEUNG; jung_EU])
                (oneof [jong_J; jong_C; jong_T; jong_H]) cho_S _
                ltac:(done) N1) as N2.
  pose proof (jamo_pass_no_coda_ieung
                (oneof [cho_IEUNG; jung_EU]) (oneof [jong_K]) cho_G _
                ltac:(done) N2) as N3.
  apply jamo_onset_Some in Ho.
  destruct Ho as [[-> ->]|[[Hc ->]|[[-> ->]|[-> ->]]]]; [|elem_cases Hc| |].
  all: do 4 jamo_keep_pass_eq H1 H2 H3; reflexivity.
Qed.

Lemma jamo_free s d :
  (∀ c coda, c ∈ [jung_EU; cho_G; cho_IEUNG] → is_Some (jamo_onset coda) →
             ¬ occurs [c; coda; cho_IEUNG] s) →
  jamo s d = s.
Proof.
  intros Hfree. unfold jamo.
  do 4 (rewrite (pattern_free _ _ s);
        [|intros mt Hall;
          repeat match goal with
                 | H' : Forall2 _ (_ :: _) _ |- _ =>
                     inversion H'; clear H'; subst
                 | H' : Forall2 _ [] _ |- _ => inversion H'; clear H'; subst
                 end;
          repeat match goal with
                 | H' : lit _ _ = true |- _ => apply lit_true in H'
                 | H' : oneof _ _ = true |- _ => apply oneof_true in H'
                 end;
          subst;
          repeat match goal with H : _ ∈ _ |- _ => elem_cases H end;
          (apply Hfree; [elem_decide|vm_compute; by eexists])]).
  done.
Qed.

End jamo_elsewhere.

(** C7, as the code has it. In any subject, a coda followed by the null
    onset ᄋ directly after the vowel ᅳ (U+1173) is replaced by an onset:
    ᆮ by ᄉ, each of ᆽ ᆾ ᇀ ᇂ by ᄉ, ᆿ by ᄀ and ᇁ by ᄇ; what stands before
    it is rewritten on its own, and so is what stands after it when that
    does not itself begin with such a coda and ᄋ. So 그+ᆮ+ᄋ becomes
    그+ᄉ. After ᅵ, and after every character other than ᅳ, ᄀ and ᄋ, such a
    coda and ᄋ are kept, what stands before and after them being rewritten
    in the same way; and a subject in which no such coda and ᄋ follow ᅳ, ᄀ
    or ᄋ is returned unchanged. (Nothing is said of a coda and ᄋ directly
    after ᄀ or ᄋ.) *)
Theorem jamo_regulation_16 :
  (∀ (a b : str) (coda onset : Z) (descriptive : bool),
     jamo_onset coda = Some onset →
     ∃ b', jamo (a ++ [jung_EU; coda; cho_IEUNG] ++ b) descriptive
           = jamo a descriptive ++ [jung_EU; onset] ++ b')
  ∧ (∀ (a b : str) (coda onset : Z) (descriptive : bool),
       jamo_onset coda = Some onset → no_coda_ieung b →
       jamo (a ++ [jung_EU; coda; cho_IEUNG] ++ b) descriptive
       = jamo a descriptive ++ [jung_EU; onset] ++ jamo b descriptive)
  ∧ (∀ descriptive : bool,
       jamo [cho_G; jung_EU; jong_D; cho_IEUNG] descriptive
       = [cho_G; jung_EU; cho_S])
  ∧ (∀ (a b : str) (v coda : Z) (descriptive : bool),
       v ∉ [jung_EU; cho_G; cho_IEUNG] → is_Some (jamo_onset coda) →
       ∃ b', jamo (a ++ [v; coda; cho_IEUNG] ++ b) descriptive
             = jamo a descriptive ++ [v; coda; cho_IEUNG] ++ b')
  ∧ (∀ (a b : str) (v coda : Z) (descriptive : bool),
       v ∉ [jung_EU; cho_G; cho_IEUNG] → is_Some (jamo_onset coda) →
       no_coda_ieung b →
       jamo (a ++ [v; coda; cho_IEUNG] ++ b) descriptive
       = jamo a descriptive ++ [v; coda; cho_IEUNG] ++ jamo b descriptive)
  ∧ (∀ (s : str) (descriptive : bool),
       (∀ c coda, c ∈ [jung_EU; cho_G; cho_IEUNG] →
                  is_Some (jamo_onset coda) →
                  ¬ occurs [c; coda; cho_IEUNG] s) →
       jamo s descriptive = s).
Proof.
  split_and!.
  - intros. by apply jamo_site.
  - intros. by apply jamo_site_eq.
  - intros. vm_compute. reflexivity.
  - intros. by apply jamo_keep.
  - intros. by apply jamo_keep_eq.
  - intros. by apply jamo_free.
Qed.

(** 키읔이 (키으+ᆿ+이) gives 키으기, and 지읒이 after a space gives
    지으시; 디+ᆮ+이, with ᅵ before the coda, and 가 stay. *)
Lemma jamo_regulation_16_witness :
  (∃ b', jamo ([cho_K; jung_I; cho_IEUNG] ++ [jung_EU; jong_K; cho_IEUNG]
               ++ [jung_I]) false
         = jamo [cho_K; jung_I; cho_IEUNG] false ++ [jung_EU; cho_G] ++ b')
  ∧ jamo ([cho_J; jung_I; cho_IEUNG] ++ [jung_EU; jong_J; cho_IEUNG]
          ++ [jung_I]) false
    = jamo [cho_J; jung_I; cho_IEUNG] false ++ [jung_EU; cho_S]
      ++ jamo [jung_I] false
  ∧ jamo ([cho_D] ++ [jung_I; jong_D; cho_IEUNG] ++ [jung_I]) false
    = jamo [cho_D] false ++ [jung_I; jong_D; cho_IEUNG] ++ jamo [jung_I] false
  ∧ jamo [cho_G; jung_A] false = [cho_G; jung_A].
Proof.
  split_and!.
  - apply (proj1 jamo_regulation_16). reflexivity.
  - apply (proj1 (proj2 jamo_regulation_16)); [reflexivity|].
    intros c rest Hb. discriminate Hb.
  - apply (proj1 (proj2 (proj2 (proj2 (proj2 jamo_regulation_16))))).
    + intros Hv. elem_cases Hv.
    + vm_compute. by eexists.
    + intros c rest Hb. discriminate Hb.
  - apply (proj2 (proj2 (proj2 (proj2 (proj2 jamo_regulation_16))))).
    intros c coda _ _ (a & b & Hab).
    apply (f_equal length) in Hab. rewrite !length_app in Hab.
    simpl in Hab. lia.
Defined.

(** C7, as stated, fails after the vowel ᅵ (U+1175): 디+ᆮ+ᄋ is left as
    it is. *)
Lemma jamo_regulation_16_counterexample :
  ¬ (∀ (v : Z) (a b : str) (coda onset : Z) (descriptive : bool),
       v ∈ [jung_EU; jung_I] → jamo_onset coda = Some onset →
       ∃ b', jamo (a ++ [v; coda; cho_IEUNG] ++ b) descriptive
             = jamo a descriptive ++ [v; onset] ++ b').
Proof.
  intros H.
  destruct (H jung_I [cho_D] [] jong_D cho_S false) as (b' & Hb').
  - apply elem_of_cons. right. apply elem_of_cons. by left.
  - reflexivity.
  - vm_compute in Hb'. discriminate Hb'.
Qed.

(** The first classes of the patterns, written [그] and [으], also hold the
    onsets ᄀ and ᄋ: a coda and ᄋ directly after them are rewritten too. *)
Example jamo_bare_onset :
  jamo [cho_G; jong_D; cho_IEUNG; jung_A] false = [cho_G; cho_S; jung_A]
  ∧ jamo [cho_IEUNG; jong_J; cho_IEUNG; jung_I] false
    = [cho_IEUNG; cho_S; jung_I].
Proof. split; vm_compute; reflexivity. Qed.

(* ===================================================================== *)
(** * g2p/special.py: ye, vowel_ui and josa_ui with and without the flag *)
(* ===================================================================== *)

Section ye_positions.

Implicit Types (inp : str) (i : nat) (c p : Z).

(** ᅨ after one of the fourteen onsets. *)
Lemma ye_lookup_onset inp i p :
  inp !! i = Some jung_YE → prev_char inp i = Some p → p ∈ ye_onsets →
  ye inp true !! i = Some jung_E.
Proof.
  intros Hi Hp Hin. unfold ye. rewrite two_lookup by done.
  rewrite Hi. simpl. f_equal. unfold after_class. rewrite Hp. simpl.
  unfold ye_onsets in Hin. elem_cases Hin; reflexivity.
Qed.

(** Any other character, and ᅨ elsewhere but after ᄅ or U+3139. *)
Lemma ye_lookup_other inp i c :
  inp !! i = Some c →
  (c = jung_YE →
   ∀ p, prev_char inp i = Some p → p ∉ ye_onsets ++ [cho_R; hcj_RIEUL]) →
  ye inp true !! i = Some c.
Proof.
  intros Hi Hc. unfold ye. rewrite two_lookup by done.
  rewrite Hi. simpl. f_equal. unfold after_class.
  destruct (bool_decide (c = jung_YE)) eqn:Hye; [|done].
  apply bool_decide_eq_true_1 in Hye.
  destruct (prev_char inp i) as [p|] eqn:Hp; [|done]. simpl.
  destruct (oneof ye_class p) eqn:Hcl; [|done].
  apply oneof_true in Hcl. destruct (Hc Hye p eq_refl).
  unfold ye_class in Hcl. elem_cases Hcl; elem_decide.
Qed.

Lemma ye_length inp d : length (ye inp d) = length inp.
Proof. unfold ye. destruct d; [|done]. by apply two_length. Qed.

End ye_positions.

Section josa_keep.

(** With the flag, a /J that does not follow 의 stays. *)
Lemma josa_ui_keep (a b : str) :
  ¬ [cho_IEUNG; jung_YI] `suffix_of` a →
  josa_ui (a ++ [slash; tag_J] ++ b) true
  = josa_ui a true ++ [slash; tag_J] ++ josa_ui b true.
Proof.
  intros Ha. unfold josa_ui. rewrite re_sub_pattern_app.
  - by rewrite re_sub_pattern_skip.
  - intros t Hne Hsuf Hlen.
    destruct t as [|x1 [|x2 [|x3 [|]]]]; simpl in Hlen; try lia; [done|..].
    + simpl. by destruct (lit cho_IEUNG x1).
    + simpl.
      destruct (lit cho_IEUNG x1) eqn:H1; [|done].
      destruct (lit jung_YI x2) eqn:H2; [|done].
      apply lit_true in H1, H2. by subst.
    + simpl. by destruct (lit cho_IEUNG x1), (lit jung_YI x2), (lit slash x3).
Qed.

End josa_keep.

Section ui_keep.

(** With the flag, a 의 at the start or after white space stays; what
    follows it is rewritten on its own unless it is another 의. *)
Lemma vowel_ui_keep (a b : str) :
  (∀ w, last a = Some w → isspace w = true) →
  ∃ b', vowel_ui (a ++ [cho_IEUNG; jung_YI] ++ b) true
        = vowel_ui a true ++ [cho_IEUNG; jung_YI] ++ b'
        ∧ (¬ [cho_IEUNG; jung_YI] `prefix_of` b → b' = vowel_ui b true).
Proof.
  intros Ha. unfold vowel_ui.
  set (m := pattern [nonspace; lit cho_IEUNG; lit jung_YI]
                    (λ m, group 0 2 m ++ [jung_I])).
  assert (Hsplit : re_sub m (a ++ [cho_IEUNG; jung_YI] ++ b)
                   = re_sub m a ++ re_sub m ([cho_IEUNG; jung_YI] ++ b)).
  { apply re_sub_pattern_app. intros t Ht [a' ->] Hlen.
    destruct t as [|y [|z [|? ?]]]; [done| | |simpl in Hlen; lia].
    - simpl. destruct (nonspace y) eqn:Hy; [|done]. exfalso.
      specialize (Ha y). rewrite last_snoc in Ha.
      unfold nonspace in Hy. rewrite Ha in Hy; done.
    - simpl. by destruct (nonspace y), (lit cho_IEUNG z). }
  rewrite Hsplit. simpl app.
  rewrite re_sub_cons_None; [|subst m; unfold pattern; simpl;
                               by destruct (nonspace cho_IEUNG)].
  rewrite re_sub_cons.
  destruct (m (jung_YI :: b)) as [[out n]|] eqn:Hm.
  - subst m. invert_match Hm.
    match goal with H : _ :: _ = _ |- _ => simpl in H; injection H as -> -> end.
    eexists. split; [reflexivity|].
    intros Hb. destruct Hb. by eexists.
  - eexists. split; [reflexivity|done].
Qed.

End ui_keep.

(** C4, as the code has it. With [descriptive] false, [ye] and [vowel_ui]
    return the input and [josa_ui] removes every /J. With [descriptive]
    true: [ye] turns ᅨ into ᅦ after each of the leading consonants
    ᄀ ᄁ ᄃ ᄄ ᄆ ᄇ ᄈ ᄌ ᄍ ᄎ ᄏ ᄐ ᄑ ᄒ, in any subject, and leaves every other
    character where it is, and so ᅨ at the start and after ᄂ, ᄉ, ᄊ, ᄋ or
    any other character (but for ᄅ and U+3139, about which nothing is
    said); [vowel_ui] turns 의 into 이 after a character that is not white
    space (nothing is said of a 의 that comes directly after another such
    의), keeps a 의 at the start or after white space and changes nothing
    in a subject without such an 의; [josa_ui] turns every 의/J into 에 and
    changes nothing else. In each case what stands before and after the
    rewritten piece is rewritten on its own. *)
Theorem descriptive_rules :
  (∀ inp : str, ye inp false = inp)
  ∧ (∀ (a b : str) (c : Z),
       c ∈ ye_onsets →
       ye (a ++ [c; jung_YE] ++ b) true = ye a true ++ [c; jung_E] ++ ye b true)
  ∧ (∀ s : str,
       (∀ c, c ∈ ye_onsets ++ [cho_R; hcj_RIEUL] → ¬ occurs [c; jung_YE] s) →
       ye s true = s)
  ∧ (∀ (inp : str) (i : nat) (p : Z),
       inp !! i = Some jung_YE → prev_char inp i = Some p → p ∈ ye_onsets →
       ye inp true !! i = Some jung_E)
  ∧ (∀ (inp : str) (i : nat) (c : Z),
       inp !! i = Some c →
       (c = jung_YE →
        ∀ p, prev_char inp i = Some p →
             p ∉ ye_onsets ++ [cho_R; hcj_RIEUL]) →
       ye inp true !! i = Some c)
  ∧ (∀ (inp : str) (descriptive : bool),
       length (ye inp descriptive) = length inp)
  ∧ (∀ inp : str, vowel_ui inp false = inp)
  ∧ (∀ (a b : str) (x : Z),
       nonspace x = true →
       ¬ (x = jung_YI ∧ ∃ a' y, a = a' ++ [y; cho_IEUNG] ∧ nonspace y = true) →
       vowel_ui (a ++ [x; cho_IEUNG; jung_YI] ++ b) true
       = vowel_ui a true ++ [x; cho_IEUNG; jung_I] ++ vowel_ui b true)
  ∧ (∀ s : str,
       (∀ x, nonspace x = true → ¬ occurs [x; cho_IEUNG; jung_YI] s) →
       vowel_ui s true = s)
  ∧ (∀ a b : str,
       (∀ w, last a = Some w → isspace w = true) →
       ∃ b', vowel_ui (a ++ [cho_IEUNG; jung_YI] ++ b) true
             = vowel_ui a true ++ [cho_IEUNG; jung_YI] ++ b'
             ∧ (¬ [cho_IEUNG; jung_YI] `prefix_of` b → b' = vowel_ui b true))
  ∧ (∀ a b : str,
       josa_ui (a ++ [slash; tag_J] ++ b) false
       = josa_ui a false ++ josa_ui b false)
  ∧ (∀ s : str, ¬ occurs [slash; tag_J] s → josa_ui s false = s)
  ∧ (∀ a b : str,
       josa_ui (a ++ [cho_IEUNG; jung_YI; slash; tag_J] ++ b) true
       = josa_ui a true ++ [cho_IEUNG; jung_E] ++ josa_ui b true)
  ∧ (∀ s : str,
       ¬ occurs [cho_IEUNG; jung_YI; slash; tag_J] s → josa_ui s true = s).
Proof.
  split_and!.
  - reflexivity.
  - intros. by apply ye_site.
  - intros. by apply ye_free.
  - intros. by eapply ye_lookup_onset.
  - intros. by apply ye_lookup_other.
  - intros. apply ye_length.
  - reflexivity.
  - intros. by apply vowel_ui_site.
  - intros. by apply vowel_ui_free.
  - intros. by apply vowel_ui_keep.
  - intros. apply josa_ui_strip_site.
  - intros. by apply josa_ui_strip_free.
  - intros. apply josa_ui_site.
  - intros. by apply josa_ui_free.
Qed.

(** 계 gives 게; in 녜례 the ᅨ of 녜 stays; 주의 gives 주이; a 의 at the
    start stays, alone and before 주의. *)
Lemma descriptive_rules_witness :
  ye ([] ++ [cho_G; jung_YE] ++ []) true
  = ye [] true ++ [cho_G; jung_E] ++ ye [] true
  ∧ ye [cho_G; jung_YE; cho_N; jung_YE] true !! 1%nat = Some jung_E
  ∧ ye [cho_N; jung_YE; cho_R; jung_YE] true !! 1%nat = Some jung_YE
  ∧ vowel_ui ([cho_J] ++ [jung_U; cho_IEUNG; jung_YI] ++ []) true
    = vowel_ui [cho_J] true ++ [jung_U; cho_IEUNG; jung_I] ++ vowel_ui [] true
  ∧ vowel_ui [cho_IEUNG; jung_YI] true = [cho_IEUNG; jung_YI]
  ∧ (∃ b', vowel_ui ([] ++ [cho_IEUNG; jung_YI]
                     ++ [cho_J; jung_U; cho_IEUNG; jung_YI]) true
           = vowel_ui [] true ++ [cho_IEUNG; jung_YI] ++ b'
           ∧ (¬ [cho_IEUNG; jung_YI]
                  `prefix_of` [cho_J; jung_U; cho_IEUNG; jung_YI] →
              b' = vowel_ui [cho_J; jung_U; cho_IEUNG; jung_YI] true)).
Proof.
  split_and!.
  - apply (proj1 (proj2 descriptive_rules)). apply elem_of_cons. by left.
  - apply (proj1 (proj2 (proj2 (proj2 descriptive_rules)))) with cho_G.
    + reflexivity.
    + reflexivity.
    + apply elem_of_cons. by left.
  - apply (proj1 (proj2 (proj2 (proj2 (proj2 descriptive_rules))))).
    + reflexivity.
    + intros _ p [= <-] Hp. unfold ye_onsets in Hp. simpl in Hp.
      elem_cases Hp.
  - apply (proj1 (proj2 (proj2 (proj2 (proj2 (proj2 (proj2
             (proj2 descriptive_rules)))))))).
    + reflexivity.
    + intros [Hx _]. discriminate Hx.
  - apply (proj1 (proj2 (proj2 (proj2 (proj2 (proj2 (proj2 (proj2
             (proj2 descriptive_rules))))))))).
    intros x _ (a & b & Hab).
    apply (f_equal length) in Hab. rewrite !length_app in Hab.
    simpl in Hab. lia.
  - apply (proj1 (proj2 (proj2 (proj2 (proj2 (proj2 (proj2 (proj2 (proj2
             (proj2 descriptive_rules)))))))))).
    intros w Hw. discriminate Hw.
Defined.

(** C4, as stated, fails for the consonant ᄂ: with [descriptive] true, 녜
    stays 녜. *)
Lemma descriptive_rules_counterexample :
  ¬ (∀ (a b : str) (c : Z),
       is_lead_consonant c →
       ye (a ++ [c; jung_YE] ++ b) true = ye a true ++ [c; jung_E] ++ ye b true).
Proof.
  intros H. specialize (H [] [] cho_N).
  assert (Hc : is_lead_consonant cho_N) by (unfold is_lead_consonant; lia).
  specialize (H Hc). vm_compute in H. discriminate H.
Qed.

(* ===================================================================== *)
(** * g2p/special.py: the tag /J after josa_ui *)
(* ===================================================================== *)

(** C6, as the code has it. The output of [josa_ui] contains no /J when
    [descriptive] is false and the input has no //J, and when
    [descriptive] is true and every /J of the input comes directly
    after 의. With [descriptive] true a /J that does not come directly
    after 의 is kept where it is, what stands before and after it being
    rewritten on its own. *)
Theorem josa_ui_no_tag :
  (∀ s : str,
     ¬ occurs [slash; slash; tag_J] s →
     ¬ occurs [slash; tag_J] (josa_ui s false))
  ∧ (∀ s : str,
       (∀ a b, s = a ++ [slash; tag_J] ++ b →
               ∃ a', a = a' ++ [cho_IEUNG; jung_YI]) →
       ¬ occurs [slash; tag_J] (josa_ui s true))
  ∧ (∀ a b : str,
       ¬ [cho_IEUNG; jung_YI] `suffix_of` a →
       josa_ui (a ++ [slash; tag_J] ++ b) true
       = josa_ui a true ++ [slash; tag_J] ++ josa_ui b true).
Proof.
  split_and!.
  - apply josa_ui_strip_clean.
  - apply josa_ui_clean.
  - apply josa_ui_keep.
Qed.

(** C6, as stated, fails: with [descriptive] true only 의/J is rewritten,
    and the tag of 가/J is kept. *)
Lemma josa_ui_no_tag_counterexample :
  ¬ (∀ (s : str) (descriptive : bool),
       ¬ occurs [slash; tag_J] (josa_ui s descriptive)).
Proof.
  intros H. apply (H [cho_G; jung_A; slash; tag_J] true).
  exists [cho_G; jung_A], []. vm_compute. reflexivity.
Qed.

(** 가/J loses its tag without the flag and keeps it with the flag; 나의/J
    loses it with the flag. *)
Lemma josa_ui_no_tag_witness :
  ¬ occurs [slash; tag_J] (josa_ui [cho_G; jung_A; slash; tag_J] false)
  ∧ ¬ occurs [slash; tag_J]
        (josa_ui [cho_N; jung_A; cho_IEUNG; jung_YI; slash; tag_J] true)
  ∧ josa_ui ([cho_G; jung_A] ++ [slash; tag_J] ++ []) true
    = josa_ui [cho_G; jung_A] true ++ [slash; tag_J] ++ josa_ui [] true.
Proof.
  split_and!.
  - apply (proj1 josa_ui_no_tag). intros H.
    repeat (apply occurs_cons in H as [[r Hr]|H]; [discriminate Hr|]).
    by apply occurs_nil in H.
  - apply (proj1 (proj2 josa_ui_no_tag)). intros a b Hab.
    do 4 (destruct a as [|? a]; [discriminate Hab|]).
    destruct a as [|? a].
    + injection Hab as <- <- <- <- _. by exists [cho_N; jung_A].
    + exfalso. apply (f_equal length) in Hab.
      simpl in Hab. rewrite length_app in Hab. simpl in Hab. lia.
  - apply (proj2 (proj2 josa_ui_no_tag)).
    intros [pre Hpre]. destruct pre as [|? pre]; [discriminate Hpre|].
    apply (f_equal length) in Hpre. simpl in Hpre.
    rewrite length_app in Hpre. simpl in Hpre. lia.
Defined.
